(** * anomalyze: the CDR normalization-and-detection engine

    A shallow embedding of the detector modules under
    [src/pages/cdr_pages/] (Call_Spikes, Strange_sim_use, Toll_Free_Abuse,
    SIM_Swapping, Tower_Jumping) and the properties their specification
    states about them.

    Modelling conventions, shared by every module below.
    - Python [str] values are Rocq [string]s; the case and whitespace
      functions are the ASCII ones.
    - pandas timestamps ([datetime64[ns]]) are integers [Z], nanoseconds
      since the epoch; [NaT]/[NaN] cells are [None].
    - Python floats are exact rationals [Qc]: a similarity score is the
      quotient itself, a duration in minutes is the exact quotient.
    - a DataFrame handed to an analysis function is the list of its rows
      in index order; [groupby] yields its groups in sorted key order and
      drops rows whose key is null, as pandas does by default. *)

From Stdlib Require Import QArith Qcanon Qround Lqa Ascii String.
From stdpp Require Import base numbers list sorting gmap strings fin_sets.

Local Open Scope string_scope.
Local Open Scope Z_scope.

(** ** Python string functions *)

Module PyStr.

Definition is_lower_ascii (c : ascii) : bool :=
  (97 <=? nat_of_ascii c)%nat && (nat_of_ascii c <=? 122)%nat.

Definition is_upper_ascii (c : ascii) : bool :=
  (65 <=? nat_of_ascii c)%nat && (nat_of_ascii c <=? 90)%nat.

Definition upper_ascii (c : ascii) : ascii :=
  if is_lower_ascii c then ascii_of_nat (nat_of_ascii c - 32) else c.

Definition lower_ascii (c : ascii) : ascii :=
  if is_upper_ascii c then ascii_of_nat (nat_of_ascii c + 32) else c.

(** [map_str f s] applies [f] to every character of [s]. *)
Fixpoint map_str (f : ascii → ascii) (s : string) : string :=
  match s with
  | EmptyString => EmptyString
  | String c s' => String (f c) (map_str f s')
  end.

(** [s.upper()] and [s.lower()]. *)
Definition upper (s : string) : string := map_str upper_ascii s.
Definition lower (s : string) : string := map_str lower_ascii s.

(** [s.replace(c, "")] for a one-character [c]. *)
Fixpoint remove_char (c : ascii) (s : string) : string :=
  match s with
  | EmptyString => EmptyString
  | String d s' =>
      if Ascii.eqb c d then remove_char c s' else String d (remove_char c s')
  end.

(** [s.startswith(p)]. *)
Definition startswith (s p : string) : bool := String.prefix p s.

(** [s.startswith(ps)] for a tuple [ps]: some member is a prefix. *)
Definition startswith_any (s : string) (ps : list string) : bool :=
  existsb (startswith s) ps.

(** [len(s)]. *)
Definition len (s : string) : Z := Z.of_nat (String.length s).

(** Python's whitespace characters within ASCII: space, tab, newline,
    vertical tab, form feed, carriage return and the four separators
    28 to 31. *)
Definition is_space (c : ascii) : bool :=
  let n := nat_of_ascii c in
  (n =? 32)%nat || ((9 <=? n)%nat && (n <=? 13)%nat)
  || ((28 <=? n)%nat && (n <=? 31)%nat).

Fixpoint lstrip (s : string) : string :=
  match s with
  | EmptyString => EmptyString
  | String c s' => if is_space c then lstrip s' else s
  end.

Fixpoint rstrip (s : string) : string :=
  match s with
  | EmptyString => EmptyString
  | String c s' =>
      match rstrip s' with
      | EmptyString => if is_space c then EmptyString else String c EmptyString
      | r => String c r
      end
  end.

(** [s.strip()]. *)
Definition strip (s : string) : string := rstrip (lstrip s).

(** [s.split(c)] for a one-character separator: the fields between the
    separators, empty fields included. *)
Fixpoint split (c : ascii) (s : string) : list string :=
  match s with
  | EmptyString => [EmptyString]
  | String d s' =>
      match split c s' with
      | [] => [EmptyString]
      | f :: fs =>
          if Ascii.eqb c d then EmptyString :: f :: fs else String d f :: fs
      end
  end.

(** [re.sub(r'\.0$', '', s)]: a final [".0"] is removed; [$] also
    matches just before a newline that ends the string. *)
Fixpoint strip_dot_zero (s : string) : string :=
  match s with
  | EmptyString => EmptyString
  | String c s' =>
      if (String.eqb s ".0" || String.eqb s (String "."%char (String "0"%char (String (ascii_of_nat 10) EmptyString))))
      then match s' with
           | String _ rest => rest
           | EmptyString => EmptyString
           end
      else String c (strip_dot_zero s')
  end.

End PyStr.

(** ** DataFrame operations on rows *)

Module Frame.

Section Sorting.
Context {A : Type} (leb : A → A → bool).

(** Insertion in front of the first element that is not smaller: the
    sort built on it is stable, as pandas' multi-key [sort_values] and
    the key ordering of [groupby] are. *)
Fixpoint insert_sorted (x : A) (l : list A) : list A :=
  match l with
  | [] => [x]
  | y :: l' => if leb x y then x :: l else y :: insert_sorted x l'
  end.

Fixpoint sort_by (l : list A) : list A :=
  match l with
  | [] => []
  | x :: l' => insert_sorted x (sort_by l')
  end.
End Sorting.

(** [pd.unique]: the distinct values in order of first appearance. *)
Fixpoint unique {A : Type} `{EqDecision A} (l : list A) : list A :=
  match l with
  | [] => []
  | x :: l' => x :: filter (λ y, y ≠ x) (unique l')
  end.

(** [len(l)] as a Python integer. *)
Definition len {A : Type} (l : list A) : Z := Z.of_nat (length l).

Section Groupby.
Context {A K : Type} `{EqDecision K}.
Context (leb : K → K → bool) (key : A → option K).

(** The distinct non-null keys of a frame, in sorted order. *)
Definition group_keys (df : list A) : list K :=
  sort_by leb (remove_dups (omap key df)).

(** The rows of one group, in frame order. *)
Definition get_group (k : K) (df : list A) : list A :=
  filter (λ r, key r = Some k) df.

(** [df.groupby(key)]: one group per distinct non-null key, keys
    ascending, rows with a null key in no group. *)
Definition groupby (df : list A) : list (K * list A) :=
  (λ k, (k, get_group k df)) <$> group_keys df.
End Groupby.

(** Lexicographic order on a pair of keys, for [groupby] on two columns
    and [sort_values] on two columns. *)
Definition lex_leb {K1 K2 : Type} `{EqDecision K1}
    (leb1 : K1 → K1 → bool) (leb2 : K2 → K2 → bool) (a b : K1 * K2) : bool :=
  if decide (a.1 = b.1) then leb2 a.2 b.2 else leb1 a.1 b.1.

(** [groupby(key).size()]: the number of rows of each group. *)
Definition group_sizes {A K : Type} `{EqDecision K}
    (leb : K → K → bool) (key : A → option K) (df : list A) : list (K * Z) :=
  (λ kg, (kg.1, len kg.2)) <$> groupby leb key df.

(** [series.value_counts()]: each distinct value with its number of
    occurrences, most frequent first; values of equal count stay in
    order of first appearance. *)
Definition value_counts {A : Type} `{EqDecision A} (l : list A) : list (A * Z) :=
  sort_by (λ a b, b.2 <=? a.2)
    ((λ x, (x, len (filter (λ y, y = x) l))) <$> unique l).

(** [sort_values(by=count, ascending=False)] on a table of counts. *)
Definition sort_counts_desc {K : Type} (l : list (K * Z)) : list (K * Z) :=
  sort_by (λ a b, b.2 <=? a.2) l.

(** [series.dt.floor(width)]: the start of the bucket of [width]
    nanoseconds that holds [t]. *)
Definition floor_to (width : Z) (t : Z) : Z := width * (t / width).

Definition NS_PER_SECOND : Z := 1000000000.
Definition NS_PER_MINUTE : Z := 60 * NS_PER_SECOND.
Definition NS_PER_HOUR : Z := 60 * NS_PER_MINUTE.
Definition NS_PER_DAY : Z := 24 * NS_PER_HOUR.

End Frame.

(** ** Schema normalizer and record validator

    Every detector module carries the same [normalize_columns] and
    [validate_input]; they differ in [CDR_COLUMN_MAP] and
    [REQUIRED_COLUMNS] only, which are parameters here. The two
    functions read and write the column labels alone, so the rows are
    kept at an arbitrary type [R]. *)

Module Columns.

Record DataFrame (R : Type) := mkDataFrame {
  columns : list string;
  rows : list R
}.
Arguments mkDataFrame {R} _ _.
Arguments columns {R} _.
Arguments rows {R} _.

(** The matching key of a label:
    [col.lower().replace(" ", "").replace("_", "")]. *)
Definition norm_key (col : string) : string :=
  PyStr.remove_char "_"%char (PyStr.remove_char " "%char (PyStr.lower col)).

(** [df_cols = {key(col): col for col in df.columns}]: a later column
    replaces an earlier one with the same key. *)
Definition df_cols (cols : list string) : gmap string string :=
  foldl (λ m col, <[norm_key col := col]> m) ∅ cols.

(** The inner loop: the column of the first variant whose key is a key
    of [df_cols]; the [break] ends the search there. *)
Fixpoint first_variant (dc : gmap string string) (variants : list string)
    : option string :=
  match variants with
  | [] => None
  | variant :: rest =>
      match dc !! norm_key variant with
      | Some col => Some col
      | None => first_variant dc rest
      end
  end.

(** The outer loop, over the items of [column_map] in order, filling the
    dictionary [col_rename]. *)
Definition col_rename (cols : list string)
    (column_map : list (string * list string)) : gmap string string :=
  foldl (λ m entry,
           match first_variant (df_cols cols) entry.2 with
           | Some col => <[col := entry.1]> m
           | None => m
           end) ∅ column_map.

(** [df.rename(columns=col_rename)] on the labels. *)
Definition rename (m : gmap string string) (cols : list string) : list string :=
  (λ col, default col (m !! col)) <$> cols.

Definition normalize_columns {R : Type} (df : DataFrame R)
    (column_map : list (string * list string)) : DataFrame R :=
  mkDataFrame (rename (col_rename (columns df) column_map) (columns df)) (rows df).

(** The shape the column maps of this repository share: the first
    variant of a field has the key of the field's own name, and no key is
    listed under two fields. *)
Definition entry_keys (entry : string * list string) : list string :=
  norm_key <$> entry.2.

Definition canonical_first (entry : string * list string) : bool :=
  bool_decide (head (entry_keys entry) = Some (norm_key entry.1)).

Fixpoint keys_disjoint (column_map : list (string * list string)) : bool :=
  match column_map with
  | [] => true
  | entry :: rest =>
      forallb (λ other,
                 forallb (λ k, bool_decide (k ∉ entry_keys other)) (entry_keys entry))
              rest
      && keys_disjoint rest
  end.

Definition well_formed_map (column_map : list (string * list string)) : bool :=
  forallb canonical_first column_map && keys_disjoint column_map.

(** What ends a run early: [st.stop()] after the report of the missing
    columns, and the [KeyError] pandas raises when [dropna] is given a
    subset label that is not a column. *)
Inductive exn : Type :=
  | MissingColumns (missing : list string)
  | KeyError (labels : list string).

Definition result (A : Type) : Type := exn + A.

(** [validate_input(df)] for a module whose constant is [REQUIRED_COLUMNS]. *)
Definition validate_input {R : Type} (REQUIRED_COLUMNS : list string)
    (df : DataFrame R) : result (DataFrame R) :=
  let missing := filter (λ col, col ∉ columns df) REQUIRED_COLUMNS in
  match missing with
  | [] => inr df
  | _ :: _ => inl (MissingColumns missing)
  end.

(** [df.dropna(subset=labels)] as far as the labels go: a [KeyError]
    naming the labels that are not columns, otherwise the frame with the
    rows that [drop_null] keeps. *)
Definition dropna {R : Type} (drop_null : list R → list R)
    (subset : list string) (df : DataFrame R) : result (DataFrame R) :=
  match filter (λ col, col ∉ columns df) subset with
  | [] => inr (mkDataFrame (columns df) (drop_null (rows df)))
  | absent => inl (KeyError absent)
  end.

(** The module-level constants of one detector, and whether its
    [parse_cdr] ends with [dropna(subset=REQUIRED_COLUMNS)]. *)
Record detector := mkDetector {
  CDR_COLUMN_MAP : list (string * list string);
  REQUIRED_COLUMNS : list string;
  drops_null_rows : bool
}.

(** What a run leaves behind: the findings of [analyze_logic], or none
    because the script was stopped or an exception reached the
    [except Exception] of [run]. *)
Inductive outcome (F : Type) : Type :=
  | Findings (f : F)
  | Stopped (missing : list string)
  | Failed (e : exn).
Arguments Findings {F} _.
Arguments Stopped {F} _.
Arguments Failed {F} _.

Section Run.
Context {R F : Type} (d : detector).
(** The cell-level work of [parse_cdr] (timestamp and number parsing,
    string cleaning), the row filter of its [dropna], and
    [analyze_logic] with its thresholds. *)
Context (coerce : list string → list R → list R).
Context (drop_null : list R → list R).
Context (analyze_logic : DataFrame R → F).

Definition parse_cdr (df : DataFrame R) : result (DataFrame R) :=
  let df := normalize_columns df (CDR_COLUMN_MAP d) in
  let df := mkDataFrame (columns df) (coerce (columns df) (rows df)) in
  if drops_null_rows d then dropna drop_null (REQUIRED_COLUMNS d) df
  else inr df.

(** The body of [run] once a file is uploaded:
    [df = parse_cdr(df); df = validate_input(df); analyze_logic(df, ...)]. *)
Definition run (df : DataFrame R) : outcome F :=
  match parse_cdr df with
  | inl e => Failed e
  | inr df =>
      match validate_input (REQUIRED_COLUMNS d) df with
      | inl (MissingColumns missing) => Stopped missing
      | inl e => Failed e
      | inr df => Findings (analyze_logic df)
      end
  end.
End Run.

End Columns.

(** ** Call_Spikes.py *)

Module CallSpikes.

Definition REQUIRED_COLUMNS : list string :=
  ["calling_number"; "called_number"; "start_time"; "call_direction"].

Definition CDR_COLUMN_MAP : list (string * list string) :=
  [ ("calling_number", ["calling_number"; "caller"; "source_number"]);
    ("called_number", ["called_number"; "callee"; "dest_number"]);
    ("start_time", ["start_time"; "timestamp"; "date_time"; "call_time"]);
    ("call_direction", ["call_direction"; "direction"; "type"]) ].

Definition config : Columns.detector :=
  Columns.mkDetector CDR_COLUMN_MAP REQUIRED_COLUMNS false.

(** A row after [parse_cdr]. [calling_number] is left as read (null
    when the cell is empty); [called_number] and [call_direction] are the
    cells as [astype(str)] renders them; [start_time] is the result of
    [pd.to_datetime(..., errors='coerce')]. *)
Record cdr := mkCdr {
  calling_number : option string;
  called_number : string;
  start_time : option Z;
  call_direction : string
}.

Global Instance cdr_eq_dec : EqDecision cdr.
Proof. solve_decision. Defined.

Definition OUTGOING_CODES : list string := ["MO"; "OUTGOING"; "CALL OUT"].

(** [df['call_direction'].astype(str).str.upper().isin([...])]. *)
Definition is_outgoing (r : cdr) : bool :=
  bool_decide (PyStr.upper (call_direction r) ∈ OUTGOING_CODES).

(** [~called_number.astype(str).str.startswith('91')]. *)
Definition is_international (r : cdr) : bool :=
  negb (PyStr.startswith (called_number r) "91").

(** [start_time.dt.floor('h')]. *)
Definition hour_window (r : cdr) : option Z :=
  Frame.floor_to Frame.NS_PER_HOUR <$> start_time r.

Definition spike_key (r : cdr) : option (string * Z) :=
  k ← calling_number r; h ← hour_window r; Some (k, h).

Definition outgoing_df (df : list cdr) : list cdr := filter is_outgoing df.

Definition analyze_logic (df : list cdr) (intl_threshold spike_threshold : Z)
    : list (string * Z) * list ((string * Z) * Z) :=
  match outgoing_df df with
  | [] => ([], [])
  | outgoing =>
      let intl_calls := filter is_international outgoing in
      let intl_counts := Frame.group_sizes String.leb calling_number intl_calls in
      let intl_suspects := filter (λ row, intl_threshold < row.2) intl_counts in
      let call_spikes :=
        Frame.group_sizes (Frame.lex_leb String.leb Z.leb) spike_key outgoing in
      let spike_suspects := filter (λ row, spike_threshold < row.2) call_spikes in
      (intl_suspects, spike_suspects)
  end.

End CallSpikes.

(** ** Strange_sim_use.py *)

Module StrangeSim.

Definition REQUIRED_COLUMNS : list string :=
  ["calling_number"; "called_number"; "call_direction"; "start_time"].

Definition CDR_COLUMN_MAP : list (string * list string) :=
  [ ("calling_number", ["calling_number"; "caller"; "source_number"; "a_party"]);
    ("called_number", ["called_number"; "callee"; "dest_number"; "b_party"]);
    ("start_time", ["start_time"; "timestamp"; "date_time"; "call_time"]);
    ("call_direction", ["call_direction"; "direction"; "type"; "call_type"]);
    ("duration", ["duration"; "duration_seconds"; "billable_duration"]) ].

Definition config : Columns.detector :=
  Columns.mkDetector CDR_COLUMN_MAP REQUIRED_COLUMNS false.

(** A row after [parse_cdr]: both numbers are strings, cleaned of a
    final [".0"]. *)
Record cdr := mkCdr {
  calling_number : string;
  called_number : string;
  call_direction : string;
  start_time : option Z
}.

Global Instance cdr_eq_dec : EqDecision cdr.
Proof. solve_decision. Defined.

Definition OUTGOING_CODES : list string := ["MO"; "OUTGOING"; "1"; "CALL OUT"].

Definition is_outgoing (r : cdr) : bool :=
  bool_decide (PyStr.upper (call_direction r) ∈ OUTGOING_CODES).

(** [intl_mask]: not a home number, and longer than a short code. *)
Definition intl_mask (r : cdr) : bool :=
  negb (PyStr.startswith (called_number r) "91")
  && bool_decide (6 < PyStr.len (called_number r)).

Definition analyze_logic (df : list cdr) (threshold : Z) : list (string * Z) :=
  match filter is_outgoing df with
  | [] => []
  | outgoing_df =>
      let intl_calls := filter intl_mask outgoing_df in
      let call_counts :=
        Frame.group_sizes String.leb (λ r, Some (calling_number r)) intl_calls in
      Frame.sort_counts_desc (filter (λ row, threshold < row.2) call_counts)
  end.

End StrangeSim.

(** ** Toll_Free_Abuse.py *)

Module TollFree.

Definition REQUIRED_COLUMNS : list string :=
  ["calling_number"; "called_number"; "call_direction"; "start_time"].

Definition CDR_COLUMN_MAP : list (string * list string) :=
  [ ("calling_number", ["calling_number"; "caller"; "source_number"; "a_party"]);
    ("called_number", ["called_number"; "callee"; "dest_number"; "b_party"]);
    ("call_direction", ["call_direction"; "direction"; "type"; "call_type"]);
    ("start_time", ["start_time"; "timestamp"; "date_time"; "call_time"]) ].

Definition DEFAULT_PREFIXES : string := "1800, 1860, 800, 198, 199".

Definition config : Columns.detector :=
  Columns.mkDetector CDR_COLUMN_MAP REQUIRED_COLUMNS false.

Record cdr := mkCdr {
  calling_number : string;
  called_number : string;
  call_direction : string;
  start_time : option Z
}.

Global Instance cdr_eq_dec : EqDecision cdr.
Proof. solve_decision. Defined.

Definition OUTGOING_CODES : list string := ["MO"; "OUTGOING"; "1"; "CALL OUT"].

(** [tuple(p.strip() for p in prefixes_str.split(',') if p.strip())]. *)
Definition parse_prefixes (prefixes_str : string) : list string :=
  filter (λ p, p ≠ "") (PyStr.strip <$> PyStr.split ","%char prefixes_str).

Definition tollfree_mask (prefixes : list string) (r : cdr) : bool :=
  bool_decide (PyStr.upper (call_direction r) ∈ OUTGOING_CODES)
  && PyStr.startswith_any (called_number r) prefixes.

(** [start_time.dt.date], as the number of the day since the epoch. *)
Definition call_date (r : cdr) : option Z :=
  (λ t, t / Frame.NS_PER_DAY) <$> start_time r.

Definition daily_key (r : cdr) : option (string * Z) :=
  d ← call_date r; Some (calling_number r, d).

Definition tollfree_calls (df : list cdr) (prefixes_str : string) : list cdr :=
  filter (tollfree_mask (parse_prefixes prefixes_str)) df.

Definition analyze_logic (df : list cdr) (abuse_threshold : Z) (prefixes_str : string)
    : list ((string * Z) * Z) * list (string * Z) :=
  match tollfree_calls df prefixes_str with
  | [] => ([], [])
  | calls =>
      let daily_counts :=
        Frame.group_sizes (Frame.lex_leb String.leb Z.leb) daily_key calls in
      let abusive_users :=
        Frame.sort_counts_desc (filter (λ row, abuse_threshold < row.2) daily_counts) in
      let top_targets := take 10 (Frame.value_counts (called_number <$> calls)) in
      (abusive_users, top_targets)
  end.

End TollFree.

(** ** SIM_Swapping.py *)

Module SimSwap.

Definition REQUIRED_COLUMNS : list string :=
  ["imsi"; "imei"; "calling_number"; "called_number"; "start_time"].

Definition CDR_COLUMN_MAP : list (string * list string) :=
  [ ("imsi", ["imsi"; "subscriber_id"; "sim_id"]);
    ("imei", ["imei"; "device_id"; "serial_number"]);
    ("calling_number", ["calling_number"; "caller"; "source_number"; "a_party"]);
    ("called_number", ["called_number"; "callee"; "dest_number"; "b_party"]);
    ("start_time", ["start_time"; "timestamp"; "date_time"; "call_time"]) ].

Definition config : Columns.detector :=
  Columns.mkDetector CDR_COLUMN_MAP REQUIRED_COLUMNS true.

(** *** parse_cdr on the rows *)

(** A row as loaded, once the five columns exist: a cell is null
    ([None]) or holds a value, given by its [str] rendering. *)
Record raw := mkRaw {
  raw_imsi : option string;
  raw_imei : option string;
  raw_calling_number : option string;
  raw_called_number : option string;
  raw_start_time : option string
}.

(** A row between the coercions and the final [dropna]. *)
Record coerced := mkCoerced {
  c_imsi : string;
  c_imei : string;
  c_calling_number : option string;
  c_called_number : string;
  c_start_time : option Z
}.

(** A row handed to [analyze_logic]: no null is left in it. *)
Record cdr := mkCdr {
  imsi : string;
  imei : string;
  calling_number : string;
  called_number : string;
  start_time : Z
}.

Global Instance cdr_eq_dec : EqDecision cdr.
Proof. solve_decision. Defined.

(** [astype(str)]: a null cell becomes the string ["nan"]. *)
Definition astype_str (cell : option string) : string := default "nan" cell.

(** [df[col].astype(str).str.replace(r'\.0$', '', regex=True)]. *)
Definition clean_id (cell : option string) : string :=
  PyStr.strip_dot_zero (astype_str cell).

Section Parse.
(** [pd.to_datetime(value, errors='coerce')] on a cell that holds a
    value: the timestamp, or [None] ([NaT]) when the value does not parse.
    A null cell is [NaT] as well. *)
Context (to_datetime : string → option Z).

Definition coerce (r : raw) : coerced :=
  mkCoerced (clean_id (raw_imsi r)) (clean_id (raw_imei r))
            (raw_calling_number r) (clean_id (raw_called_number r))
            (raw_start_time r ≫= to_datetime).

(** One row of [dropna(subset=REQUIRED_COLUMNS)]: kept when none of the
    five cells is null; the three cleaned columns hold strings. *)
Definition keep_row (c : coerced) : option cdr :=
  caller ← c_calling_number c;
  t ← c_start_time c;
  Some (mkCdr (c_imsi c) (c_imei c) caller (c_called_number c) t).

Definition parse_cdr (df : list raw) : list cdr :=
  omap keep_row (coerce <$> df).
End Parse.

(** *** analyze_logic *)

(** [calculate_jaccard_similarity(set_a, set_b)]: intersection over
    union, and [0.0] as soon as one of the sets is empty. *)
Definition calculate_jaccard_similarity (set_a set_b : gset string) : Qc :=
  if bool_decide (set_a = ∅) || bool_decide (set_b = ∅) then 0%Qc
  else
    let intersection := Z.of_nat (size (set_a ∩ set_b)) in
    let union := Z.of_nat (size (set_a ∪ set_b)) in
    (Qc_of_Z intersection / Qc_of_Z union)%Qc.

(** The options of the "Pattern Grouping Window" select box. *)
Inductive window := W15min | W30min | W1h | W2h.

Definition window_ns (w : window) : Z :=
  match w with
  | W15min => 15 * Frame.NS_PER_MINUTE
  | W30min => 30 * Frame.NS_PER_MINUTE
  | W1h => Frame.NS_PER_HOUR
  | W2h => 2 * Frame.NS_PER_HOUR
  end.

(** Rounding to the nearest integer, a tie going to the even one. *)
Definition round_half_even (q : Qc) : Z :=
  let n := Qfloor q in
  let frac := (q - Qc_of_Z n)%Qc in
  if decide (frac < Q2Qc (1 # 2))%Qc then n
  else if decide (Q2Qc (1 # 2) < frac)%Qc then n + 1
  else if Z.even n then n else n + 1.

(** [round(x, 2)]: two decimals, on the exact value of the score. (On
    binary floats Python rounds the float nearest to the quotient, which
    can fall on the other side of a tie such as 0.005; no statement
    below depends on how ties go.) *)
Definition round2 (x : Qc) : Qc :=
  (Qc_of_Z (round_half_even (x * Qc_of_Z 100)) / Qc_of_Z 100)%Qc.

(** Logic A: [groupby('imei')['imsi'].nunique()]. *)
Definition imei_counts (df : list cdr) : list (string * Z) :=
  (λ kg, (kg.1, Frame.len (remove_dups (imsi <$> kg.2))))
    <$> Frame.groupby String.leb (λ r, Some (imei r)) df.

Definition imei_swaps (df : list cdr) : list (string * Z) :=
  filter (λ row, 1 < row.2) (imei_counts df).

(** Logic B. *)
Definition time_bucket (w : window) (r : cdr) : Z :=
  Frame.floor_to (window_ns w) (start_time r).

(** A row of [signatures]. *)
Record signature := mkSignature {
  sig_imsi : string;
  sig_time_bucket : Z;
  called_set : gset string
}.

Definition signatures (w : window) (df : list cdr) : list signature :=
  (λ kg, mkSignature kg.1.1 kg.1.2 (list_to_set (called_number <$> kg.2)))
    <$> Frame.groupby (Frame.lex_leb String.leb Z.leb)
          (λ r, Some (imsi r, time_bucket w r)) df.

(** The index pairs [(i, j)] with [i < j], in loop order. *)
Fixpoint index_pairs {A : Type} (l : list A) : list (A * A) :=
  match l with
  | [] => []
  | x :: l' => ((λ y, (x, y)) <$> l') ++ index_pairs l'
  end.

(** The pairs one bucket contributes; a bucket with fewer than two
    signatures is skipped. *)
Definition bucket_pairs (group : list signature) : list (signature * signature) :=
  if bool_decide (Frame.len group < 2) then [] else index_pairs group.

(** Every call of [calculate_jaccard_similarity] that [analyze_logic]
    makes, in order: the bucket and the two signatures compared. *)
Definition comparisons (w : window) (df : list cdr)
    : list (Z * (signature * signature)) :=
  bg ← Frame.groupby Z.leb (λ s, Some (sig_time_bucket s)) (signatures w df);
  (λ p, (bg.1, p)) <$> bucket_pairs bg.2.

(** A row of [pattern_df]. [common_contacts] is a Python list built from
    a set, in no specified order: it is kept as the set. *)
Record pattern := mkPattern {
  time_window : Z;
  imsi_1 : string;
  imsi_2 : string;
  similarity_score : Qc;
  common_contacts : gset string
}.

Definition score_pair (similarity_threshold : Qc)
    (c : Z * (signature * signature)) : option pattern :=
  let sim_score :=
    calculate_jaccard_similarity (called_set c.2.1) (called_set c.2.2) in
  if decide (similarity_threshold ≤ sim_score)%Qc
  then Some (mkPattern c.1 (sig_imsi c.2.1) (sig_imsi c.2.2) (round2 sim_score)
                       (called_set c.2.1 ∩ called_set c.2.2))
  else None.

Definition pattern_df (df : list cdr) (w : window) (similarity_threshold : Qc)
    : list pattern :=
  omap (score_pair similarity_threshold) (comparisons w df).

Definition analyze_logic (df : list cdr) (w : window) (similarity_threshold : Qc)
    : list (string * Z) * list pattern :=
  (imei_swaps df, pattern_df df w similarity_threshold).

End SimSwap.

(** ** Tower_Jumping.py *)

Module TowerJump.

Definition REQUIRED_COLUMNS : list string :=
  ["imsi"; "start_time"; "latitude"; "longitude"; "cell_id"].

Definition CDR_COLUMN_MAP : list (string * list string) :=
  [ ("imsi", ["imsi"; "subscriber_id"]);
    ("start_time", ["start_time"; "timestamp"; "date_time"; "call_time"]);
    ("cell_id", ["cell_id"; "cellid"; "cid"]);
    ("tower_id", ["tower_id"; "towerid"; "lac"; "location_area_code"]);
    ("latitude", ["latitude"; "lat"]);
    ("longitude", ["longitude"; "lon"; "lng"]) ].

Definition config : Columns.detector :=
  Columns.mkDetector CDR_COLUMN_MAP REQUIRED_COLUMNS true.

(** A row handed to [analyze_logic]: [parse_cdr] has dropped every row
    with a null in a required column. *)
Record cdr := mkCdr {
  imsi : string;
  start_time : Z;
  latitude : Qc;
  longitude : Qc;
  cell_id : string
}.

(** The numpy functions [haversine_vectorized] calls. *)
Record numpy := mkNumpy {
  radians : Qc → Qc;
  sin : Qc → Qc;
  cos : Qc → Qc;
  sqrt : Qc → Qc;
  arctan2 : Qc → Qc → Qc
}.

Section Analysis.
Context (np : numpy).

Definition haversine_vectorized (lat1 lon1 lat2 lon2 : Qc) : Qc :=
  let R := Qc_of_Z 6371 in
  let phi1 := radians np lat1 in
  let phi2 := radians np lat2 in
  let d_phi := radians np (lat2 - lat1) in
  let d_lambda := radians np (lon2 - lon1) in
  let a := (sin np (d_phi / Qc_of_Z 2) ^ 2
            + cos np phi1 * cos np phi2 * sin np (d_lambda / Qc_of_Z 2) ^ 2)%Qc in
  let c := (Qc_of_Z 2 * arctan2 np (sqrt np a) (sqrt np (1 - a)))%Qc in
  (R * c)%Qc.

(** The order of [by=['imsi', 'start_time']]. *)
Definition row_leb (a b : cdr) : bool :=
  Frame.lex_leb String.leb Z.leb (imsi a, start_time a) (imsi b, start_time b).

(** [df.sort_values(by=['imsi', 'start_time'])]. *)
Definition sort_values (df : list cdr) : list cdr := Frame.sort_by row_leb df.

(** [groupby('imsi')[col].shift(1)] at a row: the latest earlier row of
    the same imsi, given the rows before it in reverse order. *)
Definition previous_row (earlier_rev : list cdr) (r : cdr) : option cdr :=
  head (filter (λ p, imsi p = imsi r) earlier_rev).

Fixpoint shift_rows (earlier_rev : list cdr) (df : list cdr)
    : list (cdr * option cdr) :=
  match df with
  | [] => []
  | r :: df' => (r, previous_row earlier_rev r) :: shift_rows (r :: earlier_rev) df'
  end.

(** Each row with the row its four [prev_] columns come from. *)
Definition with_previous (df : list cdr) : list (cdr * option cdr) :=
  shift_rows [] df.

(** [(start_time - prev_start_time).dt.total_seconds() / 60.0]. *)
Definition time_diff_min (p r : cdr) : Qc :=
  (Qc_of_Z (start_time r - start_time p) / Qc_of_Z Frame.NS_PER_MINUTE)%Qc.

Definition dist_km (p r : cdr) : Qc :=
  haversine_vectorized (latitude p) (longitude p) (latitude r) (longitude r).

(** The [mask]. A row without a previous row has null [dist_km] and
    [time_diff_min], and a comparison with a null is false. *)
Definition mask (max_dist_km max_time_min : Qc) (row : cdr * option cdr) : bool :=
  match row.2 with
  | None => false
  | Some p =>
      bool_decide (max_dist_km ≤ dist_km p row.1)%Qc
      && bool_decide (time_diff_min p row.1 ≤ max_time_min)%Qc
      && bool_decide (0 ≤ time_diff_min p row.1)%Qc
  end.

(** A row of the result. *)
Record jump := mkJump {
  jump_imsi : string;
  jump_start_time : Z;
  from_cell_id : option string;
  to_cell_id : string;
  jump_distance_km : option Qc;
  time_gap_minutes : option Qc
}.

Definition to_jump (row : cdr * option cdr) : jump :=
  mkJump (imsi row.1) (start_time row.1) (cell_id <$> row.2) (cell_id row.1)
         ((λ p, dist_km p row.1) <$> row.2)
         ((λ p, time_diff_min p row.1) <$> row.2).

Definition analyze_logic (df : list cdr) (max_dist_km max_time_min : Qc) : list jump :=
  to_jump <$> filter (λ row, mask max_dist_km max_time_min row)
                (with_previous (sort_values df)).
End Analysis.

End TowerJump.

(** ** Vocabulary of the specification

    The quantities the specification speaks of, written without the
    grouping machinery of the detectors. *)

Module Spec.

(** The column maps of the five detector modules. *)
Definition column_maps : list (list (string * list string)) :=
  [ CallSpikes.CDR_COLUMN_MAP; StrangeSim.CDR_COLUMN_MAP; TollFree.CDR_COLUMN_MAP;
    SimSwap.CDR_COLUMN_MAP; TowerJump.CDR_COLUMN_MAP ].


(** The number of qualifying international outgoing calls of a caller,
    as Call_Spikes.py qualifies them: outgoing, destination not under
    the home prefix. *)
Definition call_spikes_international_calls (A : string) (df : list CallSpikes.cdr) : Z :=
  Frame.len (filter (λ r, CallSpikes.is_outgoing r ∧ CallSpikes.is_international r
                          ∧ CallSpikes.calling_number r = Some A) df).

(** The same as Strange_sim_use.py qualifies them: outgoing, destination
    not under the home prefix and longer than six characters. *)
Definition strange_sim_international_calls (A : string) (df : list StrangeSim.cdr) : Z :=
  Frame.len (filter (λ r, StrangeSim.is_outgoing r ∧ StrangeSim.intl_mask r
                          ∧ StrangeSim.calling_number r = A) df).

(** The imsi values observed with an imei. *)
Definition observed_imsis (device : string) (df : list SimSwap.cdr) : gset string :=
  list_to_set (SimSwap.imsi <$> filter (λ r, SimSwap.imei r = device) df).

(** A loaded row survives [parse_cdr] when its start_time parses and
    its calling_number is not null. *)
Definition survives (to_datetime : string → option Z) (r : SimSwap.raw) : Prop :=
  is_Some (SimSwap.raw_start_time r ≫= to_datetime)
  ∧ is_Some (SimSwap.raw_calling_number r).

(** The imsi values the surviving rows show with an imei. *)
Definition surviving_imsis (to_datetime : string → option Z) (device : string)
    (df : list SimSwap.raw) : gset string :=
  list_to_set ((λ r, SimSwap.clean_id (SimSwap.raw_imsi r)) <$>
    filter (λ r, survives to_datetime r
                 ∧ SimSwap.clean_id (SimSwap.raw_imei r) = device) df).

(** An imsi is active in a bucket when one of its rows falls in it. *)
Definition active (w : SimSwap.window) (df : list SimSwap.cdr) (i : string) (b : Z) : Prop :=
  ∃ r, r ∈ df ∧ SimSwap.imsi r = i ∧ SimSwap.time_bucket w r = b.

(** The signature of an imsi in a bucket: the numbers it called there. *)
Definition signature_of (w : SimSwap.window) (df : list SimSwap.cdr)
    (i : string) (b : Z) : gset string :=
  list_to_set (SimSwap.called_number <$>
    filter (λ r, SimSwap.imsi r = i ∧ SimSwap.time_bucket w r = b) df).

(** The toll-free calls of a caller on a day. *)
Definition tollfree_calls_on (A : string) (day : Z) (df : list TollFree.cdr)
    (prefixes_str : string) : Z :=
  Frame.len (filter (λ r, TollFree.calling_number r = A ∧ TollFree.call_date r = Some day)
               (TollFree.tollfree_calls df prefixes_str)).


End Spec.

(** ** The detectors together *)

Module Detectors.

(** The module constants of the five detectors. *)
Definition all : list Columns.detector :=
  [ CallSpikes.config; StrangeSim.config; TollFree.config;
    SimSwap.config; TowerJump.config ].

(** A column matches a field when its key is the key of one of the
    field's variants. *)
Definition matches (variants : list string) (col : string) : Prop :=
  ∃ v, v ∈ variants ∧ Columns.norm_key col = Columns.norm_key v.

End Detectors.

(** ** parse_cdr on the rows of the other detectors

    As for SIM_Swapping above: a row as loaded, once the required
    columns exist, has cells that are null ([None]) or hold a value given
    by its [str] rendering. *)

Module CallSpikesRows.

Record raw := mkRaw {
  raw_calling_number : option string;
  raw_called_number : option string;
  raw_start_time : option string;
  raw_call_direction : option string
}.

Section Parse.
Context (to_datetime : string → option Z).

(** [parse_cdr] converts [start_time] and leaves the other cells; the
    row is given with the [astype(str)] that [analyze_logic] applies to
    [call_direction] and [called_number] wherever it reads them. *)
Definition coerce (r : raw) : CallSpikes.cdr :=
  CallSpikes.mkCdr (raw_calling_number r)
                   (SimSwap.astype_str (raw_called_number r))
                   (raw_start_time r ≫= to_datetime)
                   (SimSwap.astype_str (raw_call_direction r)).

Definition parse_cdr (df : list raw) : list CallSpikes.cdr := coerce <$> df.
End Parse.

End CallSpikesRows.

Module StrangeSimRows.

Record raw := mkRaw {
  raw_calling_number : option string;
  raw_called_number : option string;
  raw_call_direction : option string;
  raw_start_time : option string
}.

Section Parse.
Context (to_datetime : string → option Z).

(** [parse_cdr] converts [start_time] and cleans both numbers;
    [call_direction] is given with the [astype(str)] of [analyze_logic]. *)
Definition coerce (r : raw) : StrangeSim.cdr :=
  StrangeSim.mkCdr (SimSwap.clean_id (raw_calling_number r))
                   (SimSwap.clean_id (raw_called_number r))
                   (SimSwap.astype_str (raw_call_direction r))
                   (raw_start_time r ≫= to_datetime).

Definition parse_cdr (df : list raw) : list StrangeSim.cdr := coerce <$> df.
End Parse.

End StrangeSimRows.

Module TollFreeRows.

Record raw := mkRaw {
  raw_calling_number : option string;
  raw_called_number : option string;
  raw_call_direction : option string;
  raw_start_time : option string
}.

Section Parse.
Context (to_datetime : string → option Z).

Definition coerce (r : raw) : TollFree.cdr :=
  TollFree.mkCdr (SimSwap.clean_id (raw_calling_number r))
                 (SimSwap.clean_id (raw_called_number r))
                 (SimSwap.astype_str (raw_call_direction r))
                 (raw_start_time r ≫= to_datetime).

Definition parse_cdr (df : list raw) : list TollFree.cdr := coerce <$> df.
End Parse.

End TollFreeRows.

Module TowerJumpRows.

Record raw := mkRaw {
  raw_imsi : option string;
  raw_start_time : option string;
  raw_latitude : option string;
  raw_longitude : option string;
  raw_cell_id : option string
}.

Section Parse.
(** [pd.to_datetime(value, errors='coerce')] and
    [pd.to_numeric(value, errors='coerce')] on a cell that holds a value:
    the parsed value, or [None] when the value does not parse. *)
Context (to_datetime : string → option Z) (to_numeric : string → option Qc).

(** One row of [parse_cdr]: the three coercions, then
    [dropna(subset=REQUIRED_COLUMNS)], which keeps the row when none of
    the five cells is null. *)
Definition keep_row (r : raw) : option TowerJump.cdr :=
  i ← raw_imsi r;
  t ← raw_start_time r ≫= to_datetime;
  lat ← raw_latitude r ≫= to_numeric;
  lon ← raw_longitude r ≫= to_numeric;
  c ← raw_cell_id r;
  Some (TowerJump.mkCdr i t lat lon c).

Definition parse_cdr (df : list raw) : list TowerJump.cdr := omap keep_row df.
End Parse.

End TowerJumpRows.

(** ** Quantities the further properties speak of *)

Module Derived.

(** The subscribers of a tower frame: its distinct imsi values. *)
Definition imsis (df : list TowerJump.cdr) : gset string :=
  list_to_set (TowerJump.imsi <$> df).

(** A loaded tower row is usable when its imsi and cell are not null
    and its time and both coordinates parse. *)
Definition usable (to_datetime : string → option Z) (to_numeric : string → option Qc)
    (r : TowerJumpRows.raw) : Prop :=
  is_Some (TowerJumpRows.raw_imsi r)
  ∧ is_Some (TowerJumpRows.raw_start_time r ≫= to_datetime)
  ∧ is_Some (TowerJumpRows.raw_latitude r ≫= to_numeric)
  ∧ is_Some (TowerJumpRows.raw_longitude r ≫= to_numeric)
  ∧ is_Some (TowerJumpRows.raw_cell_id r).

End Derived.
(** * Properties *)

Local Open Scope list_scope.

(** ** Python string functions *)

Example upper_mixed : PyStr.upper "Call Out" = "CALL OUT".
Proof. reflexivity. Qed.

Example split_strip_prefixes :
  map PyStr.strip (PyStr.split ","%char "1800, 1860 ,800") = ["1800"; "1860"; "800"].
Proof. reflexivity. Qed.

Example strip_dot_zero_float : PyStr.strip_dot_zero "91999.0" = "91999".
Proof. reflexivity. Qed.

Example strip_dot_zero_inner : PyStr.strip_dot_zero "1.05" = "1.05".
Proof. reflexivity. Qed.

(** ** Lemmas on sorting and grouping *)

Section SortingFacts.
Context {A : Type} (leb : A → A → bool).

Lemma insert_sorted_Permutation (x : A) (l : list A) :
  Frame.insert_sorted leb x l ≡ₚ x :: l.
Proof.
  induction l as [|y l IH]; simpl; [done|].
  destruct (leb x y); [done|].
  rewrite IH. apply Permutation_swap.
Qed.

Lemma sort_by_Permutation (l : list A) : Frame.sort_by leb l ≡ₚ l.
Proof.
  induction l as [|x l IH]; simpl; [done|].
  by rewrite insert_sorted_Permutation, IH.
Qed.

Lemma elem_of_sort_by (x : A) (l : list A) :
  x ∈ Frame.sort_by leb l ↔ x ∈ l.
Proof. by rewrite sort_by_Permutation. Qed.


Lemma sort_by_NoDup (l : list A) : NoDup l → NoDup (Frame.sort_by leb l).
Proof. by rewrite sort_by_Permutation. Qed.
End SortingFacts.

Lemma elem_of_get_group {A K : Type} `{EqDecision K} (key : A → option K)
    (k : K) (r : A) (df : list A) :
  r ∈ Frame.get_group key k df ↔ r ∈ df ∧ key r = Some k.
Proof. unfold Frame.get_group. rewrite list_elem_of_filter. tauto. Qed.

Section GroupbyFacts.
Context {A K : Type} `{EqDecision K}.
Context (leb : K → K → bool) (key : A → option K).

Lemma elem_of_group_keys (k : K) (df : list A) :
  k ∈ Frame.group_keys leb key df ↔ ∃ r, r ∈ df ∧ key r = Some k.
Proof.
  unfold Frame.group_keys.
  rewrite elem_of_sort_by, elem_of_remove_dups, list_elem_of_omap.
  done.
Qed.

Lemma group_keys_NoDup (df : list A) : NoDup (Frame.group_keys leb key df).
Proof. apply sort_by_NoDup, NoDup_remove_dups. Qed.

(** A group is in the result exactly when some row carries its key, and
    it then holds all the rows with that key. *)
Lemma elem_of_groupby (k : K) (g : list A) (df : list A) :
  (k, g) ∈ Frame.groupby leb key df ↔
  (∃ r, r ∈ df ∧ key r = Some k) ∧ g = Frame.get_group key k df.
Proof.
  unfold Frame.groupby. rewrite list_elem_of_fmap. split.
  - intros (k' & [= -> ->] & Hk). by apply elem_of_group_keys in Hk.
  - intros [Hk ->]. exists k. split; [done|]. by apply elem_of_group_keys.
Qed.

Lemma groupby_keys (df : list A) :
  (Frame.groupby leb key df).*1 = Frame.group_keys leb key df.
Proof.
  unfold Frame.groupby. rewrite <- list_fmap_compose.
  induction (Frame.group_keys leb key df); simpl; [done|]. by f_equal.
Qed.

Lemma groupby_nil : Frame.groupby leb key [] = [].
Proof. reflexivity. Qed.
End GroupbyFacts.

(** ** The similarity score *)

Section JaccardFacts.
Implicit Types A B S : gset string.

Lemma jaccard_empty_l B : SimSwap.calculate_jaccard_similarity ∅ B = 0%Qc.
Proof. reflexivity. Qed.

Lemma jaccard_empty_r A : SimSwap.calculate_jaccard_similarity A ∅ = 0%Qc.
Proof.
  unfold SimSwap.calculate_jaccard_similarity.
  rewrite (bool_decide_eq_true_2 (∅ = ∅)) by done. by rewrite orb_true_r.
Qed.

Lemma jaccard_nonempty A B :
  A ≠ ∅ → B ≠ ∅ →
  SimSwap.calculate_jaccard_similarity A B =
    (Qc_of_Z (Z.of_nat (size (A ∩ B))) / Qc_of_Z (Z.of_nat (size (A ∪ B))))%Qc.
Proof.
  intros HA HB. unfold SimSwap.calculate_jaccard_similarity.
  by rewrite !bool_decide_eq_false_2.
Qed.

Lemma size_union_pos A B : A ≠ ∅ → (0 < Z.of_nat (size (A ∪ B)))%Z.
Proof.
  intros HA. assert (size (A ∪ B) ≠ 0%nat); [|lia].
  rewrite size_empty_iff. intros HE. apply HA. set_solver.
Qed.

Lemma jaccard_self S : S ≠ ∅ → SimSwap.calculate_jaccard_similarity S S = 1%Qc.
Proof.
  intros HS. rewrite jaccard_nonempty by done.
  replace (S ∩ S) with S by set_solver.
  replace (S ∪ S) with S by set_solver.
  apply Qcmult_inv_r. rewrite <- Z2Qc_inj_0, Z2Qc_inj_iff.
  assert (size S ≠ 0%nat); [|lia]. by rewrite size_empty_iff, leibniz_equiv_iff.
Qed.

Lemma Qcdiv_unit_interval (i u : Z) :
  (0 ≤ i ≤ u)%Z → (0 < u)%Z → (0 ≤ Qc_of_Z i / Qc_of_Z u ≤ 1)%Qc.
Proof.
  intros [Hi Hiu] Hu.
  assert (0 < Qc_of_Z u)%Qc as Hpos by (by rewrite <- Z2Qc_inj_0, <- Z2Qc_inj_lt).
  assert (0 < / Qc_of_Z u)%Qc as Hinv by (by apply Qcinv_pos).
  split.
  - unfold Qcdiv. rewrite <- (Qcmult_0_l (/ Qc_of_Z u)).
    apply Qcmult_le_mono_nonneg_r; [by apply Qclt_le_weak|].
    by rewrite <- Z2Qc_inj_0, <- Z2Qc_inj_le.
  - rewrite <- (Qcmult_inv_r (Qc_of_Z u)) by (by apply not_symmetry, Qclt_not_eq).
    unfold Qcdiv. apply Qcmult_le_mono_nonneg_r; [by apply Qclt_le_weak|].
    by rewrite <- Z2Qc_inj_le.
Qed.

Lemma jaccard_unit_interval A B :
  (0 ≤ SimSwap.calculate_jaccard_similarity A B ≤ 1)%Qc.
Proof.
  destruct (decide (A = ∅)) as [->|HA]; [by rewrite jaccard_empty_l|].
  destruct (decide (B = ∅)) as [->|HB]; [by rewrite jaccard_empty_r|].
  rewrite jaccard_nonempty by done.
  apply Qcdiv_unit_interval; [|by apply size_union_pos].
  split; [lia|]. apply Nat2Z.inj_le, subseteq_size. set_solver.
Qed.

Lemma jaccard_comm A B :
  SimSwap.calculate_jaccard_similarity A B = SimSwap.calculate_jaccard_similarity B A.
Proof.
  unfold SimSwap.calculate_jaccard_similarity.
  rewrite (orb_comm (bool_decide (A = ∅))).
  by rewrite (comm_L (∩) A B), (comm_L (∪) A B).
Qed.

End JaccardFacts.

(** C8. The Jaccard similarity of a non-empty set with itself is exactly
    1; it is 0 whenever one of the two sets is empty; and it always lies
    between 0 and 1. *)
Theorem jaccard_similarity_properties (A B S : gset string) :
  (S ≠ ∅ → SimSwap.calculate_jaccard_similarity S S = 1%Qc) ∧
  (A = ∅ ∨ B = ∅ → SimSwap.calculate_jaccard_similarity A B = 0%Qc) ∧
  (0 ≤ SimSwap.calculate_jaccard_similarity A B ≤ 1)%Qc.
Proof.
  split; [apply jaccard_self|]. split; [|apply jaccard_unit_interval].
  intros [-> | ->]; [apply jaccard_empty_l | apply jaccard_empty_r].
Qed.

(** The three parts of C8 on small sets. *)
Lemma jaccard_similarity_properties_witness :
  SimSwap.calculate_jaccard_similarity {["x"; "y"; "z"]} {["x"; "y"; "z"]} = 1%Qc ∧
  SimSwap.calculate_jaccard_similarity ∅ {["x"]} = 0%Qc ∧
  (0 ≤ SimSwap.calculate_jaccard_similarity {["x"]} {["x"; "y"]} ≤ 1)%Qc.
Proof.
  split; [|split].
  - apply (jaccard_similarity_properties ∅ ∅ {["x"; "y"; "z"]}). by vm_compute.
  - apply (jaccard_similarity_properties ∅ {["x"]} ∅). by left.
  - apply (jaccard_similarity_properties {["x"]} {["x"; "y"]} ∅).
Defined.

Example jaccard_two_of_four :
  SimSwap.calculate_jaccard_similarity {["a"; "b"; "c"]} {["b"; "c"; "d"]}
  = Q2Qc (1 # 2).
Proof. apply Qc_is_canon. by vm_compute. Qed.

(** ** Group sizes *)

Section GroupSizeFacts.
Context {A K : Type} `{EqDecision K}.
Context (leb : K → K → bool) (key : A → option K).

Lemma elem_of_group_sizes (k : K) (n : Z) (df : list A) :
  (k, n) ∈ Frame.group_sizes leb key df ↔
  n = Frame.len (Frame.get_group key k df) ∧ 0 < n.
Proof.
  unfold Frame.group_sizes. rewrite list_elem_of_fmap. split.
  - intros ([k' g] & [= -> ->] & Hin). simpl.
    apply elem_of_groupby in Hin as [(r & Hr & Hk) ->]. split; [done|].
    assert (r ∈ Frame.get_group key k' df) as Hg by (by apply elem_of_get_group).
    unfold Frame.len. destruct (Frame.get_group key k' df); [by apply elem_of_nil in Hg|].
    simpl. lia.
  - intros [-> Hpos]. exists (k, Frame.get_group key k df). split; [done|].
    apply elem_of_groupby. split; [|done].
    unfold Frame.len in Hpos.
    destruct (Frame.get_group key k df) as [|r g] eqn:Hg; [simpl in Hpos; lia|].
    assert (r ∈ Frame.get_group key k df) as Hr by (rewrite Hg; left).
    apply elem_of_get_group in Hr. by exists r.
Qed.

End GroupSizeFacts.

Lemma get_group_filter {A K : Type} `{EqDecision K} (key : A → option K)
    (P : A → Prop) `{∀ x, Decision (P x)} (k : K) (df : list A) :
  Frame.get_group key k (filter P df) = filter (λ r, P r ∧ key r = Some k) df.
Proof.
  unfold Frame.get_group. rewrite list_filter_filter.
  apply list_filter_iff. tauto.
Qed.

(** ** Case folding *)

Lemma upper_ascii_idemp (c : ascii) :
  PyStr.upper_ascii (PyStr.upper_ascii c) = PyStr.upper_ascii c.
Proof. by destruct c as [[] [] [] [] [] [] [] []]. Qed.

Lemma upper_lower_ascii (c : ascii) :
  PyStr.upper_ascii (PyStr.lower_ascii c) = PyStr.upper_ascii c.
Proof. by destruct c as [[] [] [] [] [] [] [] []]. Qed.

Lemma upper_idemp (s : string) : PyStr.upper (PyStr.upper s) = PyStr.upper s.
Proof.
  induction s as [|c s IH]; [done|].
  unfold PyStr.upper in *. simpl. by rewrite upper_ascii_idemp, IH.
Qed.

Lemma upper_lower (s : string) : PyStr.upper (PyStr.lower s) = PyStr.upper s.
Proof.
  induction s as [|c s IH]; [done|].
  unfold PyStr.upper, PyStr.lower in *. simpl. by rewrite upper_lower_ascii, IH.
Qed.

(** ** Call_Spikes.py: the outgoing filter *)

Section CallSpikesFacts.
Import CallSpikes.

Lemma call_spikes_is_outgoing_spec (r : cdr) :
  is_outgoing r ↔ PyStr.upper (call_direction r) ∈ ["MO"; "OUTGOING"; "CALL OUT"].
Proof. unfold is_outgoing. by rewrite bool_decide_spec. Qed.

Lemma elem_of_outgoing_df (r : cdr) (df : list cdr) :
  r ∈ outgoing_df df ↔
  r ∈ df ∧ PyStr.upper (call_direction r) ∈ ["MO"; "OUTGOING"; "CALL OUT"].
Proof.
  unfold outgoing_df. rewrite list_elem_of_filter, call_spikes_is_outgoing_spec. tauto.
Qed.

(** The analysis reads its frame through [outgoing_df] only. *)
Lemma call_spikes_analyze_outgoing (df df' : list cdr) (intl spike : Z) :
  outgoing_df df = outgoing_df df' →
  analyze_logic df intl spike = analyze_logic df' intl spike.
Proof. unfold analyze_logic. by intros ->. Qed.

Lemma outgoing_df_without (P : cdr → Prop) `{∀ r, Decision (P r)} (df : list cdr) :
  (∀ r, is_outgoing r → P r) → outgoing_df (filter P df) = outgoing_df df.
Proof.
  intros HP. unfold outgoing_df. rewrite list_filter_filter.
  apply list_filter_iff. intros r. split; [tauto|]. intros Hr. split; [done|auto].
Qed.

(** The entries of the international table: a caller is listed with the
    number of its outgoing international rows, when that number exceeds
    the threshold. *)
Lemma elem_of_call_spikes_intl (A : string) (n : Z) (df : list cdr) (intl spike : Z) :
  (A, n) ∈ (analyze_logic df intl spike).1 ↔
  n = Frame.len (filter (λ r, is_outgoing r ∧ is_international r
                              ∧ calling_number r = Some A) df)
  ∧ intl < n ∧ 0 < n.
Proof.
  assert (∀ l : list cdr, l = outgoing_df df →
    Frame.get_group calling_number A (filter is_international l)
    = filter (λ r, is_outgoing r ∧ is_international r ∧ calling_number r = Some A) df)
    as Hgroup.
  { intros l ->. rewrite get_group_filter. unfold outgoing_df.
    rewrite list_filter_filter. apply list_filter_iff. tauto. }
  unfold analyze_logic. destruct (outgoing_df df) as [|r0 out] eqn:Hout.
  - simpl. rewrite elem_of_nil. split; [done|]. intros (-> & _ & Hpos).
    specialize (Hgroup [] eq_refl). simpl in Hgroup.
    rewrite <- Hgroup in Hpos. unfold Frame.len, Frame.get_group in Hpos.
    simpl in Hpos. lia.
  - cbn [fst]. rewrite list_elem_of_filter, elem_of_group_sizes. cbn [snd].
    rewrite (Hgroup _ eq_refl). tauto.
Qed.

(** The entries of the hourly table, likewise. *)
Lemma elem_of_call_spikes_hourly (A : string) (h n : Z) (df : list cdr) (intl spike : Z) :
  ((A, h), n) ∈ (analyze_logic df intl spike).2 ↔
  n = Frame.len (filter (λ r, is_outgoing r ∧ spike_key r = Some (A, h)) df)
  ∧ spike < n ∧ 0 < n.
Proof.
  assert (Frame.get_group spike_key (A, h) (outgoing_df df)
    = filter (λ r, is_outgoing r ∧ spike_key r = Some (A, h)) df) as Hgroup.
  { unfold outgoing_df. by rewrite get_group_filter. }
  unfold analyze_logic. destruct (outgoing_df df) as [|r0 out] eqn:Hout.
  - simpl. rewrite elem_of_nil. split; [done|]. intros (-> & _ & Hpos).
    rewrite <- Hgroup in Hpos. unfold Frame.len, Frame.get_group in Hpos.
    simpl in Hpos. lia.
  - cbn [snd]. rewrite list_elem_of_filter, elem_of_group_sizes. cbn [snd].
    rewrite Hgroup. tauto.
Qed.

End CallSpikesFacts.

Lemma code_1_not_accepted : PyStr.upper "1" ∉ CallSpikes.OUTGOING_CODES.
Proof. apply (bool_decide_unpack _). by vm_compute. Qed.

(** C3, as the code has it. The Call-Volume and Spike detector keeps
    the rows whose call_direction, upper-cased, is one of "MO",
    "OUTGOING", "CALL OUT": the test ignores case, a row whose
    call_direction is "1" is not kept, and neither scoring of the
    detector sees such a row. *)
Theorem call_spikes_outgoing_filter (df : list CallSpikes.cdr) (r : CallSpikes.cdr)
    (intl_threshold spike_threshold : Z) :
  (r ∈ CallSpikes.outgoing_df df ↔
     r ∈ df ∧ PyStr.upper (CallSpikes.call_direction r) ∈ ["MO"; "OUTGOING"; "CALL OUT"]) ∧
  (∀ r', PyStr.upper (CallSpikes.call_direction r') = PyStr.upper (CallSpikes.call_direction r) →
     CallSpikes.is_outgoing r' = CallSpikes.is_outgoing r) ∧
  CallSpikes.is_outgoing
    (CallSpikes.mkCdr (CallSpikes.calling_number r) (CallSpikes.called_number r)
       (CallSpikes.start_time r) (PyStr.lower (CallSpikes.call_direction r)))
    = CallSpikes.is_outgoing r ∧
  (CallSpikes.call_direction r = "1" → r ∉ CallSpikes.outgoing_df df) ∧
  CallSpikes.analyze_logic df intl_threshold spike_threshold
    = CallSpikes.analyze_logic (filter (λ x, CallSpikes.call_direction x ≠ "1") df)
        intl_threshold spike_threshold.
Proof.
  split; [apply elem_of_outgoing_df|].
  split; [by intros r' Hr'; unfold CallSpikes.is_outgoing; rewrite Hr'|].
  split; [by unfold CallSpikes.is_outgoing; simpl; rewrite upper_lower|].
  split.
  - intros H1 [_ Hin]%elem_of_outgoing_df. rewrite H1 in Hin.
    by apply code_1_not_accepted.
  - apply call_spikes_analyze_outgoing. symmetry. apply outgoing_df_without.
    intros x Hx%call_spikes_is_outgoing_spec Hone. rewrite Hone in Hx.
    by apply code_1_not_accepted.
Qed.

(** C3, as stated, fails: a row whose call_direction is "1" is in the
    accepted set the claim names, yet the detector drops it, and with it
    both findings; the same row with "MO" yields both. *)
Lemma call_spikes_rejects_code_1 :
  PyStr.upper "1" ∈ ["MO"; "OUTGOING"; "CALL OUT"; "1"] ∧
  CallSpikes.outgoing_df [CallSpikes.mkCdr (Some "A") "4412345678" (Some 0) "1"] = [] ∧
  CallSpikes.analyze_logic [CallSpikes.mkCdr (Some "A") "4412345678" (Some 0) "1"] 0 0
    = ([], []) ∧
  CallSpikes.analyze_logic [CallSpikes.mkCdr (Some "A") "4412345678" (Some 0) "MO"] 0 0
    = ([("A", 1)], [(("A", 0), 1)]).
Proof.
  split; [apply (bool_decide_unpack _); by vm_compute|].
  repeat split; by vm_compute.
Qed.

(** ** Strange_sim_use.py *)

Section StrangeSimFacts.
Import StrangeSim.

Lemma elem_of_strange_sim (A : string) (n : Z) (df : list cdr) (threshold : Z) :
  (A, n) ∈ analyze_logic df threshold ↔
  n = Spec.strange_sim_international_calls A df ∧ threshold < n ∧ 0 < n.
Proof.
  assert (∀ l : list cdr, l = filter is_outgoing df →
    Frame.get_group (λ r, Some (calling_number r)) A (filter intl_mask l)
    = filter (λ r, is_outgoing r ∧ intl_mask r ∧ calling_number r = A) df)
    as Hgroup.
  { intros l ->. rewrite get_group_filter, list_filter_filter.
    apply list_filter_iff. intros r. split.
    - intros [[Hi Hk] Ho]. by injection Hk.
    - intros (Ho & Hi & ->). done. }
  unfold analyze_logic, Spec.strange_sim_international_calls.
  destruct (filter is_outgoing df) as [|r0 out] eqn:Hout.
  - rewrite elem_of_nil. split; [done|]. intros (-> & _ & Hpos).
    specialize (Hgroup [] eq_refl). simpl in Hgroup.
    rewrite <- Hgroup in Hpos. unfold Frame.len, Frame.get_group in Hpos.
    simpl in Hpos. lia.
  - unfold Frame.sort_counts_desc.
    rewrite elem_of_sort_by, list_elem_of_filter, elem_of_group_sizes. cbn [snd].
    rewrite (Hgroup _ eq_refl). tauto.
Qed.

End StrangeSimFacts.

(** C1. In both detectors that score international calls, a caller with
    exactly [threshold + 1] qualifying international outgoing calls is
    listed with the count [threshold + 1], and a caller with exactly
    [threshold] such calls is not listed: the comparison is strict. *)
Theorem international_threshold_strict (A : string) (threshold spike_threshold : Z)
    (df : list CallSpikes.cdr) (df' : list StrangeSim.cdr) :
  0 ≤ threshold →
  (Spec.call_spikes_international_calls A df = threshold + 1 →
     (A, threshold + 1) ∈ (CallSpikes.analyze_logic df threshold spike_threshold).1) ∧
  (Spec.call_spikes_international_calls A df = threshold →
     ∀ n, (A, n) ∉ (CallSpikes.analyze_logic df threshold spike_threshold).1) ∧
  (Spec.strange_sim_international_calls A df' = threshold + 1 →
     (A, threshold + 1) ∈ StrangeSim.analyze_logic df' threshold) ∧
  (Spec.strange_sim_international_calls A df' = threshold →
     ∀ n, (A, n) ∉ StrangeSim.analyze_logic df' threshold).
Proof.
  intros Hthr. unfold Spec.call_spikes_international_calls. repeat split.
  - intros Hn. apply elem_of_call_spikes_intl. rewrite Hn. lia.
  - intros Hn n [-> [Hlt _]]%elem_of_call_spikes_intl. lia.
  - intros Hn. apply elem_of_strange_sim. rewrite Hn. lia.
  - intros Hn n [-> [Hlt _]]%elem_of_strange_sim. lia.
Qed.

(** C1 at threshold 1: a caller with two qualifying calls is listed by
    Call_Spikes, a caller with one is not listed by Strange_sim_use. *)
Lemma international_threshold_strict_witness :
  ("A", 2) ∈ (CallSpikes.analyze_logic
      [ CallSpikes.mkCdr (Some "A") "4412345678" (Some 0) "MO";
        CallSpikes.mkCdr (Some "A") "9198765432" (Some 0) "MO";
        CallSpikes.mkCdr (Some "A") "12025550100" None "outgoing";
        CallSpikes.mkCdr (Some "B") "4412345678" (Some 0) "MO" ] 1 15).1
  ∧ ∀ n, ("B", n) ∉ StrangeSim.analyze_logic
      [ StrangeSim.mkCdr "B" "4412345678" "1" (Some 0);
        StrangeSim.mkCdr "B" "44123" "MO" (Some 0) ] 1.
Proof.
  split.
  - apply (international_threshold_strict "A" 1 15 _ []); [lia | by vm_compute].
  - apply (international_threshold_strict "B" 1 15 []); [lia | by vm_compute].
Defined.

(** ** SIM_Swapping.py: device reuse *)

Lemma len_remove_dups_size (l : list string) :
  Frame.len (remove_dups l) = Z.of_nat (size (list_to_set l : gset string)).
Proof.
  unfold Frame.len. f_equal.
  rewrite <- (size_list_to_set (C:=gset string) (remove_dups l))
    by apply NoDup_remove_dups.
  f_equal. apply set_eq. intros x.
  by rewrite !elem_of_list_to_set, elem_of_remove_dups.
Qed.

Section ImeiReuseFacts.
Import SimSwap.

Lemma observed_imsis_get_group (device : string) (df : list cdr) :
  list_to_set (imsi <$> Frame.get_group (λ r, Some (imei r)) device df)
  = Spec.observed_imsis device df.
Proof.
  unfold Spec.observed_imsis, Frame.get_group. do 2 f_equal.
  apply list_filter_iff. intros r. split; [by intros [= ?] | by intros ->].
Qed.

Lemma elem_of_imei_counts (device : string) (n : Z) (df : list cdr) :
  (device, n) ∈ imei_counts df ↔
  n = Z.of_nat (size (Spec.observed_imsis device df)) ∧ 0 < n.
Proof.
  unfold imei_counts. rewrite list_elem_of_fmap. split.
  - intros ([k g] & [= Hk Hn] & Hin). cbn [fst snd] in Hk, Hn. subst k n.
    apply elem_of_groupby in Hin as [(r & Hr & [= Hk]) ->].
    rewrite len_remove_dups_size, observed_imsis_get_group. split; [done|].
    assert (imsi r ∈ Spec.observed_imsis device df).
    { unfold Spec.observed_imsis. rewrite elem_of_list_to_set, list_elem_of_fmap.
      exists r. by rewrite list_elem_of_filter. }
    assert (size (Spec.observed_imsis device df) ≠ 0%nat); [|lia].
    rewrite size_empty_iff. set_solver.
  - intros [-> Hpos].
    exists (device, Frame.get_group (λ r, Some (imei r)) device df). split.
    + cbn [fst snd]. by rewrite len_remove_dups_size, observed_imsis_get_group.
    + apply elem_of_groupby. split; [|done].
      destruct (set_choose_or_empty (Spec.observed_imsis device df)) as [[x Hx]|Hemp].
      * unfold Spec.observed_imsis in Hx.
        rewrite elem_of_list_to_set, list_elem_of_fmap in Hx.
        destruct Hx as (r & _ & [<- Hr]%list_elem_of_filter). by exists r.
      * apply size_empty_iff in Hemp. lia.
Qed.

Lemma elem_of_imei_swaps (device : string) (n : Z) (df : list cdr) :
  (device, n) ∈ imei_swaps df ↔
  n = Z.of_nat (size (Spec.observed_imsis device df)) ∧ 1 < n.
Proof.
  unfold imei_swaps. rewrite list_elem_of_filter, elem_of_imei_counts. cbn [snd]. lia.
Qed.

End ImeiReuseFacts.

(** C4. An imei observed with exactly one distinct imsi is never in the
    device-reuse findings; an imei observed with two or more is always
    there; and the [unique_imsis] reported for an imei is the number of
    distinct imsi values observed with it. *)
Theorem imei_reuse_distinct_count (df : list SimSwap.cdr) (device : string)
    (w : SimSwap.window) (similarity_threshold : Qc) :
  (size (Spec.observed_imsis device df) = 1%nat →
     ∀ n, (device, n) ∉ (SimSwap.analyze_logic df w similarity_threshold).1) ∧
  ((2 ≤ size (Spec.observed_imsis device df))%nat →
     (device, Z.of_nat (size (Spec.observed_imsis device df)))
       ∈ (SimSwap.analyze_logic df w similarity_threshold).1) ∧
  (∀ n, (device, n) ∈ (SimSwap.analyze_logic df w similarity_threshold).1 →
     n = Z.of_nat (size (Spec.observed_imsis device df))).
Proof.
  cbn [SimSwap.analyze_logic fst]. repeat split.
  - intros H1 n [-> Hn]%elem_of_imei_swaps. lia.
  - intros H2. apply elem_of_imei_swaps. lia.
  - by intros n [-> _]%elem_of_imei_swaps.
Qed.

Example imei_reuse_two_sims :
  SimSwap.imei_swaps
    [ SimSwap.mkCdr "I1" "E1" "900" "100" 0;
      SimSwap.mkCdr "I2" "E1" "901" "100" 5;
      SimSwap.mkCdr "I1" "E1" "900" "101" 9;
      SimSwap.mkCdr "I3" "E2" "902" "100" 9 ]
  = [("E1", 2)].
Proof. by vm_compute. Qed.

(** ** SIM_Swapping.py: rows dropped by parse_cdr *)

Lemma omap_fmap_compose {A B C : Type} (g : A → B) (h : B → option C) (l : list A) :
  omap h (g <$> l) = omap (h ∘ g) l.
Proof. induction l as [|x l IH]; [done|]. csimpl. by rewrite IH. Qed.

Lemma omap_filter_is_Some {A B : Type} (h : A → option B)
    (P : A → Prop) `{∀ x, Decision (P x)} (l : list A) :
  (∀ x, is_Some (h x) → P x) → omap h (filter P l) = omap h l.
Proof.
  intros HP. induction l as [|x l IH]; [done|].
  rewrite filter_cons. destruct (decide (P x)) as [Hx|Hx]; csimpl.
  - by rewrite IH.
  - destruct (h x) as [y|] eqn:Hy; [|done].
    destruct Hx. apply HP. by rewrite Hy.
Qed.

Section ParseFacts.
Import SimSwap.
Context (to_datetime : string → option Z).

Lemma keep_row_Some (r : raw) (c : cdr) :
  keep_row (coerce to_datetime r) = Some c ↔
  ∃ caller t, raw_calling_number r = Some caller
    ∧ raw_start_time r ≫= to_datetime = Some t
    ∧ c = mkCdr (clean_id (raw_imsi r)) (clean_id (raw_imei r)) caller
                (clean_id (raw_called_number r)) t.
Proof.
  unfold keep_row, coerce. cbn.
  destruct (raw_calling_number r) as [caller|]; cbn;
    [destruct (raw_start_time r ≫= to_datetime) as [t|]; cbn|].
  - split; [intros [= <-]; by exists caller, t|].
    by intros (? & ? & [= <-] & [= <-] & ->).
  - split; [done|]. by intros (? & ? & _ & ? & _).
  - split; [done|]. by intros (? & ? & ? & _).
Qed.

Lemma keep_row_survives (r : raw) :
  is_Some (keep_row (coerce to_datetime r)) ↔ Spec.survives to_datetime r.
Proof.
  unfold Spec.survives. split.
  - intros [c (caller & t & -> & -> & _)%keep_row_Some]. by split; eexists.
  - intros [[t Ht] [caller Hc]]. eexists. apply keep_row_Some. by exists caller, t.
Qed.

Lemma elem_of_parse_cdr (c : cdr) (df : list raw) :
  c ∈ parse_cdr to_datetime df ↔
  ∃ r, r ∈ df ∧ keep_row (coerce to_datetime r) = Some c.
Proof.
  unfold parse_cdr. rewrite list_elem_of_omap. split.
  - intros (x & (r & -> & Hr)%list_elem_of_fmap & Hk). by exists r.
  - intros (r & Hr & Hk). exists (coerce to_datetime r). split; [|done].
    apply list_elem_of_fmap. by exists r.
Qed.

Lemma parse_cdr_survivors (df : list raw) :
  parse_cdr to_datetime df
  = parse_cdr to_datetime (filter (Spec.survives to_datetime) df).
Proof.
  unfold parse_cdr. rewrite !omap_fmap_compose.
  symmetry. apply omap_filter_is_Some. intros r. apply keep_row_survives.
Qed.

Lemma observed_imsis_parse_cdr (device : string) (df : list raw) :
  Spec.observed_imsis device (parse_cdr to_datetime df)
  = Spec.surviving_imsis to_datetime device df.
Proof.
  unfold Spec.observed_imsis, Spec.surviving_imsis. apply set_eq. intros x.
  rewrite !elem_of_list_to_set, !list_elem_of_fmap. split.
  - intros (c & -> & [Hdev (r & Hr & Hk)%elem_of_parse_cdr]%list_elem_of_filter).
    exists r. rewrite list_elem_of_filter.
    assert (Spec.survives to_datetime r) by (apply keep_row_survives; by rewrite Hk).
    apply keep_row_Some in Hk as (caller & t & _ & _ & ->). by cbn in *.
  - intros (r & -> & [[[c Hk]%keep_row_survives Hdev] Hr]%list_elem_of_filter).
    exists c. rewrite list_elem_of_filter, elem_of_parse_cdr.
    pose proof Hk as (caller & t & _ & _ & ->)%keep_row_Some. cbn.
    repeat split; [done|]. by exists r.
Qed.

End ParseFacts.

(** C10. A loaded row whose start_time does not parse, or whose
    calling_number is null, is dropped by [parse_cdr]; the analysis
    then runs as if the row had never been loaded, and the device-reuse
    method counts, for an imei, the distinct imsi values of the surviving
    rows only. *)
Theorem unparsable_rows_excluded_from_device_reuse
    (to_datetime : string → option Z) (df : list SimSwap.raw)
    (w : SimSwap.window) (similarity_threshold : Qc) :
  (∀ r, SimSwap.raw_start_time r ≫= to_datetime = None
        ∨ SimSwap.raw_calling_number r = None →
        SimSwap.keep_row (SimSwap.coerce to_datetime r) = None) ∧
  (∀ c, c ∈ SimSwap.parse_cdr to_datetime df →
        ∃ r, r ∈ df ∧ Spec.survives to_datetime r
             ∧ SimSwap.keep_row (SimSwap.coerce to_datetime r) = Some c) ∧
  SimSwap.analyze_logic (SimSwap.parse_cdr to_datetime df) w similarity_threshold
    = SimSwap.analyze_logic
        (SimSwap.parse_cdr to_datetime (filter (Spec.survives to_datetime) df))
        w similarity_threshold ∧
  (∀ device n,
     (device, n) ∈ (SimSwap.analyze_logic (SimSwap.parse_cdr to_datetime df)
                      w similarity_threshold).1 ↔
     n = Z.of_nat (size (Spec.surviving_imsis to_datetime device df)) ∧ 1 < n).
Proof.
  split; [|split; [|split]].
  - intros r Hr. destruct (SimSwap.keep_row _) as [c|] eqn:Hk; [|done].
    apply keep_row_Some in Hk as (caller & t & Hc & Ht & _).
    destruct Hr as [Hr|Hr]; congruence.
  - intros c (r & Hr & Hk)%elem_of_parse_cdr. exists r.
    split; [done|]. split; [|done].
    apply (keep_row_survives to_datetime r). by rewrite Hk.
  - by rewrite <- parse_cdr_survivors.
  - intros device n. cbn [SimSwap.analyze_logic fst].
    by rewrite elem_of_imei_swaps, observed_imsis_parse_cdr.
Qed.

(** A device seen with two SIMs escapes the device-reuse finding when
    the only row of one of them has a start_time that does not parse. *)
Example unparsable_row_hides_reuse :
  let to_datetime := λ s : string, if String.eqb s "not a date" then None else Some 0 in
  let good := SimSwap.mkRaw (Some "404100000000001.0") (Some "356000000000001")
                (Some "900") (Some "100") (Some "2024-01-01 10:00:00") in
  let bad := SimSwap.mkRaw (Some "404100000000002") (Some "356000000000001")
               (Some "901") (Some "100") (Some "not a date") in
  let fixed := SimSwap.mkRaw (Some "404100000000002") (Some "356000000000001")
                 (Some "901") (Some "100") (Some "2024-01-01 10:05:00") in
  SimSwap.imei_swaps (SimSwap.parse_cdr to_datetime [good; bad]) = [] ∧
  SimSwap.imei_swaps (SimSwap.parse_cdr to_datetime [good; fixed])
    = [("356000000000001", 2)].
Proof. split; by vm_compute. Qed.

(** ** SIM_Swapping.py: behavioural similarity *)

Section IndexPairsFacts.
Context {A : Type}.
Implicit Types l : list A.

Lemma elem_of_index_pairs_inv x y l :
  (x, y) ∈ SimSwap.index_pairs l → x ∈ l ∧ y ∈ l.
Proof.
  induction l as [|z l IH]; simpl; [by intros ?%elem_of_nil|].
  rewrite elem_of_app, list_elem_of_fmap. intros [(y' & [= -> ->] & Hy)|Hin].
  - split; [left | by right].
  - destruct (IH Hin). split; by right.
Qed.

Lemma index_pairs_distinct x y l :
  NoDup l → (x, y) ∈ SimSwap.index_pairs l → x ≠ y.
Proof.
  induction 1 as [|z l Hz Hnd IH]; simpl; [by intros ?%elem_of_nil|].
  rewrite elem_of_app, list_elem_of_fmap. intros [(y' & [= -> ->] & Hy)|Hin].
  - by intros ->.
  - by apply IH.
Qed.


Lemma index_pairs_short l : (length l < 2)%nat → SimSwap.index_pairs l = [].
Proof. destruct l as [|? [|? ?]]; simpl; [done|done|lia]. Qed.
End IndexPairsFacts.

Lemma bucket_pairs_index_pairs (group : list SimSwap.signature) :
  SimSwap.bucket_pairs group = SimSwap.index_pairs group.
Proof.
  unfold SimSwap.bucket_pairs. case_bool_decide as Hlen; [|done].
  symmetry. apply index_pairs_short. unfold Frame.len in Hlen. lia.
Qed.

Lemma groupby_NoDup {A K : Type} `{EqDecision K} (leb : K → K → bool)
    (key : A → option K) (df : list A) :
  NoDup (Frame.groupby leb key df).
Proof.
  unfold Frame.groupby. apply NoDup_fmap_2_strong; [|apply group_keys_NoDup].
  by intros k k' _ _ [= ->].
Qed.

Section PatternFacts.
Import SimSwap.
Context (w : window) (df : list cdr).

Lemma signature_group (i : string) (b : Z) :
  Frame.get_group (λ r, Some (imsi r, time_bucket w r)) (i, b) df
  = filter (λ r, imsi r = i ∧ time_bucket w r = b) df.
Proof.
  unfold Frame.get_group. apply list_filter_iff. intros r. split.
  - by intros [= -> ->].
  - by intros [-> ->].
Qed.

Lemma elem_of_signatures (s : signature) :
  s ∈ signatures w df ↔
  Spec.active w df (sig_imsi s) (sig_time_bucket s)
  ∧ called_set s = Spec.signature_of w df (sig_imsi s) (sig_time_bucket s).
Proof.
  unfold signatures. rewrite list_elem_of_fmap. split.
  - intros ([[i b] g] & -> & Hin). cbn.
    apply elem_of_groupby in Hin as [(r & Hr & [= Hi Hb]) ->]. split.
    + by exists r.
    + unfold Spec.signature_of. by rewrite signature_group.
  - destruct s as [i b cs]. cbn. intros [(r & Hr & Hi & Hb) ->].
    exists ((i, b), Frame.get_group (λ r, Some (imsi r, time_bucket w r)) (i, b) df).
    split.
    + cbn. unfold Spec.signature_of. by rewrite signature_group.
    + apply elem_of_groupby. split; [|done]. exists r. by rewrite Hi, Hb.
Qed.

(** One signature per imsi and bucket. *)
Lemma signatures_key_inj (s1 s2 : signature) :
  s1 ∈ signatures w df → s2 ∈ signatures w df →
  sig_imsi s1 = sig_imsi s2 → sig_time_bucket s1 = sig_time_bucket s2 → s1 = s2.
Proof.
  intros [_ H1]%elem_of_signatures [_ H2]%elem_of_signatures Hi Hb.
  destruct s1, s2. cbn in *. congruence.
Qed.

Lemma signatures_NoDup : NoDup (signatures w df).
Proof.
  unfold signatures. apply NoDup_fmap_2_strong; [|apply groupby_NoDup].
  intros [[i b] g] [[i' b'] g'] Hin Hin' [= -> -> Hset].
  apply elem_of_groupby in Hin as [_ ->]. by apply elem_of_groupby in Hin' as [_ ->].
Qed.

Lemma elem_of_comparisons (b : Z) (s1 s2 : signature) :
  (b, (s1, s2)) ∈ comparisons w df ↔
  (s1, s2) ∈ index_pairs (filter (λ s, sig_time_bucket s = b) (signatures w df)).
Proof.
  assert (∀ b', Frame.get_group (λ s, Some (sig_time_bucket s)) b' (signatures w df)
                = filter (λ s, sig_time_bucket s = b') (signatures w df)) as Hgroup.
  { intros b'. unfold Frame.get_group. apply list_filter_iff. intros s.
    split; [by intros [= ->] | by intros ->]. }
  unfold comparisons. rewrite list_elem_of_bind. split.
  - intros ([b' g] & Hin & [_ ->]%elem_of_groupby). cbn in Hin.
    rewrite bucket_pairs_index_pairs, list_elem_of_fmap in Hin.
    destruct Hin as (p & [= -> ->] & Hp). by rewrite Hgroup in Hp.
  - intros Hin.
    exists (b, Frame.get_group (λ s, Some (sig_time_bucket s)) b (signatures w df)).
    cbn. rewrite bucket_pairs_index_pairs, Hgroup. split.
    + apply list_elem_of_fmap. by exists (s1, s2).
    + apply elem_of_groupby. split; [|done].
      apply elem_of_index_pairs_inv in Hin as [[Hb Hs1]%list_elem_of_filter _].
      exists s1. by rewrite Hb.
Qed.

(** What is compared: two signatures of one bucket, of distinct imsi. *)
Lemma comparisons_same_bucket (b : Z) (s1 s2 : signature) :
  (b, (s1, s2)) ∈ comparisons w df →
  sig_imsi s1 ≠ sig_imsi s2
  ∧ Spec.active w df (sig_imsi s1) b ∧ Spec.active w df (sig_imsi s2) b
  ∧ called_set s1 = Spec.signature_of w df (sig_imsi s1) b
  ∧ called_set s2 = Spec.signature_of w df (sig_imsi s2) b.
Proof.
  intros Hin%elem_of_comparisons.
  pose proof (index_pairs_distinct s1 s2 _
                (NoDup_filter _ _ signatures_NoDup) Hin) as Hne.
  apply elem_of_index_pairs_inv in Hin
    as [[Hb1 Hs1]%list_elem_of_filter [Hb2 Hs2]%list_elem_of_filter].
  split.
  - intros Hi. apply Hne. apply signatures_key_inj; congruence.
  - apply elem_of_signatures in Hs1 as [Ha1 Hc1].
    apply elem_of_signatures in Hs2 as [Ha2 Hc2].
    rewrite Hb1 in Ha1, Hc1. by rewrite Hb2 in Ha2, Hc2.
Qed.


Lemma elem_of_pattern_df (similarity_threshold : Qc) (p : pattern) :
  p ∈ pattern_df df w similarity_threshold ↔
  ∃ c, c ∈ comparisons w df
    ∧ (similarity_threshold
         ≤ calculate_jaccard_similarity (called_set c.2.1) (called_set c.2.2))%Qc
    ∧ p = mkPattern c.1 (sig_imsi c.2.1) (sig_imsi c.2.2)
            (round2 (calculate_jaccard_similarity (called_set c.2.1) (called_set c.2.2)))
            (called_set c.2.1 ∩ called_set c.2.2).
Proof.
  unfold pattern_df. rewrite list_elem_of_omap.
  split; intros (c & Hc & Hp); exists c; (split; [done|]).
  - unfold score_pair in Hp. case_decide; [|done]. by injection Hp as <-.
  - destruct Hp as [Hthr ->]. unfold score_pair. by rewrite decide_True.
Qed.

End PatternFacts.



(** Two imsi values with the same three contacts in one bucket score 1
    and are recorded; moved to different buckets they are not compared. *)
Example identical_signatures_flagged :
  (λ p, (SimSwap.time_window p, SimSwap.imsi_1 p, SimSwap.imsi_2 p,
         SimSwap.common_contacts p, Qnum (SimSwap.similarity_score p),
         Qden (SimSwap.similarity_score p))) <$>
    SimSwap.pattern_df
      [ SimSwap.mkCdr "I1" "E1" "900" "x" 0; SimSwap.mkCdr "I1" "E1" "900" "y" 1;
        SimSwap.mkCdr "I1" "E1" "900" "z" 2; SimSwap.mkCdr "I2" "E2" "901" "z" 3;
        SimSwap.mkCdr "I2" "E2" "901" "y" 4; SimSwap.mkCdr "I2" "E2" "901" "x" 5 ]
      SimSwap.W15min 1%Qc
  = [ (0, "I1", "I2", {["x"; "y"; "z"]}, 1, 1%positive) ] ∧
  SimSwap.comparisons SimSwap.W15min
    [ SimSwap.mkCdr "I1" "E1" "900" "x" 0;
      SimSwap.mkCdr "I2" "E2" "901" "x" (15 * Frame.NS_PER_MINUTE) ] = [].
Proof. split; by vm_compute. Qed.

(** ** Sortedness of the insertion sort *)

Section SortedFacts.
Context {A : Type} (leb : A → A → bool).
Hypothesis leb_total : ∀ x y, leb x y ∨ leb y x.
Hypothesis leb_trans : ∀ x y z, leb x y → leb y z → leb x z.

Lemma insert_sorted_StronglySorted (x : A) (l : list A) :
  StronglySorted leb l → StronglySorted leb (Frame.insert_sorted leb x l).
Proof using leb_total leb_trans.
  induction 1 as [|y l Hl IH Hy]; simpl.
  - by repeat constructor.
  - destruct (leb x y) eqn:Hxy.
    + constructor; [by constructor|]. constructor; [by rewrite Hxy|].
      eapply Forall_impl; [exact Hy|]. intros z Hz.
      apply (leb_trans x y z); [by rewrite Hxy | done].
    + constructor; [done|].
      rewrite (insert_sorted_Permutation leb x l). constructor; [|done].
      destruct (leb_total x y) as [H|H]; [by rewrite Hxy in H | done].
Qed.

Lemma sort_by_StronglySorted (l : list A) : StronglySorted leb (Frame.sort_by leb l).
Proof using leb_total leb_trans.
  induction l as [|x l IH]; simpl; [constructor|].
  by apply insert_sorted_StronglySorted.
Qed.

End SortedFacts.

(** ** Counting values *)

Section ValueCountsFacts.
Context {A : Type} `{EqDecision A}.
Implicit Types l : list A.





End ValueCountsFacts.

(** ** Toll_Free_Abuse.py *)



Lemma filter_fmap_length {A B : Type} (f : A → B) (P : B → Prop)
    `{∀ y, Decision (P y)} (l : list A) :
  length (filter P (f <$> l)) = length (filter (λ x, P (f x)) l).
Proof.
  induction l as [|x l IH]; [done|]. csimpl.
  rewrite !filter_cons. destruct (decide (P (f x))); simpl; by rewrite IH.
Qed.

Lemma filter_none {A : Type} (P : A → Prop) `{∀ x, Decision (P x)} (l : list A) :
  (∀ x, x ∈ l → ¬ P x) → filter P l = [].
Proof.
  intros HP. destruct (filter P l) as [|x k] eqn:Hf; [done|].
  assert (x ∈ filter P l) as [Hx Hin]%list_elem_of_filter by (rewrite Hf; left).
  by destruct (HP x Hin).
Qed.

Section TollFreeFacts.
Import TollFree.


Lemma elem_of_abusive_users (A : string) (day n : Z) (df : list cdr)
    (abuse_threshold : Z) (prefixes_str : string) :
  ((A, day), n) ∈ (analyze_logic df abuse_threshold prefixes_str).1 ↔
  n = Spec.tollfree_calls_on A day df prefixes_str ∧ abuse_threshold < n ∧ 0 < n.
Proof.
  assert (Frame.get_group daily_key (A, day) (tollfree_calls df prefixes_str)
    = filter (λ r, calling_number r = A ∧ call_date r = Some day)
        (tollfree_calls df prefixes_str)) as Hgroup.
  { unfold Frame.get_group. apply list_filter_iff. intros r. unfold daily_key.
    destruct (call_date r) as [d|]; cbn; [|naive_solver].
    split; [by intros [= -> ->] | by intros [-> [= ->]]]. }
  unfold analyze_logic, Spec.tollfree_calls_on.
  destruct (tollfree_calls df prefixes_str) as [|r0 calls] eqn:Hcalls.
  - cbn [fst]. rewrite elem_of_nil. split; [done|]. intros (-> & _ & Hpos).
    unfold Frame.len in Hpos. rewrite filter_nil in Hpos. simpl in Hpos. lia.
  - cbn [fst]. unfold Frame.sort_counts_desc.
    rewrite elem_of_sort_by, list_elem_of_filter, elem_of_group_sizes. cbn [snd].
    rewrite Hgroup. tauto.
Qed.

Lemma top_targets_value_counts (df : list cdr) (abuse_threshold : Z)
    (prefixes_str : string) :
  (analyze_logic df abuse_threshold prefixes_str).2
  = take 10 (Frame.value_counts (called_number <$> tollfree_calls df prefixes_str)).
Proof.
  unfold analyze_logic. by destruct (tollfree_calls df prefixes_str).
Qed.


End TollFreeFacts.


Example tollfree_default_prefixes :
  TollFree.parse_prefixes TollFree.DEFAULT_PREFIXES = ["1800"; "1860"; "800"; "198"; "199"]
  ∧ TollFree.analyze_logic
      [ TollFree.mkCdr "A" "18009991111" "MO" (Some 0);
        TollFree.mkCdr "A" "18009991111" "1" (Some Frame.NS_PER_HOUR);
        TollFree.mkCdr "A" "918009991111" "MO" (Some 0);
        TollFree.mkCdr "B" "1860123" "outgoing" (Some Frame.NS_PER_DAY);
        TollFree.mkCdr "B" "1860123" "MT" (Some Frame.NS_PER_DAY) ]
      1 TollFree.DEFAULT_PREFIXES
    = ([(("A", 0), 2)], [("18009991111", 2); ("1860123", 1)]).
Proof. split; by vm_compute. Qed.

(** ** Tower_Jumping.py *)

Lemma head_filter_Some {A : Type} (P : A → Prop) `{∀ x, Decision (P x)}
    (l : list A) (p : A) :
  head (filter P l) = Some p ↔
  ∃ k1 k2, l = k1 ++ p :: k2 ∧ P p ∧ ∀ x, x ∈ k1 → ¬ P x.
Proof.
  induction l as [|y l IH].
  - split; [done|]. intros (k1 & k2 & Hl & _). by destruct k1.
  - rewrite filter_cons. destruct (decide (P y)) as [Hy|Hy]; simpl.
    + split.
      * intros [= ->]. exists [], l. repeat split; [done|]. by intros x ?%elem_of_nil.
      * intros ([|z k1] & k2 & [= Hz Hl] & Hp & Hk1); [by subst|].
        subst z. destruct (Hk1 y); [left|done].
    + rewrite IH. split.
      * intros (k1 & k2 & -> & Hp & Hk1). exists (y :: k1), k2.
        repeat split; [done|]. intros x [->|Hx]%elem_of_cons; auto.
      * intros ([|z k1] & k2 & [= Hz Hl] & Hp & Hk1); [by subst|].
        subst z. exists k1, k2. repeat split; [done..|].
        intros x Hx. apply Hk1. by right.
Qed.

Lemma head_filter_None {A : Type} (P : A → Prop) `{∀ x, Decision (P x)} (l : list A) :
  head (filter P l) = None ↔ ∀ x, x ∈ l → ¬ P x.
Proof.
  split.
  - intros Hh x Hx HP. assert (x ∈ filter P l) as Hf by (by apply list_elem_of_filter).
    destruct (filter P l); [by apply elem_of_nil in Hf | done].
  - intros HP. by rewrite filter_none.
Qed.

Section TowerJumpFacts.
Import TowerJump.
Context (np : numpy).

Lemma elem_of_shift_rows (earlier_rev df : list cdr) (r : cdr) (o : option cdr) :
  (r, o) ∈ shift_rows earlier_rev df ↔
  ∃ l1 l2, df = l1 ++ r :: l2 ∧ o = previous_row (reverse l1 ++ earlier_rev) r.
Proof.
  revert earlier_rev. induction df as [|r0 df IH]; intros earlier_rev; simpl.
  - rewrite elem_of_nil. split; [done|]. intros (l1 & l2 & Hl & _). by destruct l1.
  - rewrite elem_of_cons, IH. split.
    + intros [[= -> ->]|(l1 & l2 & -> & ->)].
      * by exists [], df.
      * exists (r0 :: l1), l2. split; [done|].
        by rewrite reverse_cons, <- app_assoc.
    + intros ([|r1 l1] & l2 & [= Hr Hl] & ->).
      * left. by subst.
      * right. subst r1 df. exists l1, l2. split; [done|].
        by rewrite reverse_cons, <- app_assoc.
Qed.

(** The previous row of a row is the latest earlier row of its imsi. *)
Lemma with_previous_Some (df : list cdr) (r p : cdr) :
  (r, Some p) ∈ with_previous df ↔
  ∃ l1 l2 l3, df = l1 ++ p :: l2 ++ r :: l3
    ∧ imsi p = imsi r ∧ ∀ x, x ∈ l2 → imsi x ≠ imsi r.
Proof.
  unfold with_previous. rewrite elem_of_shift_rows. unfold previous_row. split.
  - intros (l & l3 & -> & Hp). symmetry in Hp. rewrite app_nil_r in Hp.
    apply head_filter_Some in Hp as (k1 & k2 & Hl & Hi & Hk1).
    apply (f_equal reverse) in Hl. rewrite reverse_involutive, reverse_app, reverse_cons in Hl.
    exists (reverse k2), (reverse k1), l3. subst l.
    rewrite <- !app_assoc. split; [done|]. split; [done|].
    intros x Hx. rewrite elem_of_reverse in Hx. by apply Hk1.
  - intros (l1 & l2 & l3 & -> & Hi & Hl2). exists (l1 ++ p :: l2), l3.
    split; [by rewrite <- app_assoc|]. symmetry. rewrite app_nil_r.
    apply head_filter_Some. exists (reverse l2), (reverse l1).
    rewrite reverse_app, reverse_cons, <- app_assoc. split; [done|]. split; [done|].
    intros x Hx. rewrite elem_of_reverse in Hx. by apply Hl2.
Qed.

(** A row has no previous row when it is the first of its imsi. *)
Lemma with_previous_None (df : list cdr) (r : cdr) :
  (r, None) ∈ with_previous df ↔
  ∃ l1 l2, df = l1 ++ r :: l2 ∧ ∀ x, x ∈ l1 → imsi x ≠ imsi r.
Proof.
  unfold with_previous. rewrite elem_of_shift_rows. unfold previous_row.
  split; intros (l1 & l2 & -> & Hp); exists l1, l2; (split; [done|]).
  - symmetry in Hp. rewrite app_nil_r in Hp.
    intros x Hx. eapply (proj1 (head_filter_None _ _) Hp). by rewrite elem_of_reverse.
  - symmetry. rewrite app_nil_r. apply head_filter_None.
    intros x Hx. rewrite elem_of_reverse in Hx. by apply Hp.
Qed.

Lemma time_diff_min_nonneg (p r : cdr) :
  (0 ≤ time_diff_min p r)%Qc ↔ start_time p ≤ start_time r.
Proof.
  unfold time_diff_min.
  assert (0 < / Qc_of_Z Frame.NS_PER_MINUTE)%Qc as Hinv.
  { apply Qcinv_pos. by rewrite <- Z2Qc_inj_0, <- Z2Qc_inj_lt. }
  unfold Qcdiv. rewrite <- (Qcmult_0_l (/ Qc_of_Z Frame.NS_PER_MINUTE)).
  rewrite <- Qcmult_le_mono_pos_r by done.
  rewrite <- Z2Qc_inj_0, <- Z2Qc_inj_le. lia.
Qed.

Lemma mask_Some (max_dist_km max_time_min : Qc) (r p : cdr) :
  mask np max_dist_km max_time_min (r, Some p) = true ↔
  (max_dist_km ≤ dist_km np p r)%Qc
  ∧ (0 ≤ time_diff_min p r)%Qc ∧ (time_diff_min p r ≤ max_time_min)%Qc.
Proof.
  unfold mask. cbn [fst snd].
  rewrite !andb_true_iff, !bool_decide_eq_true. tauto.
Qed.

Lemma elem_of_tower_jumps (df : list cdr) (max_dist_km max_time_min : Qc) (j : jump) :
  j ∈ analyze_logic np df max_dist_km max_time_min ↔
  ∃ r p, (r, Some p) ∈ with_previous (sort_values df)
    ∧ (max_dist_km ≤ dist_km np p r)%Qc
    ∧ (0 ≤ time_diff_min p r)%Qc ∧ (time_diff_min p r ≤ max_time_min)%Qc
    ∧ j = to_jump np (r, Some p).
Proof.
  unfold analyze_logic. rewrite list_elem_of_fmap. split.
  - intros ([r [p|]] & -> & [Hm Hin]%list_elem_of_filter); [|done].
    apply Is_true_true, mask_Some in Hm. exists r, p. tauto.
  - intros (r & p & Hin & Hd & H0 & Ht & ->). exists (r, Some p). split; [done|].
    apply list_elem_of_filter. split; [|done]. apply Is_true_true, mask_Some. tauto.
Qed.

End TowerJumpFacts.

(** *** The order of [sort_values] *)

Lemma string_compare_trans_le (s1 s2 s3 : string) :
  String.compare s1 s2 ≠ Gt → String.compare s2 s3 ≠ Gt → String.compare s1 s3 ≠ Gt.
Proof.
  revert s2 s3. induction s1 as [|a s1 IH]; intros [|b s2] [|c s3]; simpl; try done.
  unfold Ascii.compare.
  destruct (N.compare_spec (N_of_ascii a) (N_of_ascii b)) as [Hab|Hab|Hab];
    destruct (N.compare_spec (N_of_ascii b) (N_of_ascii c)) as [Hbc|Hbc|Hbc];
    try done; intros H1 H2.
  - rewrite Hab, Hbc, N.compare_refl. by apply (IH s2).
  - rewrite Hab. by apply N.compare_lt_iff in Hbc as ->.
  - rewrite <- Hbc. by apply N.compare_lt_iff in Hab as ->.
  - assert (N_of_ascii a < N_of_ascii c)%N as Hac by (by etrans).
    by apply N.compare_lt_iff in Hac as ->.
Qed.

Lemma string_leb_trans (s1 s2 s3 : string) :
  String.leb s1 s2 → String.leb s2 s3 → String.leb s1 s3.
Proof.
  unfold String.leb. intros H1 H2.
  pose proof (string_compare_trans_le s1 s2 s3) as Ht.
  destruct (String.compare s1 s2), (String.compare s2 s3), (String.compare s1 s3);
    try done; by destruct Ht.
Qed.

Section SortValuesFacts.
Import TowerJump.

Lemma row_leb_total (a b : cdr) : row_leb a b ∨ row_leb b a.
Proof.
  unfold row_leb, Frame.lex_leb. cbn [fst snd].
  destruct (decide (imsi a = imsi b)) as [Hab|Hab].
  - rewrite decide_True by done. rewrite !Is_true_true, !Z.leb_le. lia.
  - rewrite decide_False by done. rewrite !Is_true_true. apply String.leb_total.
Qed.

Lemma row_leb_trans (a b c : cdr) : row_leb a b → row_leb b c → row_leb a c.
Proof.
  unfold row_leb, Frame.lex_leb. cbn [fst snd].
  destruct (decide (imsi a = imsi b)) as [Hab|Hab];
    destruct (decide (imsi b = imsi c)) as [Hbc|Hbc];
    destruct (decide (imsi a = imsi c)) as [Hac|Hac]; try congruence.
  - rewrite !Is_true_true, !Z.leb_le. lia.
  - intros H1 H2. destruct Hab. apply String.leb_antisym; [by apply Is_true_true|].
    rewrite Hac. by apply Is_true_true.
  - apply string_leb_trans.
Qed.

Lemma sort_values_StronglySorted (df : list cdr) :
  StronglySorted row_leb (sort_values df).
Proof. apply sort_by_StronglySorted; [apply row_leb_total | apply row_leb_trans]. Qed.

Lemma sort_values_Permutation (df : list cdr) : sort_values df ≡ₚ df.
Proof. apply sort_by_Permutation. Qed.

(** In the sorted frame the previous row of a row is the row just above
    it, and it is not later. *)
Lemma sorted_previous_adjacent (df : list cdr) (r p : cdr) :
  (r, Some p) ∈ with_previous (sort_values df) →
  (∃ l1 l3, sort_values df = l1 ++ p :: r :: l3)
  ∧ imsi p = imsi r ∧ start_time p ≤ start_time r.
Proof.
  intros (l1 & l2 & l3 & Hl & Hi & Hl2)%with_previous_Some.
  pose proof (sort_values_StronglySorted df) as Hs. rewrite Hl in Hs.
  apply StronglySorted_app_1_r in Hs. apply StronglySorted_inv in Hs as [_ Hp].
  assert (row_leb p r) as Hpr.
  { rewrite Forall_forall in Hp. apply Hp. apply elem_of_app. right. left. }
  split; [|split; [done|]].
  - destruct l2 as [|x l2]; [by exists l1, l3|]. exfalso.
    apply (Hl2 x); [left|].
    assert (row_leb p x) as Hpx by (rewrite Forall_forall in Hp; apply Hp; left).
    pose proof (sort_values_StronglySorted df) as Hs. rewrite Hl in Hs.
    apply StronglySorted_app_1_r, StronglySorted_inv in Hs as [Hs _].
    apply StronglySorted_inv in Hs as [_ Hx].
    assert (row_leb x r) as Hxr.
    { rewrite Forall_forall in Hx. apply Hx. apply elem_of_app. right. left. }
    unfold row_leb, Frame.lex_leb in Hpx, Hxr. cbn [fst snd] in Hpx, Hxr.
    destruct (decide (imsi x = imsi r)) as [|Hne]; [done|].
    destruct (decide (imsi p = imsi x)) as [Hpxi|Hpxi]; [congruence|].
    destruct Hpxi. apply String.leb_antisym; [by apply Is_true_true|].
    rewrite Hi. by apply Is_true_true.
  - unfold row_leb, Frame.lex_leb in Hpr. cbn [fst snd] in Hpr.
    rewrite decide_True in Hpr by done. by apply Is_true_true, Z.leb_le in Hpr.
Qed.

End SortValuesFacts.

(** C2. In the Tower-Jump detector, once the rows are sorted by imsi and
    start_time, each row is compared with the row just above it when
    that row has the same imsi; the transition is flagged exactly when
    the haversine distance is at least the distance parameter and the
    elapsed minutes lie between 0 and the time parameter; a transition
    with negative elapsed time is never flagged, whatever the distance;
    and the first row of an imsi, which has no previous row, is never
    flagged. *)
Theorem tower_jump_flag_rule (np : TowerJump.numpy) (df : list TowerJump.cdr)
    (max_dist_km max_time_min : Qc) :
  TowerJump.sort_values df ≡ₚ df ∧
  (∀ r p, (r, Some p) ∈ TowerJump.with_previous (TowerJump.sort_values df) ↔
     ∃ l1 l2, TowerJump.sort_values df = l1 ++ p :: r :: l2
              ∧ TowerJump.imsi p = TowerJump.imsi r) ∧
  (∀ r, (r, None) ∈ TowerJump.with_previous (TowerJump.sort_values df) ↔
     ∃ l1 l2, TowerJump.sort_values df = l1 ++ r :: l2
              ∧ ∀ x, x ∈ l1 → TowerJump.imsi x ≠ TowerJump.imsi r) ∧
  (∀ r p, TowerJump.mask np max_dist_km max_time_min (r, Some p) = true ↔
     (max_dist_km ≤ TowerJump.haversine_vectorized np
        (TowerJump.latitude p) (TowerJump.longitude p)
        (TowerJump.latitude r) (TowerJump.longitude r))%Qc
     ∧ (0 ≤ TowerJump.time_diff_min p r)%Qc
     ∧ (TowerJump.time_diff_min p r ≤ max_time_min)%Qc) ∧
  (∀ j, j ∈ TowerJump.analyze_logic np df max_dist_km max_time_min ↔
     ∃ r p, (r, Some p) ∈ TowerJump.with_previous (TowerJump.sort_values df)
       ∧ TowerJump.mask np max_dist_km max_time_min (r, Some p) = true
       ∧ j = TowerJump.to_jump np (r, Some p)) ∧
  (∀ r p, TowerJump.start_time r < TowerJump.start_time p →
     (TowerJump.time_diff_min p r < 0)%Qc
     ∧ TowerJump.mask np max_dist_km max_time_min (r, Some p) = false) ∧
  (∀ r, TowerJump.mask np max_dist_km max_time_min (r, None) = false) ∧
  (∀ j, j ∈ TowerJump.analyze_logic np df max_dist_km max_time_min →
     TowerJump.from_cell_id j ≠ None).
Proof.
  split; [apply sort_values_Permutation|].
  split.
  { intros r p. split.
    - intros Hin. by destruct (sorted_previous_adjacent df r p Hin) as [(l1 & l3 & ?) [? _]];
        exists l1, l3.
    - intros (l1 & l2 & Hl & Hi). apply with_previous_Some.
      exists l1, [], l2. split; [done|]. split; [done|]. by intros x ?%elem_of_nil. }
  split; [intros r; apply with_previous_None|].
  split; [intros r p; apply mask_Some|].
  split.
  { intros j. rewrite elem_of_tower_jumps. split.
    - intros (r & p & Hin & Hd & H0 & Ht & ->). exists r, p.
      split; [done|]. split; [|done]. by apply mask_Some.
    - intros (r & p & Hin & (Hd & H0 & Ht)%mask_Some & ->). by exists r, p. }
  split.
  { intros r p Hneg.
    assert (¬ (0 ≤ TowerJump.time_diff_min p r)%Qc) as Hnot
      by (rewrite time_diff_min_nonneg; lia).
    split; [by apply Qclt_nge|].
    apply not_true_is_false. by intros (_ & ? & _)%mask_Some. }
  split; [done|].
  intros j (r & p & _ & _ & _ & _ & ->)%elem_of_tower_jumps. done.
Qed.

(** A stand-in for numpy under which any two points are 100 km apart
    shows the time side of the rule: flagged one minute later, not
    flagged ten minutes later, not flagged when the later row in time is
    compared from the wrong side. *)
Example tower_jump_time_window :
  let np := TowerJump.mkNumpy id id id id (λ _ _, Q2Qc (50 # 6371)) in
  let a := TowerJump.mkCdr "I1" 0 (Qc_of_Z 12) (Qc_of_Z 77) "C1" in
  let b1 := TowerJump.mkCdr "I1" Frame.NS_PER_MINUTE (Qc_of_Z 13) (Qc_of_Z 77) "C2" in
  let b10 := TowerJump.mkCdr "I1" (10 * Frame.NS_PER_MINUTE) (Qc_of_Z 13) (Qc_of_Z 77) "C2" in
  TowerJump.mask np (Qc_of_Z 10) (Qc_of_Z 5) (b1, Some a) = true ∧
  TowerJump.mask np (Qc_of_Z 10) (Qc_of_Z 5) (b10, Some a) = false ∧
  TowerJump.mask np (Qc_of_Z 10) (Qc_of_Z 5) (a, Some b1) = false ∧
  length (TowerJump.analyze_logic np [b1; a] (Qc_of_Z 10) (Qc_of_Z 5)) = 1%nat ∧
  TowerJump.analyze_logic np [b10; a] (Qc_of_Z 10) (Qc_of_Z 5) = [].
Proof. repeat split; by vm_compute. Qed.

(** ** The record validator and the run *)

Section ValidatorFacts.
Import Columns.
Context {R : Type}.
Implicit Types df : DataFrame R.

Lemma elem_of_missing (required : list string) df (col : string) :
  col ∈ filter (λ c, c ∉ columns df) required ↔ col ∈ required ∧ col ∉ columns df.
Proof. rewrite list_elem_of_filter. tauto. Qed.

Lemma validate_input_complete (required : list string) df :
  filter (λ c, c ∉ columns df) required = [] → validate_input required df = inr df.
Proof. unfold validate_input. by intros ->. Qed.

Lemma validate_input_missing (required : list string) df :
  filter (λ c, c ∉ columns df) required ≠ [] →
  validate_input required df
  = inl (MissingColumns (filter (λ c, c ∉ columns df) required)).
Proof. unfold validate_input. by destruct (filter _ required). Qed.

Lemma dropna_complete (drop_null : list R → list R) (subset : list string) df :
  filter (λ c, c ∉ columns df) subset = [] →
  dropna drop_null subset df = inr (mkDataFrame (columns df) (drop_null (rows df))).
Proof. unfold dropna. by intros ->. Qed.

Lemma dropna_missing (drop_null : list R → list R) (subset : list string) df :
  filter (λ c, c ∉ columns df) subset ≠ [] →
  dropna drop_null subset df = inl (KeyError (filter (λ c, c ∉ columns df) subset)).
Proof. unfold dropna. by destruct (filter _ subset). Qed.

End ValidatorFacts.

(** C6. For any detector: when some required field is not a column of
    the normalized frame, [validate_input] fails with the missing fields,
    which are exactly the required fields that are not columns, and the
    run yields no findings: it is stopped by [validate_input], or, in
    the detectors whose [parse_cdr] drops null rows, it fails before on
    the same fields. When every required field is a column,
    [validate_input] returns the frame as it is and the run yields the
    findings of [analyze_logic]. *)
Theorem missing_columns_abort_run {R F : Type} (d : Columns.detector)
    (coerce : list string → list R → list R) (drop_null : list R → list R)
    (analyze_logic : Columns.DataFrame R → F) (df : Columns.DataFrame R) :
  let normalized := Columns.normalize_columns df (Columns.CDR_COLUMN_MAP d) in
  let missing :=
    filter (λ col, col ∉ Columns.columns normalized) (Columns.REQUIRED_COLUMNS d) in
  (∀ col, col ∈ missing ↔
     col ∈ Columns.REQUIRED_COLUMNS d ∧ col ∉ Columns.columns normalized) ∧
  (missing ≠ [] →
     Columns.validate_input (Columns.REQUIRED_COLUMNS d) normalized
       = inl (Columns.MissingColumns missing)
     ∧ Columns.run d coerce drop_null analyze_logic df
       = (if Columns.drops_null_rows d
          then Columns.Failed (Columns.KeyError missing)
          else Columns.Stopped missing)
     ∧ ∀ f, Columns.run d coerce drop_null analyze_logic df ≠ Columns.Findings f) ∧
  (missing = [] →
     Columns.validate_input (Columns.REQUIRED_COLUMNS d) normalized = inr normalized
     ∧ ∃ rows', Columns.run d coerce drop_null analyze_logic df
         = Columns.Findings
             (analyze_logic (Columns.mkDataFrame (Columns.columns normalized) rows'))).
Proof.
  intros normalized missing.
  split; [intros col; apply elem_of_missing|]. split.
  - intros Hmiss. split; [by apply validate_input_missing|].
    assert (Columns.run d coerce drop_null analyze_logic df
            = if Columns.drops_null_rows d
              then Columns.Failed (Columns.KeyError missing)
              else Columns.Stopped missing) as Hrun.
    { unfold Columns.run, Columns.parse_cdr. destruct (Columns.drops_null_rows d).
      - by rewrite dropna_missing.
      - by rewrite validate_input_missing. }
    split; [done|]. intros f. rewrite Hrun. by destruct (Columns.drops_null_rows d).
  - intros Hnone. split; [by apply validate_input_complete|].
    unfold Columns.run, Columns.parse_cdr. destruct (Columns.drops_null_rows d).
    + rewrite dropna_complete by done. rewrite validate_input_complete by done.
      by eexists.
    + rewrite validate_input_complete by done. by eexists.
Qed.

(** Without an imsi column the Call-Spikes run is stopped by the
    validator while the SIM-Swap run fails in [dropna]; neither yields
    findings. *)
Example run_without_required_column :
  let df := Columns.mkDataFrame ["Caller"; "callee"; "Call Time"; "IMEI"; "imsi "] [()] in
  Columns.run CallSpikes.config (λ _, id) id (λ _, ()) df
    = Columns.Stopped ["call_direction"] ∧
  Columns.run SimSwap.config (λ _, id) id (λ _, ()) df = Columns.Findings () ∧
  Columns.run SimSwap.config (λ _, id) id (λ _, ())
      (Columns.mkDataFrame ["Caller"; "callee"; "Call Time"] [()])
    = Columns.Failed (Columns.KeyError ["imsi"; "imei"]).
Proof. repeat split; by vm_compute. Qed.

(** ** The schema normalizer *)

Section NormalizerFacts.
Import Columns.
Implicit Types cols : list string.
Implicit Types M : list (string * list string).

Lemma df_cols_snoc cols (c : string) :
  df_cols (cols ++ [c]) = <[norm_key c := c]> (df_cols cols).
Proof. unfold df_cols. by rewrite foldl_app. Qed.

(** [df_cols] maps a key to the last column that has it. *)
Lemma df_cols_Some cols (k c : string) :
  df_cols cols !! k = Some c ↔
  ∃ l1 l2, cols = l1 ++ c :: l2 ∧ norm_key c = k ∧ ∀ x, x ∈ l2 → norm_key x ≠ k.
Proof.
  induction cols as [|y cols IH] using rev_ind.
  - unfold df_cols. simpl. rewrite lookup_empty. split; [done|].
    intros (l1 & l2 & Hl & _). by destruct l1.
  - rewrite df_cols_snoc. destruct (decide (norm_key y = k)) as [Hy|Hy].
    + rewrite Hy, lookup_insert_eq. split.
      * intros [= ->]. exists cols, []. split; [done|]. split; [done|].
        by intros x ?%elem_of_nil.
      * intros (l1 & l2 & Hl & Hc & Hl2).
        destruct l2 as [|z l2 _] using rev_ind.
        { apply app_inj_tail in Hl as [_ ->]. done. }
        rewrite app_comm_cons, app_assoc in Hl. apply app_inj_tail in Hl as [_ ->].
        destruct (Hl2 z); [|done]. apply elem_of_app. right. left.
    + rewrite lookup_insert_ne by done. rewrite IH. split.
      * intros (l1 & l2 & -> & Hc & Hl2). exists l1, (l2 ++ [y]).
        split; [by rewrite <- app_assoc|]. split; [done|].
        intros x [Hx|Hx%list_elem_of_singleton]%elem_of_app; [by apply Hl2 | by subst].
      * intros (l1 & l2 & Hl & Hc & Hl2).
        destruct l2 as [|z l2 _] using rev_ind.
        { apply app_inj_tail in Hl as [_ ->]. done. }
        rewrite app_comm_cons, app_assoc in Hl. apply app_inj_tail in Hl as [-> ->].
        exists l1, l2. split; [done|]. split; [done|].
        intros x Hx. apply Hl2. apply elem_of_app. by left.
Qed.

Lemma df_cols_None cols (k : string) :
  df_cols cols !! k = None ↔ ∀ x, x ∈ cols → norm_key x ≠ k.
Proof.
  induction cols as [|y cols IH] using rev_ind.
  - unfold df_cols. simpl. rewrite lookup_empty. split; [|done].
    by intros _ x ?%elem_of_nil.
  - rewrite df_cols_snoc. destruct (decide (norm_key y = k)) as [Hy|Hy].
    + rewrite Hy, lookup_insert_eq. split; [done|]. intros Hall.
      destruct (Hall y); [|done]. apply elem_of_app. right. left.
    + rewrite lookup_insert_ne by done. rewrite IH. split.
      * intros Hall x [Hx|Hx%list_elem_of_singleton]%elem_of_app; [by apply Hall | by subst].
      * intros Hall x Hx. apply Hall, elem_of_app. by left.
Qed.

Lemma df_cols_elem_of cols (k c : string) :
  df_cols cols !! k = Some c → c ∈ cols ∧ norm_key c = k.
Proof.
  intros (l1 & l2 & -> & Hk & _)%df_cols_Some. split; [|done].
  apply elem_of_app. right. left.
Qed.

Lemma first_variant_Some (dc : gmap string string) (variants : list string) (c : string) :
  first_variant dc variants = Some c →
  ∃ v, v ∈ variants ∧ dc !! norm_key v = Some c.
Proof.
  induction variants as [|v vs IH]; simpl; [done|].
  destruct (dc !! norm_key v) as [c'|] eqn:Hv.
  - intros [= ->]. exists v. split; [left|done].
  - intros (u & Hu & Hc)%IH. exists u. split; [by right|done].
Qed.

Lemma first_variant_None (dc : gmap string string) (variants : list string) :
  first_variant dc variants = None ↔ ∀ v, v ∈ variants → dc !! norm_key v = None.
Proof.
  induction variants as [|v vs IH]; simpl.
  - split; [|done]. by intros _ v ?%elem_of_nil.
  - destruct (dc !! norm_key v) as [c'|] eqn:Hv.
    + split; [done|]. intros Hall. specialize (Hall v). rewrite Hv in Hall.
      by discriminate Hall; left.
    + rewrite IH. split.
      * intros Hall u [->|Hu]%elem_of_cons; [done | by apply Hall].
      * intros Hall u Hu. apply Hall. by right.
Qed.

Lemma first_variant_head (dc : gmap string string) (v : string)
    (rest : list string) (c : string) :
  dc !! norm_key v = Some c → first_variant dc (v :: rest) = Some c.
Proof. simpl. by intros ->. Qed.

Lemma col_rename_snoc cols M (entry : string * list string) :
  col_rename cols (M ++ [entry])
  = match first_variant (df_cols cols) entry.2 with
    | Some col => <[col := entry.1]> (col_rename cols M)
    | None => col_rename cols M
    end.
Proof. unfold col_rename. by rewrite foldl_app. Qed.

Lemma col_rename_Some cols M (c std : string) :
  col_rename cols M !! c = Some std →
  ∃ variants, (std, variants) ∈ M ∧ first_variant (df_cols cols) variants = Some c.
Proof.
  induction M as [|[s vs] M IH] using rev_ind.
  - unfold col_rename. simpl. by rewrite lookup_empty.
  - rewrite col_rename_snoc. cbn [fst snd].
    destruct (first_variant (df_cols cols) vs) as [c'|] eqn:Hfv.
    + destruct (decide (c' = c)) as [->|Hne].
      * rewrite lookup_insert_eq. intros [= ->]. exists vs. split; [|done].
        apply elem_of_app. right. left.
      * rewrite lookup_insert_ne by done. intros (vs' & Hin & Hfv')%IH.
        exists vs'. split; [|done]. apply elem_of_app. by left.
    + intros (vs' & Hin & Hfv')%IH. exists vs'. split; [|done].
      apply elem_of_app. by left.
Qed.

Lemma col_rename_intro cols M (c std : string) (variants : list string) :
  (std, variants) ∈ M → first_variant (df_cols cols) variants = Some c →
  (∀ s vs, (s, vs) ∈ M → first_variant (df_cols cols) vs = Some c → s = std) →
  col_rename cols M !! c = Some std.
Proof.
  induction M as [|[s vs] M IH] using rev_ind; [by intros ?%elem_of_nil|].
  intros Hin Hfv Huniq. rewrite col_rename_snoc. cbn [fst snd].
  assert (∀ s' vs', (s', vs') ∈ M → first_variant (df_cols cols) vs' = Some c → s' = std)
    as Huniq'.
  { intros s' vs' Hin'. apply Huniq, elem_of_app. by left. }
  destruct (first_variant (df_cols cols) vs) as [c'|] eqn:Hfv'.
  - destruct (decide (c' = c)) as [->|Hne].
    + rewrite lookup_insert_eq. f_equal. apply (Huniq s vs); [|done].
      apply elem_of_app. right. left.
    + rewrite lookup_insert_ne by done. apply IH; [|done..].
      apply elem_of_app in Hin as [Hin|[= -> ->]%list_elem_of_singleton]; [done|].
      congruence.
  - apply IH; [|done..].
    apply elem_of_app in Hin as [Hin|[= -> ->]%list_elem_of_singleton]; [done|].
    congruence.
Qed.

(** *** Well-formed column maps *)

Lemma keys_disjoint_same_entry M (e e' : string * list string) (k : string) :
  keys_disjoint M → e ∈ M → e' ∈ M →
  k ∈ entry_keys e → k ∈ entry_keys e' → e = e'.
Proof.
  induction M as [|e0 M IH]; [by intros _ ?%elem_of_nil|].
  simpl. intros [Hhead Htail]%andb_True.
  apply Is_true_true in Hhead. rewrite forallb_forall in Hhead.
  assert (∀ a b, a ∈ M → k ∈ entry_keys e0 → k ∈ entry_keys a → b) as Hclash.
  { intros a b Ha Hk0 Hka.
    specialize (Hhead a (proj1 (list_elem_of_In _ _) Ha)).
    rewrite forallb_forall in Hhead.
    specialize (Hhead k (proj1 (list_elem_of_In _ _) Hk0)).
    by apply bool_decide_eq_true in Hhead. }
  intros [->|He]%elem_of_cons [->|He']%elem_of_cons Hk Hk'.
  - done.
  - by apply (Hclash e').
  - by apply (Hclash e).
  - by apply IH.
Qed.

Lemma well_formed_same_entry M (s s' : string) (vs vs' : list string) (v v' : string) :
  well_formed_map M → (s, vs) ∈ M → (s', vs') ∈ M →
  v ∈ vs → v' ∈ vs' → norm_key v = norm_key v' → s = s' ∧ vs = vs'.
Proof.
  intros [_ Hdis]%andb_True Hin Hin' Hv Hv' Hk.
  assert ((s, vs) = (s', vs')) as [= -> ->]; [|done].
  apply (keys_disjoint_same_entry M _ _ (norm_key v)); [done..| |].
  - unfold entry_keys. apply list_elem_of_fmap. by exists v.
  - unfold entry_keys. rewrite Hk. apply list_elem_of_fmap. by exists v'.
Qed.

Lemma well_formed_head M (s : string) (vs : list string) :
  well_formed_map M → (s, vs) ∈ M →
  ∃ v rest, vs = v :: rest ∧ norm_key v = norm_key s.
Proof.
  intros [Hcan _]%andb_True Hin. apply Is_true_true in Hcan.
  rewrite forallb_forall in Hcan.
  specialize (Hcan (s, vs) (proj1 (list_elem_of_In _ _) Hin)).
  apply bool_decide_eq_true in Hcan. unfold entry_keys in Hcan. cbn in Hcan.
  destruct vs as [|v rest]; [done|]. injection Hcan as Hv. by exists v, rest.
Qed.

End NormalizerFacts.

Section IdempotenceFacts.
Import Columns.
Implicit Types cols : list string.
Implicit Types M : list (string * list string).

Lemma elem_of_rename (m : gmap string string) cols (c' : string) :
  c' ∈ rename m cols ↔ ∃ x, x ∈ cols ∧ c' = default x (m !! x).
Proof. unfold rename. rewrite list_elem_of_fmap. naive_solver. Qed.

Lemma rename_fixed (m : gmap string string) cols :
  (∀ c s, c ∈ cols → m !! c = Some s → c = s) → rename m cols = cols.
Proof.
  intros Hfix. unfold rename. rewrite <- (list_fmap_id cols) at 2.
  apply Forall_fmap_ext, Forall_forall. intros c Hc. simpl.
  destruct (m !! c) as [s|] eqn:Hs; [|done]. simpl. symmetry. by apply (Hfix c s).
Qed.

(** A column renamed in the first pass carries the name of the one
    field whose variants hold its key. *)
Lemma first_pass_target cols M (x s : string) :
  well_formed_map M → col_rename cols M !! x = Some s →
  ∃ vs v, (s, vs) ∈ M ∧ v ∈ vs ∧ norm_key v = norm_key x
          ∧ first_variant (df_cols cols) vs = Some x.
Proof.
  intros Hwf (vs & Hin & Hfv)%col_rename_Some.
  destruct (first_variant_Some _ _ _ Hfv) as (v & Hv & Hdc).
  apply df_cols_elem_of in Hdc as [_ Hk]. by exists vs, v.
Qed.

(** A field that finds a column in the first pass renames it to its own
    name. *)
Lemma first_pass_renames cols M (s : string) (vs : list string) (c0 : string) :
  well_formed_map M → (s, vs) ∈ M → first_variant (df_cols cols) vs = Some c0 →
  col_rename cols M !! c0 = Some s.
Proof.
  intros Hwf Hin Hfv. apply (col_rename_intro cols M c0 s vs); [done..|].
  intros s' vs' Hin' Hfv'.
  destruct (first_variant_Some _ _ _ Hfv) as (u & Hu & [_ Hku]%df_cols_elem_of).
  destruct (first_variant_Some _ _ _ Hfv') as (u' & Hu' & [_ Hku']%df_cols_elem_of).
  destruct (well_formed_same_entry M s' s vs' vs u' u Hwf Hin' Hin Hu' Hu) as [-> _];
    [congruence | done].
Qed.

(** What the second pass finds for a field that found a column in the
    first pass is the column now named after the field. *)
Lemma second_pass_finds_own_name cols M (s : string) (vs : list string) (c0 : string) :
  well_formed_map M → (s, vs) ∈ M → first_variant (df_cols cols) vs = Some c0 →
  first_variant (df_cols (rename (col_rename cols M) cols)) vs = Some s.
Proof.
  intros Hwf Hin Hfv.
  destruct (well_formed_head M s vs Hwf Hin) as (v1 & rest & -> & Hk1).
  apply first_variant_head. rewrite Hk1.
  destruct (first_variant_Some _ _ _ Hfv) as (u & Hu & Hdc).
  pose proof Hdc as (l1 & l2 & Hcols & Hku & Hl2)%df_cols_Some.
  apply df_cols_Some. exists (rename (col_rename cols M) l1), (rename (col_rename cols M) l2).
  split; [|split; [done|]].
  - rewrite Hcols at 2. unfold rename. rewrite fmap_app, fmap_cons.
    by rewrite (first_pass_renames cols M s (v1 :: rest) c0).
  - intros y (z & Hz & ->)%elem_of_rename Hky.
    destruct (col_rename cols M !! z) as [s''|] eqn:Hz''; simpl in Hky.
    + destruct (first_pass_target cols M z s'' Hwf Hz'') as (vs'' & v'' & Hin'' & Hv'' & Hkv'' & Hfv'').
      destruct (well_formed_head M s'' vs'' Hwf Hin'') as (w1 & rest'' & -> & Hkw).
      destruct (well_formed_same_entry M s'' s (w1 :: rest'') (v1 :: rest) w1 v1 Hwf Hin'' Hin)
        as [-> Heq]; [left | left | congruence |].
      rewrite Heq in Hfv''. rewrite Hfv in Hfv''. injection Hfv'' as <-.
      by apply (Hl2 c0).
    + assert (df_cols cols !! norm_key v1 = Some c0) as Hv1.
      { destruct (df_cols cols !! norm_key v1) as [c1|] eqn:Hc1.
        - simpl in Hfv. rewrite Hc1 in Hfv. done.
        - rewrite df_cols_None in Hc1. destruct (Hc1 z); [|congruence].
          rewrite Hcols. apply elem_of_app. right. by right. }
      apply df_cols_elem_of in Hv1 as [_ Hkc0].
      apply (Hl2 z Hz). congruence.
Qed.

Lemma second_pass_stable cols M (c' std : string) :
  well_formed_map M →
  c' ∈ rename (col_rename cols M) cols →
  col_rename (rename (col_rename cols M) cols) M !! c' = Some std → c' = std.
Proof.
  intros Hwf (x & Hx & Hc')%elem_of_rename (vs & Hin & Hfv')%col_rename_Some.
  destruct (well_formed_head M std vs Hwf Hin) as (v1 & rest & Hvs & Hk1).
  destruct (first_variant_Some _ _ _ Hfv') as (v & Hv & [_ Hkv]%df_cols_elem_of).
  assert (∃ c0, first_variant (df_cols cols) vs = Some c0) as [c0 Hfv].
  { destruct (col_rename cols M !! x) as [s'|] eqn:Hs'; simpl in Hc'; subst c'.
    - destruct (first_pass_target cols M x s' Hwf Hs')
        as (vs' & v' & Hin' & Hv' & Hkv' & Hfvx).
      destruct (well_formed_head M s' vs' Hwf Hin') as (w1 & rest' & -> & Hkw).
      destruct (well_formed_same_entry M s' std (w1 :: rest') vs w1 v Hwf Hin' Hin)
        as [-> <-]; [left | done | congruence |]. by exists x.
    - destruct (first_variant (df_cols cols) vs) as [c0|] eqn:Hnone; [by exists c0|].
      rewrite first_variant_None in Hnone. specialize (Hnone v Hv).
      rewrite df_cols_None in Hnone. by destruct (Hnone x Hx). }
  rewrite (second_pass_finds_own_name cols M std vs c0 Hwf Hin Hfv) in Hfv'.
  by injection Hfv'.
Qed.

Lemma rename_idempotent cols M :
  well_formed_map M →
  rename (col_rename (rename (col_rename cols M) cols) M) (rename (col_rename cols M) cols)
  = rename (col_rename cols M) cols.
Proof.
  intros Hwf. apply rename_fixed. intros c s Hc Hs.
  by apply (second_pass_stable cols M c s).
Qed.

(** Columns that already carry canonical names are left as they are. *)
Lemma rename_canonical cols M :
  well_formed_map M → (∀ c, c ∈ cols → c ∈ M.*1) →
  rename (col_rename cols M) cols = cols.
Proof.
  intros Hwf Hcan. apply rename_fixed. intros c s Hc Hs.
  destruct (first_pass_target cols M c s Hwf Hs) as (vs & v & Hin & Hv & Hkv & _).
  specialize (Hcan c Hc). apply list_elem_of_fmap in Hcan as ([c0 vs0] & -> & Hin0).
  cbn [fst] in *.
  destruct (well_formed_head M c0 vs0 Hwf Hin0) as (w1 & rest & -> & Hkw).
  destruct (well_formed_same_entry M c0 s (w1 :: rest) vs w1 v Hwf Hin0 Hin)
    as [-> _]; [left | done | congruence | done].
Qed.

Lemma column_maps_well_formed M : M ∈ Spec.column_maps → well_formed_map M.
Proof.
  unfold Spec.column_maps. rewrite !elem_of_cons, elem_of_nil.
  intros [->|[->|[->|[->|[->|[]]]]]]; by vm_compute.
Qed.

End IdempotenceFacts.

(** C9. Normalizing with a column map of the repository is idempotent:
    a frame that has been normalized is left unchanged, labels and rows,
    by a second normalization with the same map; and so is any frame
    whose columns all carry canonical names. *)
Theorem normalize_columns_idempotent {R : Type} (df : Columns.DataFrame R)
    (column_map : list (string * list string)) :
  column_map ∈ Spec.column_maps →
  Columns.normalize_columns (Columns.normalize_columns df column_map) column_map
    = Columns.normalize_columns df column_map
  ∧ ((∀ c, c ∈ Columns.columns df → c ∈ column_map.*1) →
     Columns.normalize_columns df column_map = df).
Proof.
  intros Hwf%column_maps_well_formed. unfold Columns.normalize_columns. cbn. split.
  - f_equal. by apply rename_idempotent.
  - intros Hcan. destruct df as [cols rs]. cbn in *. f_equal.
    by apply rename_canonical.
Qed.

(** C9 on a frame with synonym columns, under the Call_Spikes map. *)
Lemma normalize_columns_idempotent_witness :
  let df := Columns.mkDataFrame
              ["Caller"; "caller"; "Dest Number"; "TIMESTAMP"; "type"; "cell"]
              [["900"; "901"; "100"; "2024-01-01"; "MO"; "7"]] in
  Columns.normalize_columns (Columns.normalize_columns df CallSpikes.CDR_COLUMN_MAP)
    CallSpikes.CDR_COLUMN_MAP
  = Columns.normalize_columns df CallSpikes.CDR_COLUMN_MAP.
Proof.
  apply (normalize_columns_idempotent
           (Columns.mkDataFrame
              ["Caller"; "caller"; "Dest Number"; "TIMESTAMP"; "type"; "cell"]
              [["900"; "901"; "100"; "2024-01-01"; "MO"; "7"]])
           CallSpikes.CDR_COLUMN_MAP).
  unfold Spec.column_maps. left.
Defined.

Example normalize_columns_rename :
  Columns.columns
    (Columns.normalize_columns
       (Columns.mkDataFrame ["Caller"; "caller"; "Dest Number"; "TIMESTAMP"; "type"; "cell"]
          ([] : list unit))
       CallSpikes.CDR_COLUMN_MAP)
  = ["Caller"; "calling_number"; "called_number"; "start_time"; "call_direction"; "cell"].
Proof. by vm_compute. Qed.

(** * Further properties of the engine *)

(** ** Matching keys *)

Lemma lower_upper_ascii (c : ascii) :
  PyStr.lower_ascii (PyStr.upper_ascii c) = PyStr.lower_ascii c.
Proof. by destruct c as [[] [] [] [] [] [] [] []]. Qed.

Lemma lower_ascii_idemp (c : ascii) :
  PyStr.lower_ascii (PyStr.lower_ascii c) = PyStr.lower_ascii c.
Proof. by destruct c as [[] [] [] [] [] [] [] []]. Qed.

Lemma lower_ascii_separator (sep c : ascii) :
  sep = " "%char ∨ sep = "_"%char →
  Ascii.eqb sep (PyStr.lower_ascii c) = Ascii.eqb sep c.
Proof. intros [->| ->]; by destruct c as [[] [] [] [] [] [] [] []]. Qed.

Lemma lower_ascii_of_separator (sep : ascii) :
  sep = " "%char ∨ sep = "_"%char → PyStr.lower_ascii sep = sep.
Proof. by intros [->| ->]. Qed.

Lemma map_str_append (f : ascii → ascii) (s1 s2 : string) :
  PyStr.map_str f (s1 ++ s2)%string
  = (PyStr.map_str f s1 ++ PyStr.map_str f s2)%string.
Proof. induction s1 as [|c s1 IH]; simpl; [done|]. by rewrite IH. Qed.

Lemma remove_char_append (c : ascii) (s1 s2 : string) :
  PyStr.remove_char c (s1 ++ s2)%string
  = (PyStr.remove_char c s1 ++ PyStr.remove_char c s2)%string.
Proof.
  induction s1 as [|d s1 IH]; simpl; [done|].
  destruct (Ascii.eqb c d); simpl; by rewrite IH.
Qed.

Lemma remove_char_idemp (c : ascii) (s : string) :
  PyStr.remove_char c (PyStr.remove_char c s) = PyStr.remove_char c s.
Proof.
  induction s as [|d s IH]; simpl; [done|].
  destruct (Ascii.eqb c d) eqn:Hcd; simpl; [done|]. by rewrite Hcd, IH.
Qed.

Lemma remove_char_comm (c d : ascii) (s : string) :
  PyStr.remove_char c (PyStr.remove_char d s)
  = PyStr.remove_char d (PyStr.remove_char c s).
Proof.
  induction s as [|e s IH]; simpl; [done|].
  destruct (Ascii.eqb d e) eqn:Hde, (Ascii.eqb c e) eqn:Hce; simpl;
    rewrite ?Hde, ?Hce, ?IH; done.
Qed.

Lemma remove_char_lower (sep : ascii) (s : string) :
  sep = " "%char ∨ sep = "_"%char →
  PyStr.remove_char sep (PyStr.lower s) = PyStr.lower (PyStr.remove_char sep s).
Proof.
  intros Hsep. unfold PyStr.lower. induction s as [|c s IH]; simpl; [done|].
  rewrite lower_ascii_separator by done.
  destruct (Ascii.eqb sep c); simpl; by rewrite IH.
Qed.

Lemma lower_idemp (s : string) : PyStr.lower (PyStr.lower s) = PyStr.lower s.
Proof.
  unfold PyStr.lower. induction s as [|c s IH]; simpl; [done|].
  by rewrite lower_ascii_idemp, IH.
Qed.

Lemma lower_upper (s : string) : PyStr.lower (PyStr.upper s) = PyStr.lower s.
Proof.
  unfold PyStr.lower, PyStr.upper. induction s as [|c s IH]; simpl; [done|].
  by rewrite lower_upper_ascii, IH.
Qed.

Lemma norm_key_append (s1 s2 : string) :
  Columns.norm_key (s1 ++ s2)%string
  = (Columns.norm_key s1 ++ Columns.norm_key s2)%string.
Proof.
  unfold Columns.norm_key, PyStr.lower.
  by rewrite map_str_append, !remove_char_append.
Qed.

Lemma norm_key_alt (s : string) :
  Columns.norm_key s
  = PyStr.lower (PyStr.remove_char "_"%char (PyStr.remove_char " "%char s)).
Proof.
  unfold Columns.norm_key.
  rewrite (remove_char_lower " "%char) by (by left).
  by rewrite (remove_char_lower "_"%char) by (by right).
Qed.

(** X1. The matching key of a label does not depend on letter case,
    spaces or underscores: upper- or lower-casing the label, or writing a
    space or an underscore (or nothing) between two parts of it, gives the
    same key; and a key is its own key. *)
Theorem norm_key_insensitive (s s1 s2 : string) :
  Columns.norm_key (PyStr.upper s) = Columns.norm_key s ∧
  Columns.norm_key (PyStr.lower s) = Columns.norm_key s ∧
  Columns.norm_key (s1 ++ " " ++ s2)%string = Columns.norm_key (s1 ++ s2)%string ∧
  Columns.norm_key (s1 ++ "_" ++ s2)%string = Columns.norm_key (s1 ++ s2)%string ∧
  Columns.norm_key (Columns.norm_key s) = Columns.norm_key s.
Proof.
  split; [by unfold Columns.norm_key; rewrite lower_upper|].
  split; [by unfold Columns.norm_key; rewrite lower_idemp|].
  split; [by rewrite !norm_key_append|].
  split; [by rewrite !norm_key_append|].
  rewrite (norm_key_alt s), norm_key_alt.
  rewrite (remove_char_lower " "%char) by (by left).
  rewrite (remove_char_lower "_"%char) by (by right).
  rewrite lower_idemp. f_equal.
  by rewrite (remove_char_comm " "%char "_"%char), !remove_char_idemp.
Qed.

(** ** What the normalizer does to each column *)

Section NormalizerPositions.
Import Columns.
Implicit Types cols : list string.
Implicit Types M : list (string * list string).

Lemma renamed_column_matches cols M (c s : string) :
  col_rename cols M !! c = Some s →
  ∃ vs, (s, vs) ∈ M ∧ Detectors.matches vs c.
Proof.
  intros (vs & Hin & Hfv)%col_rename_Some. exists vs. split; [done|].
  destruct (first_variant_Some _ _ _ Hfv) as (v & Hv & [_ Hk]%df_cols_elem_of).
  by exists v.
Qed.

Lemma matched_field_finds cols M (vs : list string) (c : string) :
  c ∈ cols → Detectors.matches vs c →
  ∃ c0, first_variant (df_cols cols) vs = Some c0 ∧ c0 ∈ cols.
Proof.
  intros Hc (v & Hv & Hk).
  destruct (first_variant (df_cols cols) vs) as [c0|] eqn:Hfv.
  - exists c0. split; [done|].
    by destruct (first_variant_Some _ _ _ Hfv) as (u & _ & [? _]%df_cols_elem_of).
  - rewrite first_variant_None in Hfv. specialize (Hfv v Hv).
    rewrite df_cols_None in Hfv. by destruct (Hfv c Hc).
Qed.

(** With a well-formed map, a field name is a column of the result
    exactly when some column of the input matches the field. *)
Lemma field_present_iff cols M (s : string) (vs : list string) :
  well_formed_map M → (s, vs) ∈ M →
  s ∈ rename (col_rename cols M) cols ↔ ∃ c, c ∈ cols ∧ Detectors.matches vs c.
Proof.
  intros Hwf Hin. rewrite elem_of_rename. split.
  - intros (x & Hx & Hs). exists x. split; [done|].
    destruct (well_formed_head M s vs Hwf Hin) as (v1 & rest & -> & Hk1).
    destruct (col_rename cols M !! x) as [s'|] eqn:Hs'; simpl in Hs; subst.
    + destruct (first_pass_target cols M x s' Hwf Hs')
        as (vs' & v' & Hin' & Hv' & Hkv' & _).
      destruct (well_formed_head M s' vs' Hwf Hin') as (w1 & rest' & -> & Hkw).
      destruct (well_formed_same_entry M s' s' (w1 :: rest') (v1 :: rest) w1 v1
                  Hwf Hin' Hin) as [_ Heq]; [left | left | congruence |].
      exists v'. split; [by rewrite <- Heq | done].
    + exists v1. split; [left | done].
  - intros (c & Hc & Hm).
    destruct (matched_field_finds cols M vs c Hc Hm) as (c0 & Hfv & Hc0).
    exists c0. split; [done|].
    by rewrite (first_pass_renames cols M s vs c0).
Qed.

Lemma validate_input_inr_iff {R : Type} (required : list string) (df : DataFrame R) :
  validate_input required df = inr df ↔ ∀ s, s ∈ required → s ∈ columns df.
Proof.
  unfold validate_input. split.
  - destruct (filter _ required) as [|m ms] eqn:Hf; [|done]. intros _ s Hs.
    destruct (decide (s ∈ columns df)) as [|Hn]; [done|].
    assert (s ∈ filter (λ col, col ∉ columns df) required) as Hin
      by (by apply list_elem_of_filter).
    rewrite Hf in Hin. by apply elem_of_nil in Hin.
  - intros Hall. rewrite filter_none; [done|]. intros s Hs Hn. by apply Hn, Hall.
Qed.

Lemma detectors_well_formed (d : detector) :
  d ∈ Detectors.all →
  well_formed_map (CDR_COLUMN_MAP d)
  ∧ ∀ s, s ∈ REQUIRED_COLUMNS d → s ∈ (CDR_COLUMN_MAP d).*1.
Proof.
  unfold Detectors.all. rewrite !elem_of_cons, elem_of_nil.
  intros [->|[->|[->|[->|[->|[]]]]]]; (split; [by vm_compute|]);
    apply Forall_forall, (bool_decide_unpack _); by vm_compute.
Qed.

End NormalizerPositions.

(** X2. Normalization renames in place: the rows and the number of
    columns are kept, a column keeps its position, and its new label is
    either its old label or the name of a field that the old label
    matches; a column that matches no field of the map keeps its label. *)
Theorem normalize_columns_in_place {R : Type} (df : Columns.DataFrame R)
    (column_map : list (string * list string)) :
  Columns.rows (Columns.normalize_columns df column_map) = Columns.rows df ∧
  length (Columns.columns (Columns.normalize_columns df column_map))
    = length (Columns.columns df) ∧
  (∀ i c, Columns.columns df !! i = Some c →
     ∃ c', Columns.columns (Columns.normalize_columns df column_map) !! i = Some c'
       ∧ (c' = c ∨ ∃ vs, (c', vs) ∈ column_map ∧ Detectors.matches vs c)) ∧
  (∀ i c, Columns.columns df !! i = Some c →
     (∀ s vs, (s, vs) ∈ column_map → ¬ Detectors.matches vs c) →
     Columns.columns (Columns.normalize_columns df column_map) !! i = Some c).
Proof.
  unfold Columns.normalize_columns, Columns.rename. cbn.
  split; [done|]. split; [by rewrite length_fmap|]. split.
  - intros i c Hi. rewrite list_lookup_fmap, Hi. cbn.
    destruct (Columns.col_rename _ _ !! c) as [s|] eqn:Hs; cbn.
    + exists s. split; [done|]. right. exact (renamed_column_matches _ _ c s Hs).
    + exists c. split; [done|by left].
  - intros i c Hi Hnone. rewrite list_lookup_fmap, Hi. cbn.
    destruct (Columns.col_rename _ _ !! c) as [s|] eqn:Hs; cbn; [|done].
    destruct (renamed_column_matches _ _ c s Hs) as (vs & Hin & Hm).
    by destruct (Hnone s vs Hin).
Qed.

(** X3. For each of the five detectors: after normalization a field of
    the column map is a column exactly when some column of the loaded file
    matches one of the field's variants, and [validate_input] accepts the
    normalized frame exactly when every required field is matched so. *)
Theorem validate_input_after_normalize {R : Type} (d : Columns.detector)
    (df : Columns.DataFrame R) :
  d ∈ Detectors.all →
  (∀ s vs, (s, vs) ∈ Columns.CDR_COLUMN_MAP d →
     (s ∈ Columns.columns (Columns.normalize_columns df (Columns.CDR_COLUMN_MAP d))
      ↔ ∃ c, c ∈ Columns.columns df ∧ Detectors.matches vs c)) ∧
  (Columns.validate_input (Columns.REQUIRED_COLUMNS d)
     (Columns.normalize_columns df (Columns.CDR_COLUMN_MAP d))
   = inr (Columns.normalize_columns df (Columns.CDR_COLUMN_MAP d))
   ↔ ∀ s, s ∈ Columns.REQUIRED_COLUMNS d →
       ∃ vs c, (s, vs) ∈ Columns.CDR_COLUMN_MAP d
               ∧ c ∈ Columns.columns df ∧ Detectors.matches vs c).
Proof.
  intros [Hwf Hreq]%detectors_well_formed.
  assert (∀ s vs, (s, vs) ∈ Columns.CDR_COLUMN_MAP d →
     (s ∈ Columns.columns (Columns.normalize_columns df (Columns.CDR_COLUMN_MAP d))
      ↔ ∃ c, c ∈ Columns.columns df ∧ Detectors.matches vs c)) as Hfield.
  { intros s vs Hin. by apply field_present_iff. }
  split; [done|]. rewrite validate_input_inr_iff. split.
  - intros Hall s Hs. specialize (Hall s Hs).
    destruct (proj1 (list_elem_of_fmap _ _ _) (Hreq s Hs)) as ([s' vs] & -> & Hin).
    cbn in *. apply (Hfield _ vs Hin) in Hall as (c & Hc & Hm). by exists vs, c.
  - intros Hall s Hs. destruct (Hall s Hs) as (vs & c & Hin & Hc & Hm).
    apply (Hfield s vs Hin). by exists c.
Qed.

(** X3 on a file whose headers are synonyms in mixed case. *)
Lemma validate_input_after_normalize_witness :
  Columns.validate_input SimSwap.REQUIRED_COLUMNS
    (Columns.normalize_columns
       (Columns.mkDataFrame ["Sim ID"; "DEVICE_ID"; "a party"; "B_Party"; "Call Time"]
          [()]) SimSwap.CDR_COLUMN_MAP)
  = inr (Columns.normalize_columns
       (Columns.mkDataFrame ["Sim ID"; "DEVICE_ID"; "a party"; "B_Party"; "Call Time"]
          [()]) SimSwap.CDR_COLUMN_MAP).
Proof.
  apply (validate_input_after_normalize SimSwap.config
           (Columns.mkDataFrame ["Sim ID"; "DEVICE_ID"; "a party"; "B_Party"; "Call Time"]
              [()])).
  - unfold Detectors.all. do 3 right. left.
  - intros s Hs. cbn in Hs. unfold SimSwap.REQUIRED_COLUMNS in Hs.
    repeat (apply elem_of_cons in Hs as [->|Hs]); [..|by apply elem_of_nil in Hs].
    + exists ["imsi"; "subscriber_id"; "sim_id"], "Sim ID".
      split; [by left|]. split; [by left|]. exists "sim_id". split; [by do 2 right; left|done].
    + exists ["imei"; "device_id"; "serial_number"], "DEVICE_ID".
      split; [by right; left|]. split; [by right; left|].
      exists "device_id". split; [by right; left|done].
    + exists ["calling_number"; "caller"; "source_number"; "a_party"], "a party".
      split; [by do 2 right; left|]. split; [by do 2 right; left|].
      exists "a_party". split; [by do 3 right; left|done].
    + exists ["called_number"; "callee"; "dest_number"; "b_party"], "B_Party".
      split; [by do 3 right; left|]. split; [by do 3 right; left|].
      exists "b_party". split; [by do 3 right; left|done].
    + exists ["start_time"; "timestamp"; "date_time"; "call_time"], "Call Time".
      split; [by do 4 right; left|]. split; [by do 4 right; left|].
      exists "call_time". split; [by do 3 right; left|done].
Defined.

(** ** Cleaning identifiers *)

Lemma append_length (s1 s2 : string) :
  String.length (s1 ++ s2)%string = (String.length s1 + String.length s2)%nat.
Proof. induction s1 as [|c s1 IH]; simpl; [done|]. by rewrite IH. Qed.

Lemma strip_dot_zero_step (c : ascii) (s : string) :
  String c s ≠ ".0" →
  String c s ≠ String "."%char (String "0"%char (String (ascii_of_nat 10) EmptyString)) →
  PyStr.strip_dot_zero (String c s) = String c (PyStr.strip_dot_zero s).
Proof.
  intros H1 H2. simpl.
  apply String.eqb_neq in H1. apply String.eqb_neq in H2.
  simpl in H1, H2. by rewrite H1, H2.
Qed.

Lemma strip_dot_zero_suffix (s : string) : PyStr.strip_dot_zero (s ++ ".0")%string = s.
Proof.
  induction s as [|c s IH]; [done|].
  change (String c s ++ ".0")%string with (String c (s ++ ".0")%string).
  rewrite strip_dot_zero_step; [by rewrite IH| |].
  - intros Heq. apply (f_equal String.length) in Heq. simpl in Heq.
    rewrite append_length in Heq. simpl in Heq. lia.
  - intros Heq. pose proof (f_equal String.length Heq) as Hlen. simpl in Hlen.
    rewrite append_length in Hlen. simpl in Hlen.
    destruct s; [|simpl in Hlen; lia]. by injection Heq.
Qed.

Lemma strip_dot_zero_no_dot (s : string) :
  (∀ s1 s2, s ≠ (s1 ++ String "."%char s2)%string) → PyStr.strip_dot_zero s = s.
Proof.
  induction s as [|c s IH]; [done|]. intros Hdot.
  assert (c ≠ "."%char) as Hc by (intros ->; by apply (Hdot EmptyString s)).
  rewrite strip_dot_zero_step; [| by intros [= ? _] | by intros [= ? _]].
  f_equal. apply IH. intros s1 s2 ->. by apply (Hdot (String c s1) s2).
Qed.

(** X4. Cleaning an identifier removes one final ".0": a value rendered
    with the float artifact cleans to the value without it, a string with
    no dot is left as it is, so the integer and the float rendering of a
    number name the same identifier; a null cell cleans to "nan". *)
Theorem clean_id_float_artifact (s : string) :
  SimSwap.clean_id (Some (s ++ ".0")%string) = s ∧
  ((∀ s1 s2, s ≠ (s1 ++ String "."%char s2)%string) →
     SimSwap.clean_id (Some s) = s
     ∧ SimSwap.clean_id (Some (s ++ ".0")%string) = SimSwap.clean_id (Some s)) ∧
  SimSwap.clean_id None = "nan".
Proof.
  assert (∀ t, SimSwap.clean_id (Some t) = PyStr.strip_dot_zero t) as Hclean by done.
  rewrite !Hclean, strip_dot_zero_suffix. split; [done|]. split; [|done].
  intros Hdot. by rewrite strip_dot_zero_no_dot.
Qed.

Example clean_id_only_last :
  SimSwap.clean_id (Some "10.0.0") = "10.0" ∧ SimSwap.clean_id (Some "10.05") = "10.05".
Proof. by vm_compute. Qed.

(** ** Parsing the prefix list *)

Lemma rstrip_cons_nonspace (c : ascii) (s : string) :
  PyStr.is_space c = false → PyStr.rstrip (String c s) = String c (PyStr.rstrip s).
Proof. intros Hc. simpl. rewrite Hc. by destruct (PyStr.rstrip s). Qed.

Lemma rstrip_idemp (s : string) : PyStr.rstrip (PyStr.rstrip s) = PyStr.rstrip s.
Proof.
  induction s as [|c s IH]; [done|]. simpl.
  destruct (PyStr.rstrip s) as [|d r] eqn:Hr.
  - destruct (PyStr.is_space c) eqn:Hc; [done|]. simpl. by rewrite Hc.
  - change (PyStr.rstrip (String c (String d r))) with
      (match PyStr.rstrip (String d r) with
       | EmptyString => if PyStr.is_space c then EmptyString else String c EmptyString
       | r' => String c r'
       end).
    by rewrite IH.
Qed.

Lemma lstrip_head (s : string) :
  PyStr.lstrip s = EmptyString
  ∨ ∃ c s', PyStr.lstrip s = String c s' ∧ PyStr.is_space c = false.
Proof.
  induction s as [|c s IH]; [by left|]. simpl.
  destruct (PyStr.is_space c) eqn:Hc; [done|]. right. by exists c, s.
Qed.

Lemma strip_head (s : string) :
  PyStr.strip s = EmptyString
  ∨ ∃ c s', PyStr.strip s = String c s' ∧ PyStr.is_space c = false.
Proof.
  unfold PyStr.strip. destruct (lstrip_head s) as [->|(c & s' & -> & Hc)]; [by left|].
  right. exists c, (PyStr.rstrip s'). by rewrite rstrip_cons_nonspace.
Qed.

Lemma strip_idemp (s : string) : PyStr.strip (PyStr.strip s) = PyStr.strip s.
Proof.
  destruct (strip_head s) as [Hs|(c & s' & Hs & Hc)].
  - by rewrite Hs.
  - unfold PyStr.strip at 1. rewrite Hs. simpl PyStr.lstrip. rewrite Hc.
    rewrite <- Hs. unfold PyStr.strip. apply rstrip_idemp.
Qed.

Lemma elem_of_parse_prefixes (p prefixes_str : string) :
  p ∈ TollFree.parse_prefixes prefixes_str ↔
  p ≠ "" ∧ ∃ field, field ∈ PyStr.split ","%char prefixes_str ∧ p = PyStr.strip field.
Proof.
  unfold TollFree.parse_prefixes. rewrite list_elem_of_filter, list_elem_of_fmap.
  naive_solver.
Qed.

(** X5. Every prefix read from the configured string is non-empty and
    carries no white space at either end, so no prefix matches every
    number; and when the string yields no prefix at all (it is empty, or
    holds only commas and blanks) no call is selected and both tables
    are empty. *)
Theorem parse_prefixes_clean (prefixes_str : string) (df : list TollFree.cdr)
    (abuse_threshold : Z) :
  (∀ p, p ∈ TollFree.parse_prefixes prefixes_str →
     p ≠ "" ∧ PyStr.strip p = p
     ∧ ∃ c rest, p = String c rest ∧ PyStr.is_space c = false) ∧
  (TollFree.parse_prefixes prefixes_str = [] →
     TollFree.tollfree_calls df prefixes_str = []
     ∧ TollFree.analyze_logic df abuse_threshold prefixes_str = ([], [])) ∧
  TollFree.parse_prefixes "" = [] ∧
  TollFree.parse_prefixes " , ,, " = [].
Proof.
  split; [|split; [|by vm_compute]].
  - intros p (Hne & field & _ & ->)%elem_of_parse_prefixes.
    split; [done|]. split; [apply strip_idemp|].
    destruct (strip_head field) as [Hs|(c & s' & Hs & Hc)]; [done|].
    by exists c, s'.
  - intros Hnil.
    assert (TollFree.tollfree_calls df prefixes_str = []) as Hcalls.
    { unfold TollFree.tollfree_calls. apply filter_none. intros r _.
      unfold TollFree.tollfree_mask. rewrite Hnil. simpl.
      rewrite andb_false_r. intros []. }
    split; [done|]. unfold TollFree.analyze_logic. by rewrite Hcalls.
Qed.

(** ** Time buckets *)

Lemma floor_to_bounds (w t : Z) :
  0 < w → Frame.floor_to w t ≤ t < Frame.floor_to w t + w.
Proof.
  intros Hw. unfold Frame.floor_to.
  pose proof (Z.mul_div_le t w Hw). pose proof (Z.mul_succ_div_gt t w Hw). lia.
Qed.

Lemma floor_to_same (w t t' : Z) :
  0 < w → (Frame.floor_to w t = Frame.floor_to w t' ↔ t / w = t' / w).
Proof.
  intros Hw. unfold Frame.floor_to. split; [|by intros ->].
  intros Heq. by apply Z.mul_reg_l in Heq; [|lia].
Qed.

Lemma floor_to_coarser (w k t t' : Z) :
  0 < w → 0 < k →
  Frame.floor_to w t = Frame.floor_to w t' →
  Frame.floor_to (w * k) t = Frame.floor_to (w * k) t'.
Proof.
  intros Hw Hk Heq%floor_to_same; [|done]. unfold Frame.floor_to.
  by rewrite <- !Z.div_div, Heq by lia.
Qed.

Lemma floor_to_idemp (w t : Z) :
  0 < w → Frame.floor_to w (Frame.floor_to w t) = Frame.floor_to w t.
Proof.
  intros Hw. unfold Frame.floor_to. f_equal.
  rewrite Z.mul_comm. apply Z.div_mul. lia.
Qed.

Lemma window_ns_pos (w : SimSwap.window) : 0 < SimSwap.window_ns w.
Proof. by destruct w. Qed.

(** X6. A row lies in its bucket: the bucket starts at or before the
    row's start_time and ends after it, a bucket start is a multiple of
    the width, and flooring a bucket start gives it back. Widening the
    window never separates rows: two rows of one 15-minute bucket are in
    one 30-minute bucket, of one 30-minute bucket in one hour, of one
    hour in one 2-hour bucket. *)
Theorem time_bucket_properties (w : SimSwap.window) (r r' : SimSwap.cdr) :
  (SimSwap.time_bucket w r ≤ SimSwap.start_time r
     < SimSwap.time_bucket w r + SimSwap.window_ns w) ∧
  (SimSwap.window_ns w | SimSwap.time_bucket w r) ∧
  Frame.floor_to (SimSwap.window_ns w) (SimSwap.time_bucket w r)
    = SimSwap.time_bucket w r ∧
  (SimSwap.time_bucket SimSwap.W15min r = SimSwap.time_bucket SimSwap.W15min r' →
   SimSwap.time_bucket SimSwap.W30min r = SimSwap.time_bucket SimSwap.W30min r') ∧
  (SimSwap.time_bucket SimSwap.W30min r = SimSwap.time_bucket SimSwap.W30min r' →
   SimSwap.time_bucket SimSwap.W1h r = SimSwap.time_bucket SimSwap.W1h r') ∧
  (SimSwap.time_bucket SimSwap.W1h r = SimSwap.time_bucket SimSwap.W1h r' →
   SimSwap.time_bucket SimSwap.W2h r = SimSwap.time_bucket SimSwap.W2h r').
Proof.
  unfold SimSwap.time_bucket.
  split; [apply floor_to_bounds, window_ns_pos|].
  split; [by eexists; unfold Frame.floor_to; rewrite Z.mul_comm|].
  split.
  { apply floor_to_idemp, window_ns_pos. }
  split; [|split].
  - change (SimSwap.window_ns SimSwap.W30min) with (SimSwap.window_ns SimSwap.W15min * 2).
    by apply floor_to_coarser.
  - change (SimSwap.window_ns SimSwap.W1h) with (SimSwap.window_ns SimSwap.W30min * 2).
    by apply floor_to_coarser.
  - change (SimSwap.window_ns SimSwap.W2h) with (SimSwap.window_ns SimSwap.W1h * 2).
    by apply floor_to_coarser.
Qed.

(** ** The extremes of the similarity score *)

Lemma Qcdiv_eq_mult (i u k : Qc) : u ≠ 0%Qc → (i / u)%Qc = k → i = (k * u)%Qc.
Proof.
  intros Hu <-. unfold Qcdiv.
  by rewrite <- Qcmult_assoc, (Qcmult_comm (/ u)), Qcmult_inv_r, Qcmult_1_r.
Qed.

Lemma size_union_ne (A B : gset string) :
  A ≠ ∅ → Qc_of_Z (Z.of_nat (size (A ∪ B))) ≠ 0%Qc.
Proof.
  intros HA. rewrite <- Z2Qc_inj_0, Z2Qc_inj_iff.
  pose proof (size_union_pos A B HA). lia.
Qed.

Lemma jaccard_one_iff (A B : gset string) :
  SimSwap.calculate_jaccard_similarity A B = 1%Qc ↔ A = B ∧ A ≠ ∅.
Proof.
  split; [|intros [<- HA]; by apply jaccard_self].
  destruct (decide (A = ∅)) as [->|HA]; [by rewrite jaccard_empty_l|].
  destruct (decide (B = ∅)) as [->|HB]; [by rewrite jaccard_empty_r|].
  rewrite jaccard_nonempty by done.
  intros Heq%Qcdiv_eq_mult; [|by apply size_union_ne].
  rewrite Qcmult_1_l, Z2Qc_inj_iff in Heq. apply Nat2Z.inj in Heq.
  split; [|done].
  assert (A ∩ B ≡ A ∪ B) as Hsets.
  { apply set_subseteq_size_equiv; [set_solver|lia]. }
  apply leibniz_equiv. set_solver.
Qed.

Lemma jaccard_zero_iff (A B : gset string) :
  SimSwap.calculate_jaccard_similarity A B = 0%Qc ↔ A ∩ B = ∅.
Proof.
  destruct (decide (A = ∅)) as [->|HA].
  { rewrite jaccard_empty_l. split; [intros _|done]. apply leibniz_equiv. set_solver. }
  destruct (decide (B = ∅)) as [->|HB].
  { rewrite jaccard_empty_r. split; [intros _|done]. apply leibniz_equiv. set_solver. }
  rewrite jaccard_nonempty by done. split.
  - intros Heq%Qcdiv_eq_mult; [|by apply size_union_ne].
    rewrite Qcmult_0_l, <- Z2Qc_inj_0, Z2Qc_inj_iff in Heq.
    apply leibniz_equiv, size_empty_iff. lia.
  - intros ->. rewrite size_empty. simpl. apply Qcmult_0_l.
Qed.

(** X7. The similarity of two contact sets does not depend on their
    order; it is exactly 1 only for two equal non-empty sets, and exactly
    0 only for two sets with no common contact. So with the threshold at
    1 a pair of signatures is scored as a finding exactly when both SIMs
    called the same non-empty set of numbers. *)
Theorem jaccard_extremes (A B : gset string) (c : Z * (SimSwap.signature * SimSwap.signature)) :
  SimSwap.calculate_jaccard_similarity A B = SimSwap.calculate_jaccard_similarity B A ∧
  (SimSwap.calculate_jaccard_similarity A B = 1%Qc ↔ A = B ∧ A ≠ ∅) ∧
  (SimSwap.calculate_jaccard_similarity A B = 0%Qc ↔ A ∩ B = ∅) ∧
  (is_Some (SimSwap.score_pair 1%Qc c) ↔
     SimSwap.called_set c.2.1 = SimSwap.called_set c.2.2
     ∧ SimSwap.called_set c.2.1 ≠ ∅).
Proof.
  split; [apply jaccard_comm|]. split; [apply jaccard_one_iff|].
  split; [apply jaccard_zero_iff|].
  rewrite <- jaccard_one_iff. unfold SimSwap.score_pair.
  pose proof (jaccard_unit_interval (SimSwap.called_set c.2.1) (SimSwap.called_set c.2.2))
    as [_ Hle].
  destruct (decide _) as [Hge|Hlt].
  - split; [intros _|by eexists]. by apply Qcle_antisym.
  - split; [by intros [? ?]|]. intros Heq. destruct Hlt. rewrite Heq. apply Qcle_refl.
Qed.

(** ** Raising a threshold only removes findings *)

Lemma filter_sublist_impl {A : Type} (P Q : A → Prop)
    `{∀ x, Decision (P x)} `{∀ x, Decision (Q x)} (l : list A) :
  (∀ x, P x → Q x) → filter P l `sublist_of` filter Q l.
Proof.
  intros HPQ. induction l as [|x l IH]; [done|].
  rewrite !filter_cons. destruct (decide (P x)) as [HP|HP].
  - rewrite decide_True by auto. by apply sublist_skip.
  - destruct (decide (Q x)); [by apply sublist_cons|done].
Qed.

Lemma omap_sublist_impl {A B : Type} (f g : A → option B) (l : list A) :
  (∀ x y, f x = Some y → g x = Some y) → omap f l `sublist_of` omap g l.
Proof.
  intros Hfg. induction l as [|x l IH]; [done|]. simpl.
  destruct (f x) as [y|] eqn:Hf.
  - rewrite (Hfg x y Hf). by apply sublist_skip.
  - destruct (g x); [by apply sublist_cons|done].
Qed.

(** X8. Raising a count threshold only removes findings. In Call_Spikes
    each of the two tables shrinks to a sub-table in the same order when
    its own threshold is raised, whatever the other threshold is; in
    Strange_sim_use and Toll_Free_Abuse every row reported under the
    higher threshold is reported under the lower one. *)
Theorem count_thresholds_monotone (lo hi other other' : Z)
    (cs : list CallSpikes.cdr) (ss : list StrangeSim.cdr)
    (tf : list TollFree.cdr) (prefixes_str : string) :
  lo ≤ hi →
  (CallSpikes.analyze_logic cs hi other).1
    `sublist_of` (CallSpikes.analyze_logic cs lo other').1 ∧
  (CallSpikes.analyze_logic cs other hi).2
    `sublist_of` (CallSpikes.analyze_logic cs other' lo).2 ∧
  StrangeSim.analyze_logic ss hi ⊆ StrangeSim.analyze_logic ss lo ∧
  (TollFree.analyze_logic tf hi prefixes_str).1
    ⊆ (TollFree.analyze_logic tf lo prefixes_str).1.
Proof.
  intros Hle. split; [|split; [|split]].
  - unfold CallSpikes.analyze_logic. destruct (CallSpikes.outgoing_df cs); [done|].
    cbn [fst]. apply filter_sublist_impl. intros row. lia.
  - unfold CallSpikes.analyze_logic. destruct (CallSpikes.outgoing_df cs); [done|].
    cbn [snd]. apply filter_sublist_impl. intros row. lia.
  - intros [A n]. rewrite !elem_of_strange_sim. lia.
  - intros [[A day] n]. rewrite !elem_of_abusive_users. lia.
Qed.

Lemma count_thresholds_monotone_witness :
  let call := CallSpikes.mkCdr (Some "900") "4411" (Some 0) "MO" in
  let sim := StrangeSim.mkCdr "900" "44110000" "1" (Some 0) in
  let toll := TollFree.mkCdr "900" "1800123" "mo" (Some 0) in
  (CallSpikes.analyze_logic [call; call; call] 2 0).1
    `sublist_of` (CallSpikes.analyze_logic [call; call; call] 1 5).1 ∧
  (CallSpikes.analyze_logic [call; call; call] 0 2).2
    `sublist_of` (CallSpikes.analyze_logic [call; call; call] 5 1).2 ∧
  StrangeSim.analyze_logic [sim; sim; sim] 2 ⊆ StrangeSim.analyze_logic [sim; sim; sim] 1 ∧
  (TollFree.analyze_logic [toll; toll; toll] 2 "1800").1
    ⊆ (TollFree.analyze_logic [toll; toll; toll] 1 "1800").1.
Proof.
  intros call sim toll.
  apply (count_thresholds_monotone 1 2 0 5 [call; call; call] [sim; sim; sim]
           [toll; toll; toll] "1800").
  lia.
Defined.

(** X9. Raising the similarity threshold only removes pattern findings:
    the findings under the higher threshold are a sub-list, in the same
    order and with the same scores, of those under the lower one. The
    device-reuse table depends on neither the threshold nor the window. *)
Theorem similarity_threshold_monotone (df : list SimSwap.cdr) (w w' : SimSwap.window)
    (lo hi : Qc) :
  (lo ≤ hi)%Qc →
  SimSwap.pattern_df df w hi `sublist_of` SimSwap.pattern_df df w lo ∧
  (length (SimSwap.pattern_df df w hi) ≤ length (SimSwap.pattern_df df w lo))%nat ∧
  (SimSwap.analyze_logic df w hi).1 = (SimSwap.analyze_logic df w' lo).1.
Proof.
  intros Hle.
  assert (SimSwap.pattern_df df w hi `sublist_of` SimSwap.pattern_df df w lo) as Hsub.
  { apply omap_sublist_impl. intros c p. unfold SimSwap.score_pair.
    destruct (decide (hi ≤ _)%Qc) as [Hhi|]; [|done].
    rewrite decide_True; [done|]. by etrans. }
  split; [done|]. split; [by apply sublist_length|done].
Qed.

Lemma similarity_threshold_monotone_witness :
  let df := [ SimSwap.mkCdr "I1" "E1" "900" "x" 0; SimSwap.mkCdr "I1" "E1" "900" "y" 1;
              SimSwap.mkCdr "I2" "E2" "901" "y" 4; SimSwap.mkCdr "I2" "E2" "901" "x" 5 ] in
  SimSwap.pattern_df df SimSwap.W15min 1%Qc
    `sublist_of` SimSwap.pattern_df df SimSwap.W15min (Q2Qc (1 # 2)).
Proof.
  intros df.
  apply (similarity_threshold_monotone df SimSwap.W15min SimSwap.W1h (Q2Qc (1 # 2)) 1%Qc).
  by vm_compute.
Defined.

(** X10. Making the tower-jump rule stricter only removes findings: with
    a larger minimum distance and a smaller maximum time gap the events
    reported are a sub-list, in the same order, of those reported
    before. *)
Theorem tower_thresholds_monotone (np : TowerJump.numpy) (df : list TowerJump.cdr)
    (dist dist' time time' : Qc) :
  (dist ≤ dist')%Qc → (time' ≤ time)%Qc →
  TowerJump.analyze_logic np df dist' time'
    `sublist_of` TowerJump.analyze_logic np df dist time ∧
  (length (TowerJump.analyze_logic np df dist' time')
     ≤ length (TowerJump.analyze_logic np df dist time))%nat.
Proof.
  intros Hd Ht.
  assert (TowerJump.analyze_logic np df dist' time'
            `sublist_of` TowerJump.analyze_logic np df dist time) as Hsub.
  { unfold TowerJump.analyze_logic. apply fmap_sublist, filter_sublist_impl.
    intros [r [p|]]; [|done].
    rewrite !Is_true_true, !mask_Some. intros (H1 & H2 & H3).
    split; [by etrans|]. split; [done|by etrans]. }
  split; [done|by apply sublist_length].
Qed.

Lemma tower_thresholds_monotone_witness :
  let np := TowerJump.mkNumpy id id id id (λ _ _, Q2Qc (50 # 6371)) in
  let a := TowerJump.mkCdr "I1" 0 (Qc_of_Z 12) (Qc_of_Z 77) "C1" in
  let b := TowerJump.mkCdr "I1" Frame.NS_PER_MINUTE (Qc_of_Z 13) (Qc_of_Z 77) "C2" in
  TowerJump.analyze_logic np [b; a] (Qc_of_Z 20) (Qc_of_Z 2)
    `sublist_of` TowerJump.analyze_logic np [b; a] (Qc_of_Z 10) (Qc_of_Z 5).
Proof.
  intros np a b.
  apply (tower_thresholds_monotone np [b; a] (Qc_of_Z 10) (Qc_of_Z 20)
           (Qc_of_Z 5) (Qc_of_Z 2)); by vm_compute.
Defined.

(** ** The order of the result tables *)

Lemma StronglySorted_sublist {A : Type} (R : relation A) (l k : list A) :
  l `sublist_of` k → StronglySorted R k → StronglySorted R l.
Proof.
  induction 1 as [|x l k Hlk IH|x l k Hlk IH]; intros Hs; [done| |].
  - apply StronglySorted_inv in Hs as [Hs Hx]. constructor; [by apply IH|].
    rewrite Forall_forall in Hx. apply Forall_forall. intros y Hy.
    apply Hx. by eapply elem_of_sublist.
  - apply StronglySorted_inv in Hs as [Hs _]. by apply IH.
Qed.

Lemma StronglySorted_on_keys {K V : Type} (R : relation K) (l : list (K * V)) :
  StronglySorted R l.*1 → StronglySorted (λ a b, R a.1 b.1) l.
Proof.
  induction l as [|a l IH]; [constructor|]. rewrite fmap_cons.
  intros [Hs Ha]%StronglySorted_inv. constructor; [by apply IH|].
  by rewrite Forall_fmap in Ha.
Qed.

Lemma StronglySorted_weaken {A : Type} (R1 R2 : relation A) (l : list A) :
  (∀ x y, R1 x y → R2 x y) → StronglySorted R1 l → StronglySorted R2 l.
Proof.
  intros HR Hs. rewrite <- (list_fmap_id l). by apply (StronglySorted_fmap id R1 R2).
Qed.

Section GroupOrderFacts.
Context {A K : Type} `{EqDecision K}.
Context (leb : K → K → bool) (key : A → option K).
Hypothesis leb_total : ∀ x y, leb x y ∨ leb y x.
Hypothesis leb_trans : ∀ x y z, leb x y → leb y z → leb x z.

Lemma group_sizes_keys (df : list A) :
  (Frame.group_sizes leb key df).*1 = Frame.group_keys leb key df.
Proof using Type.
  unfold Frame.group_sizes. rewrite <- list_fmap_compose, <- groupby_keys.
  by apply list_fmap_ext.
Qed.

Lemma group_sizes_sorted (df : list A) :
  StronglySorted (λ a b, leb a.1 b.1) (Frame.group_sizes leb key df).
Proof using leb_total leb_trans.
  apply (StronglySorted_on_keys (λ x y, leb x y)). rewrite group_sizes_keys.
  by apply sort_by_StronglySorted.
Qed.

Lemma group_sizes_NoDup (df : list A) : NoDup (Frame.group_sizes leb key df).*1.
Proof using Type. rewrite group_sizes_keys. apply group_keys_NoDup. Qed.

Lemma groupby_sorted (df : list A) :
  StronglySorted (λ a b, leb a.1 b.1) (Frame.groupby leb key df).
Proof using leb_total leb_trans.
  apply (StronglySorted_on_keys (λ x y, leb x y)). rewrite groupby_keys.
  by apply sort_by_StronglySorted.
Qed.
End GroupOrderFacts.

Lemma lex_leb_total (a b : string * Z) :
  Frame.lex_leb String.leb Z.leb a b ∨ Frame.lex_leb String.leb Z.leb b a.
Proof.
  unfold Frame.lex_leb.
  destruct (decide (a.1 = b.1)) as [Hab|Hab].
  - rewrite decide_True by done. rewrite !Is_true_true, !Z.leb_le. lia.
  - rewrite decide_False by done. rewrite !Is_true_true. apply String.leb_total.
Qed.

Lemma lex_leb_trans (a b c : string * Z) :
  Frame.lex_leb String.leb Z.leb a b → Frame.lex_leb String.leb Z.leb b c →
  Frame.lex_leb String.leb Z.leb a c.
Proof.
  unfold Frame.lex_leb.
  destruct (decide (a.1 = b.1)) as [Hab|Hab];
    destruct (decide (b.1 = c.1)) as [Hbc|Hbc];
    destruct (decide (a.1 = c.1)) as [Hac|Hac]; try congruence.
  - rewrite !Is_true_true, !Z.leb_le. lia.
  - intros H1 H2. destruct Hab. apply String.leb_antisym; [by apply Is_true_true|].
    rewrite Hac. by apply Is_true_true.
  - apply string_leb_trans.
Qed.

Lemma string_leb_total (a b : string) : String.leb a b ∨ String.leb b a.
Proof. rewrite !Is_true_true. apply String.leb_total. Qed.

Lemma sort_counts_desc_sorted {K : Type} (l : list (K * Z)) :
  StronglySorted (λ a b, b.2 ≤ a.2) (Frame.sort_counts_desc l).
Proof.
  apply (StronglySorted_weaken (λ a b, b.2 <=? a.2)).
  { intros a b. by rewrite Is_true_true, Z.leb_le. }
  apply sort_by_StronglySorted.
  - intros a b. rewrite !Is_true_true, !Z.leb_le. lia.
  - intros a b c. rewrite !Is_true_true, !Z.leb_le. lia.
Qed.

Lemma sort_counts_desc_keys {K : Type} (l : list (K * Z)) :
  (Frame.sort_counts_desc l).*1 ≡ₚ l.*1.
Proof. unfold Frame.sort_counts_desc. by rewrite sort_by_Permutation. Qed.

Lemma value_counts_sorted {A : Type} `{EqDecision A} (l : list A) :
  StronglySorted (λ a b, b.2 ≤ a.2) (Frame.value_counts l).
Proof. apply (sort_counts_desc_sorted (K:=A)). Qed.

(** X11. The tables that come from a [groupby] name each key once: a
    calling number in the international table of Call_Spikes, a calling
    number and hour in its spike table, an IMEI in the device-reuse table
    of SIM_Swapping. The hours listed for one calling number are in
    ascending order, and the device-reuse table is in ascending order of
    the IMEI strings. *)
Theorem grouped_findings_in_key_order (cs : list CallSpikes.cdr)
    (intl_threshold spike_threshold : Z) (df : list SimSwap.cdr) :
  NoDup (CallSpikes.analyze_logic cs intl_threshold spike_threshold).1.*1 ∧
  NoDup (CallSpikes.analyze_logic cs intl_threshold spike_threshold).2.*1 ∧
  (∀ A, StronglySorted (λ a b, a.1.2 ≤ b.1.2)
          (filter (λ row, row.1.1 = A)
             (CallSpikes.analyze_logic cs intl_threshold spike_threshold).2)) ∧
  (StronglySorted (λ a b, String.leb a.1 b.1) (SimSwap.imei_swaps df)
   ∧ NoDup (SimSwap.imei_swaps df).*1).
Proof.
  split; [|split; [|split]].
  - unfold CallSpikes.analyze_logic.
    destruct (CallSpikes.outgoing_df cs) as [|r out]; cbn [fst]; [constructor|].
    eapply sublist_NoDup; [|apply fmap_sublist, sublist_filter].
    apply group_sizes_NoDup.
  - unfold CallSpikes.analyze_logic.
    destruct (CallSpikes.outgoing_df cs) as [|r out]; cbn [snd]; [constructor|].
    eapply sublist_NoDup; [|apply fmap_sublist, sublist_filter].
    apply group_sizes_NoDup.
  - intros A.
    assert (StronglySorted (λ a b, Frame.lex_leb String.leb Z.leb a.1 b.1)
              (CallSpikes.analyze_logic cs intl_threshold spike_threshold).2) as Hs.
    { unfold CallSpikes.analyze_logic.
      destruct (CallSpikes.outgoing_df cs) as [|r out]; cbn [snd]; [constructor|].
      eapply StronglySorted_sublist; [apply sublist_filter|].
      apply group_sizes_sorted; [apply lex_leb_total|apply lex_leb_trans]. }
    induction Hs as [|a l Hs IH Ha]; [constructor|]. rewrite filter_cons.
    destruct (decide (a.1.1 = A)) as [HA|HA]; [|done].
    constructor; [done|]. apply Forall_forall.
    intros b [Hb Hin]%list_elem_of_filter.
    rewrite Forall_forall in Ha. specialize (Ha b Hin).
    unfold Frame.lex_leb in Ha. rewrite decide_True in Ha by congruence.
    by apply Is_true_true, Z.leb_le in Ha.
  - unfold SimSwap.imei_swaps, SimSwap.imei_counts. split.
    + eapply StronglySorted_sublist; [apply sublist_filter|].
      apply (StronglySorted_on_keys (λ x y, String.leb x y)). rewrite <- list_fmap_compose.
      rewrite (list_fmap_ext _ fst (Frame.groupby String.leb _ df)) by done.
      rewrite groupby_keys.
      apply sort_by_StronglySorted; [apply string_leb_total|apply string_leb_trans].
    + eapply sublist_NoDup; [|apply fmap_sublist, sublist_filter].
      rewrite <- list_fmap_compose.
      rewrite (list_fmap_ext _ fst (Frame.groupby String.leb _ df)) by done.
      rewrite groupby_keys. apply group_keys_NoDup.
Qed.

(** X12. The tables sorted by count are in descending count order: the
    suspicious numbers of Strange_sim_use, the abusive callers and the
    top targets of Toll_Free_Abuse. A calling number appears once among
    the suspicious numbers, and a calling number and day once among the
    abusive callers. *)
Theorem counted_findings_in_count_order (ss : list StrangeSim.cdr) (threshold : Z)
    (tf : list TollFree.cdr) (abuse_threshold : Z) (prefixes_str : string) :
  (StronglySorted (λ a b, b.2 ≤ a.2) (StrangeSim.analyze_logic ss threshold)
   ∧ NoDup (StrangeSim.analyze_logic ss threshold).*1) ∧
  (StronglySorted (λ a b, b.2 ≤ a.2)
     (TollFree.analyze_logic tf abuse_threshold prefixes_str).1
   ∧ NoDup (TollFree.analyze_logic tf abuse_threshold prefixes_str).1.*1) ∧
  StronglySorted (λ a b, b.2 ≤ a.2)
    (TollFree.analyze_logic tf abuse_threshold prefixes_str).2.
Proof.
  split; [|split].
  - unfold StrangeSim.analyze_logic.
    destruct (filter StrangeSim.is_outgoing ss) as [|r out]; [split; constructor|].
    split; [apply sort_counts_desc_sorted|].
    rewrite sort_counts_desc_keys.
    eapply sublist_NoDup; [|apply fmap_sublist, sublist_filter].
    apply group_sizes_NoDup.
  - unfold TollFree.analyze_logic.
    destruct (TollFree.tollfree_calls tf prefixes_str) as [|r calls]; cbn [fst];
      [split; constructor|].
    split; [apply sort_counts_desc_sorted|].
    rewrite sort_counts_desc_keys.
    eapply sublist_NoDup; [|apply fmap_sublist, sublist_filter].
    apply group_sizes_NoDup.
  - rewrite top_targets_value_counts.
    eapply StronglySorted_sublist; [apply sublist_take|apply value_counts_sorted].
Qed.

(** ** The order of the pattern findings *)

Section IndexPairsOrder.
Context {A : Type}.

Lemma index_pairs_sorted (R : relation A) (l : list A) (x y : A) :
  StronglySorted R l → (x, y) ∈ SimSwap.index_pairs l → R x y.
Proof.
  induction 1 as [|z l Hs IH Hz]; simpl; [by intros ?%elem_of_nil|].
  rewrite elem_of_app, list_elem_of_fmap. intros [(y' & [= -> ->] & Hy)|Hin].
  - rewrite Forall_forall in Hz. by apply Hz.
  - by apply IH.
Qed.

Lemma index_pairs_NoDup (l : list A) : NoDup l → NoDup (SimSwap.index_pairs l).
Proof.
  induction 1 as [|z l Hz Hnd IH]; simpl; [constructor|].
  apply NoDup_app. split; [|split; [|done]].
  - apply NoDup_fmap_2_strong; [|done]. by intros y y' _ _ [= ->].
  - intros [x y] (y' & [= -> ->] & Hy)%list_elem_of_fmap Hin.
    by apply elem_of_index_pairs_inv in Hin as [? _].
Qed.
End IndexPairsOrder.

Lemma constant_key_sorted {B K : Type} (R : relation K) `{!Reflexive R}
    (k : B → K) (c : K) (l : list B) :
  (∀ y, y ∈ l → k y = c) → StronglySorted (λ y y', R (k y) (k y')) l.
Proof.
  induction l as [|y l IH]; intros Hk; [constructor|].
  constructor; [apply IH; intros y' Hy'; apply Hk; by right|].
  apply Forall_forall. intros y' Hy'.
  rewrite (Hk y) by left. by rewrite (Hk y') by (by right).
Qed.

Lemma bind_sorted_by_key {A B K : Type} (R : relation K) `{!Reflexive R}
    (kA : A → K) (kB : B → K) (f : A → list B) (l : list A) :
  (∀ a y, y ∈ f a → kB y = kA a) →
  StronglySorted (λ a a', R (kA a) (kA a')) l →
  StronglySorted (λ y y', R (kB y) (kB y')) (l ≫= f).
Proof.
  intros Hk. induction 1 as [|a l Hs IH Ha]; [constructor|]. csimpl.
  apply StronglySorted_app_2; [|by apply (constant_key_sorted R kB (kA a)); auto|done].
  intros y y' Hy (a' & Hy' & Ha')%list_elem_of_bind.
  rewrite (Hk a y Hy), (Hk a' y' Hy').
  rewrite Forall_forall in Ha. by apply Ha.
Qed.

Lemma omap_sorted {A B : Type} (R : relation A) (R' : relation B)
    (f : A → option B) (l : list A) :
  (∀ x y x' y', f x = Some x' → f y = Some y' → R x y → R' x' y') →
  StronglySorted R l → StronglySorted R' (omap f l).
Proof.
  intros HR. induction 1 as [|a l Hs IH Ha]; [constructor|]. simpl.
  destruct (f a) as [b|] eqn:Hfa; [|done].
  constructor; [done|]. apply Forall_forall.
  intros b' (a' & Ha' & Hfa')%list_elem_of_omap.
  rewrite Forall_forall in Ha. eapply HR; [done..|]. by apply Ha.
Qed.

Lemma omap_key_NoDup {A B K : Type} (f : A → option B) (k : B → K) (l : list A) :
  NoDup l →
  (∀ x y x' y', x ∈ l → y ∈ l → f x = Some x' → f y = Some y' → k x' = k y' → x = y) →
  NoDup (k <$> omap f l).
Proof.
  induction 1 as [|a l Ha Hnd IH]; intros Hinj; [constructor|]. simpl.
  assert (NoDup (k <$> omap f l)) as Hrest.
  { apply IH. intros x y x' y' Hx Hy. apply Hinj; by right. }
  destruct (f a) as [b|] eqn:Hfa; [|done]. rewrite fmap_cons.
  constructor; [|done].
  intros (b' & Hkb & (a' & Ha' & Hfa')%list_elem_of_omap)%list_elem_of_fmap.
  destruct Ha. rewrite (Hinj a a' b b'); [done|left|by right|done..].
Qed.

Lemma omap_length_all {A B : Type} (f : A → option B) (l : list A) :
  (∀ x, x ∈ l → is_Some (f x)) → length (omap f l) = length l.
Proof.
  induction l as [|a l IH]; intros Hall; [done|]. simpl.
  destruct (Hall a) as [b ->]; [left|]. simpl. f_equal. apply IH.
  intros x Hx. apply Hall. by right.
Qed.

Section PatternOrderFacts.
Import SimSwap.
Context (w : window) (df : list cdr).

Lemma signatures_sorted :
  StronglySorted
    (λ s s', Frame.lex_leb String.leb Z.leb
               (sig_imsi s, sig_time_bucket s) (sig_imsi s', sig_time_bucket s'))
    (signatures w df).
Proof.
  unfold signatures.
  apply (StronglySorted_fmap _ (λ a b, Frame.lex_leb String.leb Z.leb a.1 b.1)).
  - by intros [[i b] g] [[i' b'] g'].
  - apply groupby_sorted; [apply lex_leb_total|apply lex_leb_trans].
Qed.

Lemma comparisons_in_bucket (b : Z) (s1 s2 : signature) :
  (b, (s1, s2)) ∈ comparisons w df →
  (s1 ∈ signatures w df ∧ sig_time_bucket s1 = b)
  ∧ (s2 ∈ signatures w df ∧ sig_time_bucket s2 = b).
Proof.
  intros Hin%elem_of_comparisons.
  apply elem_of_index_pairs_inv in Hin
    as [[Hb1 Hs1]%list_elem_of_filter [Hb2 Hs2]%list_elem_of_filter].
  done.
Qed.

Lemma comparisons_imsi_order (b : Z) (s1 s2 : signature) :
  (b, (s1, s2)) ∈ comparisons w df →
  String.leb (sig_imsi s1) (sig_imsi s2) ∧ sig_imsi s1 ≠ sig_imsi s2.
Proof.
  intros Hin. pose proof (comparisons_same_bucket w df b s1 s2 Hin) as [Hne _].
  split; [|done]. apply elem_of_comparisons in Hin.
  pose proof (index_pairs_sorted _ _ s1 s2
    (StronglySorted_sublist _ _ _ (sublist_filter _ _) signatures_sorted) Hin) as Hle.
  unfold Frame.lex_leb in Hle. cbn [fst snd] in Hle.
  by rewrite decide_False in Hle.
Qed.

Lemma comparisons_NoDup : NoDup (comparisons w df).
Proof.
  unfold comparisons. apply NoDup_bind; [| |apply groupby_NoDup].
  - intros [b g] [b' g'] c Hg Hg'.
    intros (p & -> & _)%list_elem_of_fmap (p' & [= <- _] & _)%list_elem_of_fmap.
    apply elem_of_groupby in Hg as [_ ->]. by apply elem_of_groupby in Hg' as [_ ->].
  - intros [b g] [_ ->]%elem_of_groupby. cbn [fst snd].
    apply NoDup_fmap_2_strong; [by intros p p' _ _ [= ->]|].
    rewrite bucket_pairs_index_pairs. apply index_pairs_NoDup.
    unfold Frame.get_group. apply NoDup_filter, signatures_NoDup.
Qed.

Lemma comparisons_sorted :
  StronglySorted (λ c c', c.1 ≤ c'.1) (comparisons w df).
Proof.
  unfold comparisons.
  apply (bind_sorted_by_key Z.le fst fst).
  - intros [b g] c (p & -> & _)%list_elem_of_fmap. done.
  - apply (StronglySorted_weaken (λ a a', Z.leb a.1 a'.1)).
    { intros a a'. by rewrite Is_true_true, Z.leb_le. }
    apply groupby_sorted.
    + intros x y. rewrite !Is_true_true, !Z.leb_le. lia.
    + intros x y z. rewrite !Is_true_true, !Z.leb_le. lia.
Qed.

Lemma signature_of_nonempty (i : string) (b : Z) :
  Spec.active w df i b → Spec.signature_of w df i b ≠ ∅.
Proof.
  intros (r & Hr & Hi & Hb) Hempty.
  assert (called_number r ∈ Spec.signature_of w df i b) as Hin; [|set_solver].
  unfold Spec.signature_of. rewrite elem_of_list_to_set, list_elem_of_fmap.
  exists r. split; [done|]. by apply list_elem_of_filter.
Qed.
End PatternOrderFacts.

(** X13. In every pattern finding imsi_1 is strictly before imsi_2 in
    string order, so a pair is never reported in both orders; the
    findings are listed by ascending time bucket; and no bucket lists the
    same pair twice. *)
Theorem pattern_findings_ordered (df : list SimSwap.cdr) (w : SimSwap.window)
    (similarity_threshold : Qc) :
  (∀ p, p ∈ SimSwap.pattern_df df w similarity_threshold →
     String.leb (SimSwap.imsi_1 p) (SimSwap.imsi_2 p)
     ∧ SimSwap.imsi_1 p ≠ SimSwap.imsi_2 p) ∧
  (∀ p q, p ∈ SimSwap.pattern_df df w similarity_threshold →
     q ∈ SimSwap.pattern_df df w similarity_threshold →
     ¬ (SimSwap.imsi_1 p = SimSwap.imsi_2 q ∧ SimSwap.imsi_2 p = SimSwap.imsi_1 q)) ∧
  StronglySorted (λ p q, SimSwap.time_window p ≤ SimSwap.time_window q)
    (SimSwap.pattern_df df w similarity_threshold) ∧
  NoDup ((λ p, (SimSwap.time_window p, SimSwap.imsi_1 p, SimSwap.imsi_2 p))
           <$> SimSwap.pattern_df df w similarity_threshold).
Proof.
  assert (∀ p, p ∈ SimSwap.pattern_df df w similarity_threshold →
     String.leb (SimSwap.imsi_1 p) (SimSwap.imsi_2 p)
     ∧ SimSwap.imsi_1 p ≠ SimSwap.imsi_2 p) as Horder.
  { intros p ([b [s1 s2]] & Hc & _ & ->)%elem_of_pattern_df. cbn.
    by apply (comparisons_imsi_order w df b). }
  split; [done|]. split; [|split].
  - intros p q [Hp Hne]%Horder [Hq _]%Horder [H1 H2]. apply Hne.
    apply String.leb_antisym; [by apply Is_true_true|].
    rewrite H1, H2. by apply Is_true_true.
  - unfold SimSwap.pattern_df.
    apply (omap_sorted (λ c c', c.1 ≤ c'.1)); [|apply comparisons_sorted].
    intros c c' p p'. unfold SimSwap.score_pair.
    destruct (decide _); [|done]. destruct (decide _); [|done].
    by intros [= <-] [= <-].
  - unfold SimSwap.pattern_df. apply omap_key_NoDup; [apply comparisons_NoDup|].
    intros [b [s1 s2]] [b' [s1' s2']] p p' Hc Hc'. unfold SimSwap.score_pair.
    destruct (decide _); [|done]. destruct (decide _); [|done].
    intros [= <-] [= <-]. cbn. intros [= <- Hi1 Hi2].
    apply comparisons_in_bucket in Hc as [[Hs1 Hb1] [Hs2 Hb2]].
    apply comparisons_in_bucket in Hc' as [[Hs1' Hb1'] [Hs2' Hb2']].
    rewrite (signatures_key_inj w df s1 s1'), (signatures_key_inj w df s2 s2');
      congruence.
Qed.

(** X14. Every signature that is compared is a non-empty set, so the
    score of a comparison is 0 exactly when the two SIMs share no called
    number. With a positive threshold every pattern finding therefore
    has at least one common contact; with a threshold of 0 or less every
    comparison is reported. *)
Theorem pattern_findings_share_contact (df : list SimSwap.cdr) (w : SimSwap.window)
    (similarity_threshold : Qc) :
  (∀ c, c ∈ SimSwap.comparisons w df →
     SimSwap.called_set c.2.1 ≠ ∅ ∧ SimSwap.called_set c.2.2 ≠ ∅) ∧
  ((0 < similarity_threshold)%Qc →
     ∀ p, p ∈ SimSwap.pattern_df df w similarity_threshold →
       SimSwap.common_contacts p ≠ ∅) ∧
  ((similarity_threshold ≤ 0)%Qc →
     length (SimSwap.pattern_df df w similarity_threshold)
       = length (SimSwap.comparisons w df)).
Proof.
  split; [|split].
  - intros [b [s1 s2]] Hc. cbn.
    apply comparisons_same_bucket in Hc as (_ & Ha1 & Ha2 & -> & ->).
    split; by apply signature_of_nonempty.
  - intros Hpos p ([b [s1 s2]] & Hc & Hthr & ->)%elem_of_pattern_df. cbn in *.
    intros Hempty%jaccard_zero_iff. rewrite Hempty in Hthr.
    by apply Qclt_not_le in Hpos.
  - intros Hle. unfold SimSwap.pattern_df. apply omap_length_all.
    intros c _. unfold SimSwap.score_pair. rewrite decide_True; [by eexists|].
    etrans; [done|]. apply jaccard_unit_interval.
Qed.

(** ** Hourly spikes *)

Lemma floor_to_iff (w t h : Z) :
  0 < w → (Frame.floor_to w t = h ↔ h ≤ t < h + w ∧ (w | h)).
Proof.
  intros Hw. split.
  - intros <-. split; [by apply floor_to_bounds|].
    exists (t / w). unfold Frame.floor_to. lia.
  - intros [Ht [q ->]]. unfold Frame.floor_to.
    rewrite <- (Z.div_unique t w q (t - q * w)); lia.
Qed.

Lemma spike_key_iff (r : CallSpikes.cdr) (A : string) (h : Z) :
  CallSpikes.spike_key r = Some (A, h) ↔
  CallSpikes.calling_number r = Some A
  ∧ ∃ t, CallSpikes.start_time r = Some t
         ∧ h ≤ t < h + Frame.NS_PER_HOUR ∧ (Frame.NS_PER_HOUR | h).
Proof.
  unfold CallSpikes.spike_key, CallSpikes.hour_window.
  destruct (CallSpikes.calling_number r) as [k|],
    (CallSpikes.start_time r) as [t|]; cbn.
  - split.
    + intros [= -> Hh]. split; [done|]. exists t. split; [done|].
      by apply floor_to_iff in Hh.
    + intros [[= ->] (t' & [= <-] & Hh)]. do 2 f_equal. by apply floor_to_iff.
  - split; [done|]. by intros [_ (t & ? & _)].
  - split; [done|]. by intros [? _].
  - split; [done|]. by intros [? _].
Qed.

(** X15. The spike table of Call_Spikes counts by clock hour: a caller
    and hour are listed exactly when the caller's outgoing calls that
    start within that hour exceed the threshold, with that number as the
    count. Every listed hour starts on a full hour; a call without a
    calling number or without a readable start time is counted in no
    hour; and a frame without outgoing calls gives two empty tables. *)
Theorem hourly_spike_rule (df : list CallSpikes.cdr)
    (intl_threshold spike_threshold : Z) :
  (∀ r A h, CallSpikes.spike_key r = Some (A, h) ↔
     CallSpikes.calling_number r = Some A
     ∧ ∃ t, CallSpikes.start_time r = Some t
            ∧ h ≤ t < h + Frame.NS_PER_HOUR ∧ (Frame.NS_PER_HOUR | h)) ∧
  (∀ A h n,
     ((A, h), n) ∈ (CallSpikes.analyze_logic df intl_threshold spike_threshold).2 ↔
     n = Frame.len (filter (λ r, CallSpikes.is_outgoing r
                                 ∧ CallSpikes.spike_key r = Some (A, h)) df)
     ∧ spike_threshold < n ∧ 0 < n) ∧
  (∀ A h n,
     ((A, h), n) ∈ (CallSpikes.analyze_logic df intl_threshold spike_threshold).2 →
     (Frame.NS_PER_HOUR | h)) ∧
  (∀ r, CallSpikes.calling_number r = None ∨ CallSpikes.start_time r = None →
     CallSpikes.spike_key r = None) ∧
  (CallSpikes.outgoing_df df = [] →
     CallSpikes.analyze_logic df intl_threshold spike_threshold = ([], [])).
Proof.
  split; [apply spike_key_iff|].
  split; [intros A h n; apply elem_of_call_spikes_hourly|].
  split; [|split].
  - intros A h n (Hn & _ & Hpos)%elem_of_call_spikes_hourly.
    destruct (filter _ df) as [|r l] eqn:Hf; [subst n; by cbn in Hpos|].
    assert (r ∈ filter (λ r, CallSpikes.is_outgoing r
                             ∧ CallSpikes.spike_key r = Some (A, h)) df) as Hr
      by (rewrite Hf; left).
    apply list_elem_of_filter in Hr as [[_ Hk] _].
    by apply spike_key_iff in Hk as (_ & t & _ & _ & Hdiv).
  - intros r [Hr|Hr]; unfold CallSpikes.spike_key, CallSpikes.hour_window;
      rewrite Hr; [done|]. by destruct (CallSpikes.calling_number r).
  - intros Hout. unfold CallSpikes.analyze_logic. by rewrite Hout.
Qed.

(** Ten calls at 10:59 and ten at 11:01 are twenty calls within two
    minutes, but no clock hour holds more than ten of them. *)
Example spike_hours_are_clock_hours :
  let call t := CallSpikes.mkCdr (Some "900") "4411" (Some t) "MO" in
  let before := call (10 * Frame.NS_PER_HOUR + 59 * Frame.NS_PER_MINUTE) in
  let after := call (11 * Frame.NS_PER_HOUR + Frame.NS_PER_MINUTE) in
  (CallSpikes.analyze_logic (replicate 10 before ++ replicate 10 after) 100 15).2 = [] ∧
  (CallSpikes.analyze_logic (replicate 20 before) 100 15).2
    = [(("900", 10 * Frame.NS_PER_HOUR), 20)].
Proof. split; by vm_compute. Qed.

(** ** What a tower-jump event is made of *)

Section TowerEventFacts.
Import TowerJump Derived.
Context (np : numpy).

(** The rows with a previous row are all the rows but the first of each
    imsi. *)
Lemma shifted_rows_count (earlier_rev df : list cdr) :
  (length (filter (λ row, is_Some row.2) (shift_rows earlier_rev df))
   + size (imsis df ∖ imsis earlier_rev) = length df)%nat.
Proof.
  revert earlier_rev. induction df as [|r df IH]; intros earlier_rev.
  - simpl. replace (imsis [] ∖ imsis earlier_rev) with (∅ : gset string)
      by (unfold imsis; set_solver).
    by rewrite size_empty.
  - cbn [shift_rows]. rewrite filter_cons. cbn [snd]. specialize (IH (r :: earlier_rev)).
    destruct (previous_row earlier_rev r) as [p|] eqn:Hprev.
    + rewrite decide_True; [|by exists p].
      apply head_filter_Some in Hprev as (k1 & k2 & -> & Hi & _).
      replace (imsis (r :: df) ∖ imsis (k1 ++ p :: k2))
        with (imsis df ∖ imsis (r :: k1 ++ p :: k2)).
      { simpl. lia. }
      unfold imsis. rewrite !fmap_cons, fmap_app, fmap_cons.
      apply leibniz_equiv. set_solver.
    + rewrite decide_False; [|by intros [? ?]].
      pose proof (proj1 (head_filter_None _ _) Hprev) as Hnew.
      replace (imsis (r :: df) ∖ imsis earlier_rev)
        with ({[imsi r]} ∪ imsis df ∖ imsis (r :: earlier_rev)).
      { rewrite size_union, size_singleton by set_solver. simpl. lia. }
      assert (imsi r ∉ imsis earlier_rev) as Hr.
      { unfold imsis. rewrite elem_of_list_to_set, list_elem_of_fmap.
        intros (x & Hx & Hin). by apply (Hnew x). }
      unfold imsis in *. rewrite !fmap_cons.
      apply leibniz_equiv. clear -Hr. intros x.
      destruct (decide (x = imsi r)) as [->|Hne]; set_solver.
Qed.

Lemma tower_jumps_count (df : list cdr) (max_dist_km max_time_min : Qc) :
  (length (analyze_logic np df max_dist_km max_time_min) + size (imsis df)
   ≤ length df)%nat.
Proof.
  pose proof (shifted_rows_count [] (sort_values df)) as Hcount.
  replace (imsis (sort_values df) ∖ imsis []) with (imsis df) in Hcount.
  2:{ unfold imsis. rewrite (list_to_set_perm_L _ _ (fmap_Permutation imsi _ _
        (sort_values_Permutation df))). apply leibniz_equiv. set_solver. }
  rewrite (Permutation_length (sort_values_Permutation df)) in Hcount.
  assert (length (analyze_logic np df max_dist_km max_time_min)
          ≤ length (filter (λ row, is_Some row.2) (shift_rows [] (sort_values df))))%nat
    as Hle; [|lia].
  unfold analyze_logic. rewrite length_fmap. apply sublist_length.
  apply filter_sublist_impl. intros [r [p|]]; [by eexists|done].
Qed.

Lemma tower_jump_parts (df : list cdr) (max_dist_km max_time_min : Qc) (j : jump) :
  j ∈ analyze_logic np df max_dist_km max_time_min →
  ∃ p r, (∃ l1 l3, sort_values df = l1 ++ p :: r :: l3)
    ∧ imsi p = imsi r ∧ start_time p ≤ start_time r
    ∧ (max_dist_km ≤ dist_km np p r)%Qc
    ∧ (0 ≤ time_diff_min p r)%Qc ∧ (time_diff_min p r ≤ max_time_min)%Qc
    ∧ j = to_jump np (r, Some p).
Proof.
  intros (r & p & Hin & Hd & Ht0 & Ht & ->)%elem_of_tower_jumps.
  apply sorted_previous_adjacent in Hin as (Hadj & Hi & Hle).
  by exists p, r.
Qed.
End TowerEventFacts.

(** X16. Every tower-jump event pairs two records of the file that carry
    the same imsi, the earlier one first: the event names the later
    record's imsi, time and cell, the earlier record's cell, and a
    distance and a time gap that lie within the configured limits. A
    subscriber with a single record is never reported, a file whose
    records all have different imsi values gives no event, there are at
    most as many events as records beyond the first of each subscriber,
    and a negative time limit gives no event. *)
Theorem tower_jump_events (np : TowerJump.numpy) (df : list TowerJump.cdr)
    (max_dist_km max_time_min : Qc) :
  (∀ j, j ∈ TowerJump.analyze_logic np df max_dist_km max_time_min →
     ∃ p r, p ∈ df ∧ r ∈ df
       ∧ TowerJump.imsi p = TowerJump.imsi r
       ∧ TowerJump.start_time p ≤ TowerJump.start_time r
       ∧ TowerJump.jump_imsi j = TowerJump.imsi r
       ∧ TowerJump.jump_start_time j = TowerJump.start_time r
       ∧ TowerJump.from_cell_id j = Some (TowerJump.cell_id p)
       ∧ TowerJump.to_cell_id j = TowerJump.cell_id r
       ∧ TowerJump.jump_distance_km j = Some (TowerJump.dist_km np p r)
       ∧ TowerJump.time_gap_minutes j = Some (TowerJump.time_diff_min p r)
       ∧ (max_dist_km ≤ TowerJump.dist_km np p r)%Qc
       ∧ (0 ≤ TowerJump.time_diff_min p r)%Qc
       ∧ (TowerJump.time_diff_min p r ≤ max_time_min)%Qc) ∧
  (∀ j, j ∈ TowerJump.analyze_logic np df max_dist_km max_time_min →
     (2 ≤ length (filter (λ x, TowerJump.imsi x = TowerJump.jump_imsi j) df))%nat) ∧
  (NoDup (TowerJump.imsi <$> df) →
     TowerJump.analyze_logic np df max_dist_km max_time_min = []) ∧
  (length (TowerJump.analyze_logic np df max_dist_km max_time_min)
   + size (Derived.imsis df) ≤ length df)%nat ∧
  ((max_time_min < 0)%Qc →
     TowerJump.analyze_logic np df max_dist_km max_time_min = []).
Proof.
  split; [|split; [|split; [|split]]].
  - intros j (p & r & (l1 & l3 & Hl) & Hi & Hle & Hd & Ht0 & Ht & ->)%tower_jump_parts.
    exists p, r.
    assert (p ∈ df ∧ r ∈ df) as [Hp Hr].
    { rewrite <- !(sort_values_Permutation df), Hl. set_solver. }
    done.
  - intros j (p & r & (l1 & l3 & Hl) & Hi & _ & _ & _ & _ & ->)%tower_jump_parts.
    rewrite <- (Permutation_length
      (filter_Permutation _ _ _ (sort_values_Permutation df))), Hl.
    rewrite filter_app, !filter_cons. cbn.
    rewrite decide_True by done. rewrite decide_True by done.
    rewrite length_app. simpl. lia.
  - intros Hnd. pose proof (tower_jumps_count np df max_dist_km max_time_min) as Hc.
    unfold Derived.imsis in Hc. rewrite size_list_to_set in Hc by done.
    rewrite length_fmap in Hc. apply nil_length_inv. lia.
  - apply tower_jumps_count.
  - intros Hneg. apply elem_of_nil_inv.
    intros j (p & r & _ & _ & _ & _ & Ht0 & Ht & _)%tower_jump_parts.
    apply (Qcle_not_lt _ _ Ht0). by eapply Qcle_lt_trans.
Qed.

(** ** Cells without a value *)

Lemma filter_fmap_comm {A B : Type} (f : A → B) (P : B → Prop)
    `{∀ y, Decision (P y)} (l : list A) :
  filter P (f <$> l) = f <$> filter (λ x, P (f x)) l.
Proof.
  induction l as [|x l IH]; [done|]. csimpl.
  rewrite !filter_cons. destruct (decide (P (f x))); csimpl; by rewrite IH.
Qed.

Lemma filter_comm {A : Type} (P Q : A → Prop)
    `{∀ x, Decision (P x)} `{∀ x, Decision (Q x)} (l : list A) :
  filter P (filter Q l) = filter Q (filter P l).
Proof. rewrite !list_filter_filter. apply list_filter_iff. tauto. Qed.

Section GroupSizesInvariance.
Context {A K : Type} `{EqDecision K} (leb : K → K → bool).

Lemma group_sizes_filter_key (key : A → option K) (P : A → Prop)
    `{∀ x, Decision (P x)} (df : list A) :
  (∀ r, is_Some (key r) → P r) →
  Frame.group_sizes leb key (filter P df) = Frame.group_sizes leb key df.
Proof.
  intros HP. unfold Frame.group_sizes, Frame.groupby, Frame.group_keys.
  rewrite omap_filter_is_Some by done.
  rewrite <- !list_fmap_compose. apply list_fmap_ext. intros _ k _. cbn.
  f_equal. rewrite get_group_filter. unfold Frame.get_group. f_equal.
  apply list_filter_iff. intros r. split; [tauto|].
  intros Hk. split; [|done]. apply HP. by rewrite Hk.
Qed.

Lemma group_sizes_fmap {B : Type} (f : B → A) (key : A → option K) (df : list B) :
  Frame.group_sizes leb key (f <$> df) = Frame.group_sizes leb (key ∘ f) df.
Proof.
  unfold Frame.group_sizes, Frame.groupby, Frame.group_keys.
  rewrite omap_fmap_compose.
  rewrite <- !list_fmap_compose. apply list_fmap_ext. intros _ k _. cbn.
  f_equal. unfold Frame.len, Frame.get_group. by rewrite filter_fmap_length.
Qed.

End GroupSizesInvariance.

Lemma call_spikes_analyze_alt (df : list CallSpikes.cdr) (intl spike : Z) :
  CallSpikes.analyze_logic df intl spike =
  (filter (λ row, intl < row.2)
     (Frame.group_sizes String.leb CallSpikes.calling_number
        (filter CallSpikes.is_international (CallSpikes.outgoing_df df))),
   filter (λ row, spike < row.2)
     (Frame.group_sizes (Frame.lex_leb String.leb Z.leb) CallSpikes.spike_key
        (CallSpikes.outgoing_df df))).
Proof. unfold CallSpikes.analyze_logic. by destruct (CallSpikes.outgoing_df df). Qed.

Lemma spike_key_is_Some (r : CallSpikes.cdr) :
  is_Some (CallSpikes.spike_key r) →
  is_Some (CallSpikes.calling_number r) ∧ is_Some (CallSpikes.start_time r).
Proof.
  unfold CallSpikes.spike_key, CallSpikes.hour_window.
  destruct (CallSpikes.calling_number r), (CallSpikes.start_time r); cbn;
    intros [? ?]; done.
Qed.

Lemma astype_str_upper_nan : PyStr.upper (SimSwap.astype_str None) = "NAN".
Proof. reflexivity. Qed.

(** X17. How Call_Spikes treats cells without a value. parse_cdr keeps
    every row. A row with no call_direction is not outgoing; a row with
    no called_number counts as an international call; a row with no
    calling_number, or whose start_time does not parse, is counted in no
    hour. Rows without a calling_number change neither table, and rows
    without a readable start_time do not change the spike table. *)
Theorem call_spikes_null_cells (to_datetime : string → option Z)
    (df : list CallSpikesRows.raw) (intl_threshold spike_threshold : Z) :
  let rows := CallSpikesRows.parse_cdr to_datetime df in
  length rows = length df ∧
  (∀ r, CallSpikesRows.raw_call_direction r = None →
     CallSpikes.is_outgoing (CallSpikesRows.coerce to_datetime r) = false) ∧
  (∀ r, CallSpikesRows.raw_called_number r = None →
     CallSpikes.is_international (CallSpikesRows.coerce to_datetime r) = true) ∧
  (∀ r, CallSpikesRows.raw_calling_number r = None
        ∨ CallSpikesRows.raw_start_time r ≫= to_datetime = None →
     CallSpikes.spike_key (CallSpikesRows.coerce to_datetime r) = None) ∧
  CallSpikes.analyze_logic rows intl_threshold spike_threshold
    = CallSpikes.analyze_logic
        (filter (λ r, is_Some (CallSpikes.calling_number r)) rows)
        intl_threshold spike_threshold ∧
  (CallSpikes.analyze_logic rows intl_threshold spike_threshold).2
    = (CallSpikes.analyze_logic
         (filter (λ r, is_Some (CallSpikes.calling_number r)
                       ∧ is_Some (CallSpikes.start_time r)) rows)
         intl_threshold spike_threshold).2.
Proof.
  intros rows. split; [apply length_fmap|]. split; [|split; [|split; [|split]]].
  - intros r Hr. unfold CallSpikes.is_outgoing, CallSpikesRows.coerce. cbn. by rewrite Hr.
  - intros r Hr. unfold CallSpikes.is_international, CallSpikesRows.coerce. cbn.
    by rewrite Hr.
  - intros r [Hr|Hr]; unfold CallSpikes.spike_key, CallSpikes.hour_window,
      CallSpikesRows.coerce; cbn; rewrite Hr; [done|].
    by destruct (CallSpikesRows.raw_calling_number r).
  - rewrite !call_spikes_analyze_alt. unfold CallSpikes.outgoing_df.
    rewrite (filter_comm _ (λ r, is_Some (CallSpikes.calling_number r))).
    rewrite (filter_comm _ (λ r, is_Some (CallSpikes.calling_number r))).
    f_equal; f_equal; symmetry; apply group_sizes_filter_key; [done|].
    intros r Hr. by apply spike_key_is_Some in Hr as [? _].
  - rewrite !call_spikes_analyze_alt. cbn [snd]. unfold CallSpikes.outgoing_df.
    rewrite (filter_comm _ (λ r, is_Some (CallSpikes.calling_number r)
                                 ∧ is_Some (CallSpikes.start_time r))).
    f_equal. symmetry. apply group_sizes_filter_key, spike_key_is_Some.
Qed.

Lemma strange_sim_analyze_alt (df : list StrangeSim.cdr) (threshold : Z) :
  StrangeSim.analyze_logic df threshold =
  Frame.sort_counts_desc
    (filter (λ row, threshold < row.2)
       (Frame.group_sizes String.leb (λ r, Some (StrangeSim.calling_number r))
          (filter StrangeSim.intl_mask (filter StrangeSim.is_outgoing df)))).
Proof. unfold StrangeSim.analyze_logic. by destruct (filter StrangeSim.is_outgoing df). Qed.

(** X18. How Strange_sim_use and Toll_Free_Abuse treat their cells.
    parse_cdr keeps every row; a missing calling_number becomes the
    subscriber "nan"; a number read as a float loses its final ".0", so
    it names the same subscriber as the number read as text; a row with
    no call_direction is not outgoing, and a row with no called_number
    is no international call. The suspicious numbers of Strange_sim_use
    and the top targets of Toll_Free_Abuse do not depend on how, or
    whether, the start times parse. *)
Theorem count_detectors_cells (to_datetime to_datetime' : string → option Z)
    (ss : list StrangeSimRows.raw) (tf : list TollFreeRows.raw)
    (threshold : Z) (prefixes_str : string) :
  (length (StrangeSimRows.parse_cdr to_datetime ss) = length ss
   ∧ length (TollFreeRows.parse_cdr to_datetime tf) = length tf) ∧
  (∀ r, StrangeSimRows.raw_calling_number r = None →
     StrangeSim.calling_number (StrangeSimRows.coerce to_datetime r) = "nan") ∧
  (∀ r, TollFreeRows.raw_calling_number r = None →
     TollFree.calling_number (TollFreeRows.coerce to_datetime r) = "nan") ∧
  (∀ r r' d, (∀ s1 s2, d ≠ (s1 ++ String "."%char s2)%string) →
     StrangeSimRows.raw_calling_number r = Some d →
     StrangeSimRows.raw_calling_number r' = Some (d ++ ".0")%string →
     StrangeSim.calling_number (StrangeSimRows.coerce to_datetime r)
     = StrangeSim.calling_number (StrangeSimRows.coerce to_datetime r')) ∧
  (∀ r, StrangeSimRows.raw_call_direction r = None →
     StrangeSim.is_outgoing (StrangeSimRows.coerce to_datetime r) = false) ∧
  (∀ r, StrangeSimRows.raw_called_number r = None →
     StrangeSim.intl_mask (StrangeSimRows.coerce to_datetime r) = false) ∧
  StrangeSim.analyze_logic (StrangeSimRows.parse_cdr to_datetime ss) threshold
    = StrangeSim.analyze_logic (StrangeSimRows.parse_cdr to_datetime' ss) threshold ∧
  (TollFree.analyze_logic (TollFreeRows.parse_cdr to_datetime tf)
     threshold prefixes_str).2
    = (TollFree.analyze_logic (TollFreeRows.parse_cdr to_datetime' tf)
         threshold prefixes_str).2.
Proof.
  split; [split; apply length_fmap|].
  split; [by intros r Hr; cbn; rewrite Hr|].
  split; [by intros r Hr; cbn; rewrite Hr|].
  split.
  { intros r r' d Hd Hr Hr'. cbn. rewrite Hr, Hr'.
    change (PyStr.strip_dot_zero d = PyStr.strip_dot_zero (d ++ ".0")%string).
    by rewrite strip_dot_zero_suffix, strip_dot_zero_no_dot. }
  split.
  { intros r Hr. unfold StrangeSim.is_outgoing. cbn. by rewrite Hr. }
  split.
  { intros r Hr. unfold StrangeSim.intl_mask. cbn. by rewrite Hr. }
  split.
  - rewrite !strange_sim_analyze_alt. unfold StrangeSimRows.parse_cdr.
    rewrite !filter_fmap_comm, !group_sizes_fmap. done.
  - rewrite !top_targets_value_counts. unfold TollFree.tollfree_calls,
      TollFreeRows.parse_cdr.
    rewrite !filter_fmap_comm, <- !list_fmap_compose. done.
Qed.

(** ** Tower_Jumping.py: the rows that reach the analysis *)

Section TowerRowsFacts.
Import TowerJumpRows.
Context (to_datetime : string → option Z) (to_numeric : string → option Qc).

Lemma tower_keep_row_Some (r : raw) (c : TowerJump.cdr) :
  keep_row to_datetime to_numeric r = Some c ↔
  raw_imsi r = Some (TowerJump.imsi c)
  ∧ raw_start_time r ≫= to_datetime = Some (TowerJump.start_time c)
  ∧ raw_latitude r ≫= to_numeric = Some (TowerJump.latitude c)
  ∧ raw_longitude r ≫= to_numeric = Some (TowerJump.longitude c)
  ∧ raw_cell_id r = Some (TowerJump.cell_id c).
Proof.
  unfold keep_row.
  destruct (raw_imsi r) as [i|]; cbn; [|naive_solver].
  destruct (raw_start_time r ≫= to_datetime) as [t|]; cbn; [|naive_solver].
  destruct (raw_latitude r ≫= to_numeric) as [lat|]; cbn; [|naive_solver].
  destruct (raw_longitude r ≫= to_numeric) as [lon|]; cbn; [|naive_solver].
  destruct (raw_cell_id r) as [cell|]; cbn; [|naive_solver].
  destruct c as [i' t' lat' lon' cell']. cbn. split.
  - by intros [= -> -> -> -> ->].
  - by intros ([= ->] & [= ->] & [= ->] & [= ->] & [= ->]).
Qed.

Lemma tower_keep_row_usable (r : raw) :
  is_Some (keep_row to_datetime to_numeric r) ↔ Derived.usable to_datetime to_numeric r.
Proof.
  unfold Derived.usable, keep_row.
  destruct (raw_imsi r) as [i|]; cbn; [|split; [by intros [? ?]|by intros [[? ?] _]]].
  destruct (raw_start_time r ≫= to_datetime) as [t|]; cbn;
    [|split; [by intros [? ?]|by intros (_ & [? ?] & _)]].
  destruct (raw_latitude r ≫= to_numeric) as [lat|]; cbn;
    [|split; [by intros [? ?]|by intros (_ & _ & [? ?] & _)]].
  destruct (raw_longitude r ≫= to_numeric) as [lon|]; cbn;
    [|split; [by intros [? ?]|by intros (_ & _ & _ & [? ?] & _)]].
  destruct (raw_cell_id r) as [cell|]; cbn;
    [|split; [by intros [? ?]|by intros (_ & _ & _ & _ & [? ?])]].
  split; [intros _|by eexists]. repeat split; by eexists.
Qed.

Lemma omap_length_filter {A B : Type} (f : A → option B) (l : list A) :
  length (omap f l) = length (filter (λ x, is_Some (f x)) l).
Proof.
  induction l as [|x l IH]; [done|]. rewrite filter_cons. cbn.
  destruct (f x) as [y|] eqn:Hf.
  - rewrite decide_True; [|by eexists]. simpl. by rewrite IH.
  - rewrite decide_False; [done|]. by intros [? ?].
Qed.
End TowerRowsFacts.

(** X19. Tower_Jumping's parse_cdr keeps, in file order, exactly the
    rows whose imsi and cell_id are present and whose start_time,
    latitude and longitude parse; every other row is dropped before the
    analysis. So every reported event pairs two usable rows of the same
    imsi, and a file without usable rows gives no event. *)
Theorem tower_parse_cdr_usable_rows (to_datetime : string → option Z)
    (to_numeric : string → option Qc) (np : TowerJump.numpy)
    (df df' : list TowerJumpRows.raw) (max_dist_km max_time_min : Qc) :
  (∀ r, is_Some (TowerJumpRows.keep_row to_datetime to_numeric r)
        ↔ Derived.usable to_datetime to_numeric r) ∧
  (∀ c, c ∈ TowerJumpRows.parse_cdr to_datetime to_numeric df ↔
     ∃ r, r ∈ df ∧ Derived.usable to_datetime to_numeric r
       ∧ TowerJumpRows.raw_imsi r = Some (TowerJump.imsi c)
       ∧ TowerJumpRows.raw_start_time r ≫= to_datetime = Some (TowerJump.start_time c)
       ∧ TowerJumpRows.raw_latitude r ≫= to_numeric = Some (TowerJump.latitude c)
       ∧ TowerJumpRows.raw_longitude r ≫= to_numeric = Some (TowerJump.longitude c)
       ∧ TowerJumpRows.raw_cell_id r = Some (TowerJump.cell_id c)) ∧
  length (TowerJumpRows.parse_cdr to_datetime to_numeric df)
    = length (filter (Derived.usable to_datetime to_numeric) df) ∧
  TowerJumpRows.parse_cdr to_datetime to_numeric (df ++ df')
    = TowerJumpRows.parse_cdr to_datetime to_numeric df
      ++ TowerJumpRows.parse_cdr to_datetime to_numeric df' ∧
  (∀ j, j ∈ TowerJump.analyze_logic np
              (TowerJumpRows.parse_cdr to_datetime to_numeric df)
              max_dist_km max_time_min →
     ∃ r1 r2, r1 ∈ df ∧ r2 ∈ df
       ∧ Derived.usable to_datetime to_numeric r1
       ∧ Derived.usable to_datetime to_numeric r2
       ∧ TowerJumpRows.raw_imsi r1 = Some (TowerJump.jump_imsi j)
       ∧ TowerJumpRows.raw_imsi r2 = Some (TowerJump.jump_imsi j)
       ∧ TowerJumpRows.raw_cell_id r1 = TowerJump.from_cell_id j
       ∧ TowerJumpRows.raw_cell_id r2 = Some (TowerJump.to_cell_id j)) ∧
  (filter (Derived.usable to_datetime to_numeric) df = [] →
     TowerJump.analyze_logic np (TowerJumpRows.parse_cdr to_datetime to_numeric df)
       max_dist_km max_time_min = []).
Proof.
  assert (∀ c, c ∈ TowerJumpRows.parse_cdr to_datetime to_numeric df ↔
     ∃ r, r ∈ df ∧ Derived.usable to_datetime to_numeric r
       ∧ TowerJumpRows.raw_imsi r = Some (TowerJump.imsi c)
       ∧ TowerJumpRows.raw_start_time r ≫= to_datetime = Some (TowerJump.start_time c)
       ∧ TowerJumpRows.raw_latitude r ≫= to_numeric = Some (TowerJump.latitude c)
       ∧ TowerJumpRows.raw_longitude r ≫= to_numeric = Some (TowerJump.longitude c)
       ∧ TowerJumpRows.raw_cell_id r = Some (TowerJump.cell_id c)) as Hrows.
  { intros c. unfold TowerJumpRows.parse_cdr. rewrite list_elem_of_omap.
    split; intros (r & Hr & Hc); exists r; (split; [done|]).
    - split; [apply tower_keep_row_usable; by rewrite Hc|].
      by apply tower_keep_row_Some.
    - destruct Hc as [_ Hc]. by apply tower_keep_row_Some. }
  assert (length (TowerJumpRows.parse_cdr to_datetime to_numeric df)
          = length (filter (Derived.usable to_datetime to_numeric) df)) as Hlen.
  { unfold TowerJumpRows.parse_cdr. rewrite omap_length_filter. f_equal.
    apply list_filter_iff. intros r. apply tower_keep_row_usable. }
  split; [apply tower_keep_row_usable|]. split; [done|]. split; [done|].
  split; [apply omap_app|]. split.
  - intros j (p & r & (l1 & l3 & Hl) & Hi & _ & _ & _ & _ & ->)%tower_jump_parts.
    assert (p ∈ TowerJumpRows.parse_cdr to_datetime to_numeric df
            ∧ r ∈ TowerJumpRows.parse_cdr to_datetime to_numeric df) as [Hp Hr].
    { rewrite <- !(sort_values_Permutation (TowerJumpRows.parse_cdr _ _ df)), Hl.
      set_solver. }
    apply Hrows in Hp as (r1 & Hr1 & Hu1 & Hi1 & _ & _ & _ & Hc1).
    apply Hrows in Hr as (r2 & Hr2 & Hu2 & Hi2 & _ & _ & _ & Hc2).
    exists r1, r2. cbn. rewrite Hi in Hi1. done.
  - intros Hnone. rewrite Hnone in Hlen. apply nil_length_inv in Hlen.
    by rewrite Hlen.
Qed.

(** ** The fields of the prefix list *)

Lemma split_nonempty (c : ascii) (s : string) : PyStr.split c s ≠ [].
Proof.
  destruct s as [|d s]; simpl; [done|].
  destruct (PyStr.split c s); [done|]. by destruct (Ascii.eqb c d).
Qed.

Lemma split_cons_sep (c : ascii) (s : string) :
  PyStr.split c (String c s) = EmptyString :: PyStr.split c s.
Proof.
  simpl. pose proof (split_nonempty c s).
  destruct (PyStr.split c s); [done|]. by rewrite Ascii.eqb_refl.
Qed.

Lemma split_append (c : ascii) (s1 s2 : string) :
  PyStr.split c (s1 ++ String c s2)%string = PyStr.split c s1 ++ PyStr.split c s2.
Proof.
  induction s1 as [|d s1 IH]; [apply split_cons_sep|].
  change (String d s1 ++ String c s2)%string with (String d (s1 ++ String c s2)%string).
  cbn [PyStr.split]. rewrite IH.
  pose proof (split_nonempty c s1).
  destruct (PyStr.split c s1) as [|f fs]; [done|]. simpl.
  by destruct (Ascii.eqb c d).
Qed.

Lemma split_no_sep (c : ascii) (s : string) :
  (∀ s1 s2, s ≠ (s1 ++ String c s2)%string) → PyStr.split c s = [s].
Proof.
  induction s as [|d s IH]; [done|]. intros Hsep. simpl.
  rewrite IH by (intros s1 s2 ->; by apply (Hsep (String d s1) s2)).
  destruct (Ascii.eqb_spec c d) as [->|Hne]; [|done].
  by destruct (Hsep EmptyString s).
Qed.

(** X20. The prefix list is read field by field: the prefixes of a
    string with a comma are those of the part before the comma followed
    by those of the part after it, and a string without comma gives its
    stripped text as the only prefix, or none when it is blank. *)
Theorem parse_prefixes_fields (s1 s2 s : string) :
  TollFree.parse_prefixes (s1 ++ String ","%char s2)
    = TollFree.parse_prefixes s1 ++ TollFree.parse_prefixes s2 ∧
  ((∀ a b, s ≠ (a ++ String ","%char b)%string) →
     TollFree.parse_prefixes s
     = if decide (PyStr.strip s = "") then [] else [PyStr.strip s]) ∧
  TollFree.parse_prefixes TollFree.DEFAULT_PREFIXES
    = ["1800"; "1860"; "800"; "198"; "199"].
Proof.
  split; [|split; [|by vm_compute]].
  - unfold TollFree.parse_prefixes. by rewrite split_append, fmap_app, filter_app.
  - intros Hsep. unfold TollFree.parse_prefixes. rewrite split_no_sep by done.
    cbn [fmap list_fmap]. rewrite filter_cons, filter_nil.
    destruct (decide (PyStr.strip s = "")) as [Hs|Hs].
    + by rewrite decide_False by (by intros ?).
    + by rewrite decide_True.
Qed.

(** ** The reported score *)








(** ** The distance between two towers *)

Lemma Qc_odd_zero (f : Qc → Qc) : (∀ x, f (- x)%Qc = (- f x)%Qc) → f 0%Qc = 0%Qc.
Proof.
  intros Hodd. pose proof (Hodd 0%Qc) as H0. change (- 0)%Qc with 0%Qc in H0.
  apply Qc_is_canon. apply (f_equal this) in H0.
  unfold Qcopp, Q2Qc in H0. cbn [this] in H0.
  assert (this (f 0%Qc) == - this (f 0%Qc))%Q as H
    by (rewrite H0 at 1; apply Qred_correct).
  change (this 0%Qc) with 0%Q. revert H. generalize (this (f 0%Qc)). intros a H. lra.
Qed.

Section HaversineFacts.
Import TowerJump.
Context (np : numpy).
Hypothesis radians_odd : ∀ x, radians np (- x) = (- radians np x)%Qc.
Hypothesis sin_odd : ∀ x, sin np (- x) = (- sin np x)%Qc.
Hypothesis sqrt_0 : sqrt np 0 = 0%Qc.
Hypothesis arctan2_0 : arctan2 np 0 (sqrt np 1) = 0%Qc.

Lemma half_angle_square (x y : Qc) :
  (sin np (radians np (x - y) / Qc_of_Z 2) ^ 2
   = sin np (radians np (y - x) / Qc_of_Z 2) ^ 2)%Qc.
Proof using radians_odd sin_odd.
  replace (x - y)%Qc with (- (y - x))%Qc by ring.
  rewrite radians_odd.
  replace (- radians np (y - x) / Qc_of_Z 2)%Qc
    with (- (radians np (y - x) / Qc_of_Z 2))%Qc by (unfold Qcdiv; ring).
  rewrite sin_odd. simpl. ring.
Qed.

Lemma haversine_sym (lat1 lon1 lat2 lon2 : Qc) :
  haversine_vectorized np lat1 lon1 lat2 lon2
  = haversine_vectorized np lat2 lon2 lat1 lon1.
Proof using radians_odd sin_odd.
  unfold haversine_vectorized. cbv zeta.
  rewrite (half_angle_square lat2 lat1), (half_angle_square lon2 lon1).
  by rewrite (Qcmult_comm (cos np (radians np lat1))).
Qed.

Lemma haversine_same_point (lat lon : Qc) :
  haversine_vectorized np lat lon lat lon = 0%Qc.
Proof using radians_odd sin_odd sqrt_0 arctan2_0.
  unfold haversine_vectorized. cbv zeta.
  replace (lat - lat)%Qc with 0%Qc by ring.
  replace (lon - lon)%Qc with 0%Qc by ring.
  rewrite (Qc_odd_zero (radians np) radians_odd).
  replace (0 / Qc_of_Z 2)%Qc with 0%Qc by (unfold Qcdiv; ring).
  rewrite (Qc_odd_zero (sin np) sin_odd).
  replace (0 ^ 2 + cos np (radians np lat) * cos np (radians np lat) * 0 ^ 2)%Qc
    with 0%Qc by (simpl; ring).
  replace (1 - 0)%Qc with 1%Qc by ring.
  rewrite sqrt_0, arctan2_0. ring.
Qed.

End HaversineFacts.

(** X22. For trigonometric functions that behave as numpy's do
    (radians and sin are odd, the square root of 0 is 0, and arctan2 of
    0 and the square root of 1 is 0), the haversine distance does not
    depend on the direction of travel and is 0 between a point and
    itself. So with a positive minimum distance a record at the same
    coordinates as the previous one is never reported. *)
Theorem haversine_symmetric (np : TowerJump.numpy) (lat1 lon1 lat2 lon2 : Qc)
    (p r : TowerJump.cdr) (max_dist_km max_time_min : Qc) :
  (∀ x, TowerJump.radians np (- x) = (- TowerJump.radians np x)%Qc) →
  (∀ x, TowerJump.sin np (- x) = (- TowerJump.sin np x)%Qc) →
  TowerJump.sqrt np 0 = 0%Qc →
  TowerJump.arctan2 np 0 (TowerJump.sqrt np 1) = 0%Qc →
  TowerJump.haversine_vectorized np lat1 lon1 lat2 lon2
    = TowerJump.haversine_vectorized np lat2 lon2 lat1 lon1 ∧
  TowerJump.haversine_vectorized np lat1 lon1 lat1 lon1 = 0%Qc ∧
  TowerJump.dist_km np p r = TowerJump.dist_km np r p ∧
  ((0 < max_dist_km)%Qc →
   TowerJump.latitude p = TowerJump.latitude r →
   TowerJump.longitude p = TowerJump.longitude r →
   TowerJump.mask np max_dist_km max_time_min (r, Some p) = false).
Proof.
  intros Hrad Hsin Hsqrt Hatan.
  split; [by apply haversine_sym|]. split; [by apply haversine_same_point|].
  split; [by apply haversine_sym|].
  intros Hpos Hlat Hlon. apply not_true_is_false.
  intros (Hd & _)%mask_Some. unfold TowerJump.dist_km in Hd.
  rewrite Hlat, Hlon, haversine_same_point in Hd by done.
  by apply Qclt_not_le in Hpos.
Qed.

Lemma haversine_symmetric_witness :
  let np := TowerJump.mkNumpy id id id id (λ y _, y) in
  let p := TowerJump.mkCdr "I1" 0 (Qc_of_Z 12) (Qc_of_Z 77) "C1" in
  let r := TowerJump.mkCdr "I1" Frame.NS_PER_MINUTE (Qc_of_Z 12) (Qc_of_Z 77) "C2" in
  TowerJump.haversine_vectorized np (Qc_of_Z 12) (Qc_of_Z 77) (Qc_of_Z 13) (Qc_of_Z 78)
    = TowerJump.haversine_vectorized np (Qc_of_Z 13) (Qc_of_Z 78) (Qc_of_Z 12) (Qc_of_Z 77)
  ∧ TowerJump.mask np (Qc_of_Z 10) (Qc_of_Z 5) (r, Some p) = false.
Proof.
  intros np p r.
  destruct (haversine_symmetric np (Qc_of_Z 12) (Qc_of_Z 77) (Qc_of_Z 13) (Qc_of_Z 78)
              p r (Qc_of_Z 10) (Qc_of_Z 5)) as (Hsym & _ & _ & Hsame); [done..|].
  split; [exact Hsym|]. by apply Hsame.
Defined.
